(** * Kernel of the Tab5 application framework: a shallow embedding

    The development follows the kernel components of the repository:

    - [MemMgr]     : src/framework/system/memory_manager.{h,cpp}
    - [Events]     : src/framework/system/event_system.{h,cpp}
    - [Sched]      : src/framework/system/task_scheduler.{h,cpp}
    - [BaseApp]    : src/apps/base_app.{h,cpp}
    - [AppManager] : src/apps/app_manager.{h,cpp}
    - [Libstdcxx]  : the [std::sort] of the C++ library the code calls
                     (libstdc++, bits/stl_algo.h and bits/stl_heap.h)

    The first part is the embedding of the code, the second part the
    proofs, one module of proofs per component.

    The target is the ESP32-P4 (a 32-bit RISC-V core), so [size_t],
    [uint32_t] and data pointers are 32 bits wide; [uint8_t] is 8 bits.
    Machine integers are values of [Z] and every arithmetic operation
    that can leave the range has its wrap-around written out. *)

From stdpp Require Import base list sorting gmap strings.
From Stdlib Require Import ZArith Lia.

Local Open Scope Z_scope.

(** ** Machine integers *)

Definition wrap32 (z : Z) : Z := z mod 2 ^ 32.
Definition wrap8 (z : Z) : Z := z mod 2 ^ 8.

(** Error codes of os_config.h. *)
Inductive os_error_t : Set :=
| OS_OK
| OS_ERROR_GENERIC
| OS_ERROR_NO_MEMORY
| OS_ERROR_INVALID_PARAM
| OS_ERROR_NOT_FOUND
| OS_ERROR_TIMEOUT
| OS_ERROR_BUSY
| OS_ERROR_NOT_SUPPORTED
| OS_ERROR_HARDWARE
| OS_ERROR_FILESYSTEM
| OS_ERROR_PERMISSION
| OS_ERROR_NOT_AVAILABLE
| OS_ERROR_NOT_IMPLEMENTED.

Definition OS_MAX_APPS : Z := 12.
Definition OS_MAX_TASKS : Z := 32.
Definition OS_EVENT_QUEUE_SIZE : Z := 128.

(** ** Memory manager *)

Module MemMgr.

(** A pointer is its address; 0 is [nullptr]. *)
Definition ptr_t := Z.

Record MemoryBlock : Set := mkBlock {
  ptr : ptr_t;
  size : Z;
  timestamp : Z;
  file : ptr_t;
  line : Z;
  inUse : bool
}.

Record MemoryPool : Set := mkPool {
  m_blockSize : Z;
  m_totalBlocks : Z;
  m_freeBlocks : Z;
  m_memory : ptr_t;
  m_blockUsed : list bool
}.

Record MemoryManager : Set := mkMM {
  m_activeBlocks : list MemoryBlock;
  m_totalAllocated : Z;
  m_peakAllocated : Z;
  m_allocationCount : Z;
  m_deallocationCount : Z;
  m_pools : list MemoryPool;
  m_initialized : bool
}.

(** [MemoryPool::MemoryPool].  [mem] is what [heap_caps_malloc] answers
    for the backing buffer (0 when it fails). *)
Definition new_pool (blockSize blockCount : Z) (mem : ptr_t) : MemoryPool :=
  if mem =? 0
  then mkPool blockSize 0 0 0 []
  else mkPool blockSize blockCount blockCount mem
              (replicate (Z.to_nat blockCount) false).

(** The scan [for (i = 0; i < m_totalBlocks; i++) if (!m_blockUsed[i])]:
    index of the first unused block among the first [n] entries. *)
Fixpoint first_unused (used : list bool) (i : nat) (n : nat) : option nat :=
  match n, used with
  | S n', u :: rest => if u then first_unused rest (S i) n' else Some i
  | _, _ => None
  end.

(** [MemoryPool::allocate]. *)
Definition pool_allocate (p : MemoryPool) : ptr_t * MemoryPool :=
  if m_freeBlocks p =? 0 then (0, p)
  else match first_unused (m_blockUsed p) 0 (Z.to_nat (m_totalBlocks p)) with
       | Some i =>
           (m_memory p + Z.of_nat i * m_blockSize p,
            mkPool (m_blockSize p) (m_totalBlocks p)
                   (wrap32 (m_freeBlocks p - 1)) (m_memory p)
                   (<[i := true]> (m_blockUsed p)))
       | None => (0, p)
       end.

(** [MemoryPool::deallocate]. *)
Definition pool_deallocate (p : MemoryPool) (q : ptr_t) : bool * MemoryPool :=
  if (q =? 0) || (m_memory p =? 0) then (false, p)
  else if q <? m_memory p then (false, p)
  else
    let offset := q - m_memory p in
    if negb (offset mod m_blockSize p =? 0) then (false, p)
    else
      let blockIndex := offset / m_blockSize p in
      if m_totalBlocks p <=? blockIndex then (false, p)
      else match m_blockUsed p !! Z.to_nat blockIndex with
           | Some true =>
               (true,
                mkPool (m_blockSize p) (m_totalBlocks p)
                       (wrap32 (m_freeBlocks p + 1)) (m_memory p)
                       (<[Z.to_nat blockIndex := false]> (m_blockUsed p)))
           | _ => (false, p)
           end.

(** The default-constructed manager. *)
Definition empty : MemoryManager := mkMM [] 0 0 0 0 [] false.

(** [MemoryManager::initialize]; [mems] are the four backing buffers
    the heap hands out, in order. *)
Definition initialize (s : MemoryManager) (mems : ptr_t * ptr_t * ptr_t * ptr_t)
  : os_error_t * MemoryManager :=
  if m_initialized s then (OS_OK, s)
  else
    let '(a, b, c, d) := mems in
    (OS_OK,
     mkMM (m_activeBlocks s) (m_totalAllocated s) (m_peakAllocated s)
          (m_allocationCount s) (m_deallocationCount s)
          (m_pools s ++ [new_pool 16 64 a; new_pool 64 32 b;
                         new_pool 256 16 c; new_pool 1024 8 d])
          true).

(** The loop over the pools in [MemoryManager::allocate]. *)
Fixpoint pools_allocate (sz : Z) (pools : list MemoryPool)
  : ptr_t * list MemoryPool :=
  match pools with
  | [] => (0, [])
  | p :: ps =>
      if (sz <=? m_blockSize p) && (0 <? m_freeBlocks p) then
        let '(q, p') := pool_allocate p in
        if q =? 0
        then let '(r, ps') := pools_allocate sz ps in (r, p' :: ps')
        else (q, p' :: ps)
      else let '(r, ps') := pools_allocate sz ps in (r, p :: ps')
  end.

(** [MemoryManager::allocate].  [now] is the reading of [millis()] and
    [heap] the answer of [heap_caps_malloc] should the fallback be
    reached (0 when the heap is exhausted). *)
Definition allocate (s : MemoryManager) (sz : Z) (fl : ptr_t) (ln : Z)
    (now : Z) (heap : ptr_t) : ptr_t * MemoryManager :=
  if negb (m_initialized s) || (sz =? 0) then (0, s)
  else
    let '(q1, pools1) :=
      if sz <=? 1024 then pools_allocate sz (m_pools s) else (0, m_pools s) in
    let q := if q1 =? 0 then heap else q1 in
    if q =? 0 then
      (0, mkMM (m_activeBlocks s) (m_totalAllocated s) (m_peakAllocated s)
               (m_allocationCount s) (m_deallocationCount s) pools1
               (m_initialized s))
    else
      let total := wrap32 (m_totalAllocated s + sz) in
      (q, mkMM (m_activeBlocks s ++ [mkBlock q sz now fl ln true])
               total
               (if m_peakAllocated s <? total then total else m_peakAllocated s)
               (wrap32 (m_allocationCount s + 1))
               (m_deallocationCount s) pools1 (m_initialized s)).

(** [MemoryManager::findBlock]: position of the first record of [q]. *)
Definition findBlock (s : MemoryManager) (q : ptr_t) : option (nat * MemoryBlock) :=
  list_find (fun b => ptr b = q) (m_activeBlocks s).

(** The loop over the pools in [MemoryManager::deallocate]. *)
Fixpoint pools_deallocate (q : ptr_t) (pools : list MemoryPool)
  : bool * list MemoryPool :=
  match pools with
  | [] => (false, [])
  | p :: ps =>
      let '(ok, p') := pool_deallocate p q in
      if ok then (true, p' :: ps)
      else let '(r, ps') := pools_deallocate q ps in (r, p' :: ps')
  end.

(** [MemoryManager::deallocate]. *)
Definition deallocate (s : MemoryManager) (q : ptr_t) : bool * MemoryManager :=
  if (q =? 0) || negb (m_initialized s) then (false, s)
  else match findBlock s q with
       | None => (false, s)
       | Some (k, b) =>
           let '(_, pools1) := pools_deallocate q (m_pools s) in
           (true,
            mkMM (delete k (m_activeBlocks s))
                 (wrap32 (m_totalAllocated s - size b))
                 (m_peakAllocated s)
                 (m_allocationCount s)
                 (wrap32 (m_deallocationCount s + 1))
                 pools1 (m_initialized s))
       end.

Definition getTotalAllocated (s : MemoryManager) : Z := m_totalAllocated s.
Definition getActiveAllocations (s : MemoryManager) : Z :=
  Z.of_nat (length (m_activeBlocks s)).

(** [MemoryManager::checkLeaks]: counts the records flagged in use. *)
Definition checkLeaks (s : MemoryManager) : Z :=
  wrap32 (Z.of_nat (length (List.filter inUse (m_activeBlocks s)))).

(** *** Call sequences

    A client drives the manager through [allocate] and [deallocate];
    the answers of the platform ([millis], [heap_caps_malloc]) travel
    with the call that consumes them. *)

Inductive call : Set :=
| Allocate (sz : Z) (fl : ptr_t) (ln : Z) (now : Z) (heap : ptr_t)
| Deallocate (q : ptr_t).

Inductive reply : Set :=
| Pointer (q : ptr_t)
| Freed (ok : bool).

Definition step (s : MemoryManager) (c : call) : reply * MemoryManager :=
  match c with
  | Allocate sz fl ln now heap =>
      let '(q, s') := allocate s sz fl ln now heap in (Pointer q, s')
  | Deallocate q =>
      let '(ok, s') := deallocate s q in (Freed ok, s')
  end.

Fixpoint run (s : MemoryManager) (cs : list call) : list reply * MemoryManager :=
  match cs with
  | [] => ([], s)
  | c :: cs' =>
      let '(r, s1) := step s c in
      let '(rs, s2) := run s1 cs' in
      (r :: rs, s2)
  end.

(** The outstanding allocations of a history, read off the calls and
    replies alone: the successful [allocate] calls for whose pointer no
    later [deallocate] has succeeded. *)

Definition frees (q : ptr_t) (e : call * reply) : bool :=
  match e with
  | (Deallocate q', Freed true) => q' =? q
  | _ => false
  end.

Fixpoint outstanding (h : list (call * reply)) : list (ptr_t * Z) :=
  match h with
  | [] => []
  | (Allocate sz _ _ _ _, Pointer q) :: rest =>
      if (q =? 0) || existsb (frees q) rest
      then outstanding rest
      else (q, sz) :: outstanding rest
  | _ :: rest => outstanding rest
  end.

Definition sum_sizes (l : list (ptr_t * Z)) : Z := foldr (fun e acc => e.2 + acc) 0 l.

(** *** The platform heap

    Address ranges are pairs (start, length).  The heap answers either
    with 0 or with a range inside the 32-bit address space that does
    not start at address 0 and overlaps neither a live tracked block nor
    the backing buffer of a pool. *)

Definition disjointb (a b : Z * Z) : bool :=
  (a.1 + a.2 <=? b.1) || (b.1 + b.2 <=? a.1).

Definition extent (b : MemoryBlock) : Z * Z := (ptr b, size b).
Definition region (p : MemoryPool) : Z * Z :=
  (m_memory p, m_blockSize p * m_totalBlocks p).

Definition in_space (a : Z * Z) : bool := (0 <? a.1) && (a.1 + a.2 <=? 2 ^ 32).

Definition heap_answer_ok (s : MemoryManager) (sz : Z) (heap : ptr_t) : bool :=
  (heap =? 0)
  || (in_space (heap, sz)
      && forallb (fun b => disjointb (heap, sz) (extent b)) (m_activeBlocks s)
      && forallb (fun p => disjointb (heap, sz) (region p)) (m_pools s)).

Definition call_ok (s : MemoryManager) (c : call) : bool :=
  match c with
  | Allocate sz _ _ _ heap =>
      (0 <=? sz) && (sz <? 2 ^ 32) && heap_answer_ok s sz heap
  | Deallocate _ => true
  end.

Fixpoint trace_ok (s : MemoryManager) (cs : list call) : bool :=
  match cs with
  | [] => true
  | c :: cs' => call_ok s c && trace_ok (step s c).2 cs'
  end.

(** The four backing buffers handed out during [initialize]: each is 0
    or a range of the requested length, and the ranges do not overlap. *)
Fixpoint all_disjoint (l : list (Z * Z)) : bool :=
  match l with
  | [] => true
  | a :: rest => forallb (disjointb a) rest && all_disjoint rest
  end.

Definition buffer_ok (a : Z * Z) : bool := (a.1 =? 0) || in_space a.

Definition init_ok (mems : ptr_t * ptr_t * ptr_t * ptr_t) : bool :=
  let '(a, b, c, d) := mems in
  let bufs := [(a, 16 * 64); (b, 64 * 32); (c, 256 * 16); (d, 1024 * 8)] in
  forallb buffer_ok bufs && all_disjoint (List.filter (fun r => negb (r.1 =? 0)) bufs).

(** *** Direct use of a pool *)

Definition getPeakAllocated (s : MemoryManager) : Z := m_peakAllocated s.

Definition with_pools (s : MemoryManager) (pools : list MemoryPool) : MemoryManager :=
  mkMM (m_activeBlocks s) (m_totalAllocated s) (m_peakAllocated s)
       (m_allocationCount s) (m_deallocationCount s) pools (m_initialized s).

(** [MemoryManager::allocateFromPool]; [poolIndex] is a [size_t]. *)
Definition allocateFromPool (s : MemoryManager) (poolIndex : Z)
  : ptr_t * MemoryManager :=
  if negb (m_initialized s) || (Z.of_nat (length (m_pools s)) <=? poolIndex)
  then (0, s)
  else match m_pools s !! Z.to_nat poolIndex with
       | Some p =>
           let '(q, p') := pool_allocate p in
           (q, with_pools s (<[Z.to_nat poolIndex := p']> (m_pools s)))
       | None => (0, s)
       end.

(** [MemoryManager::deallocateFromPool]. *)
Definition deallocateFromPool (s : MemoryManager) (q : ptr_t) (poolIndex : Z)
  : bool * MemoryManager :=
  if (q =? 0) || negb (m_initialized s)
     || (Z.of_nat (length (m_pools s)) <=? poolIndex)
  then (false, s)
  else match m_pools s !! Z.to_nat poolIndex with
       | Some p =>
           let '(ok, p') := pool_deallocate p q in
           (ok, with_pools s (<[Z.to_nat poolIndex := p']> (m_pools s)))
       | None => (false, s)
       end.

(** The states a client can bring about: any sequence of [allocate]
    and [deallocate] calls on the initialized manager, the platform
    heap behaving as described above. *)
Definition reachable (s : MemoryManager) : Prop :=
  exists mems cs,
    init_ok mems = true
    /\ trace_ok (initialize empty mems).2 cs = true
    /\ s = (run (initialize empty mems).2 cs).2.

(** The number of blocks of a pool not marked used. *)
Definition unused (used : list bool) : Z :=
  Z.of_nat (length (List.filter negb used)).

End MemMgr.

(** ** The C++ standard library: [std::sort]

    [std::sort] is not part of the repository; it enters as a parameter
    with the contract the C++ standard gives it: for a comparator that
    is a strict weak ordering the result is a rearrangement of the
    input in which no element compares less than an element before it.
    The standard leaves the relative order of equivalent elements
    open, and so does this contract.  What holds for every sort that
    meets the contract holds for the one the firmware is linked with,
    the [std::sort] of libstdc++, which is embedded below and proved
    to meet it. *)

Definition strict_weak_order {A : Type} (cmp : A -> A -> bool) : Prop :=
  (forall a, cmp a a = false)
  /\ (forall a b c, cmp a b = true -> cmp b c = true -> cmp a c = true)
  /\ (forall a b c,
        cmp a b = false -> cmp b a = false ->
        cmp b c = false -> cmp c b = false ->
        cmp a c = false /\ cmp c a = false).

Definition sorted_by {A : Type} (cmp : A -> A -> bool) (l : list A) : Prop :=
  StronglySorted (fun a b => cmp b a = false) l.

Record StdSort : Type := mkStdSort {
  std_sort : forall A : Type, (A -> A -> bool) -> list A -> list A;
  std_sort_perm : forall (A : Type) (cmp : A -> A -> bool) (l : list A),
      std_sort A cmp l ≡ₚ l;
  std_sort_sorted : forall (A : Type) (cmp : A -> A -> bool) (l : list A),
      strict_weak_order cmp -> sorted_by cmp (std_sort A cmp l)
}.

(** Sorting by insertion in front of the equivalent elements: the
    sort that keeps equivalent elements in their order. *)
Fixpoint insert_before {A : Type} (cmp : A -> A -> bool) (x : A) (l : list A) : list A :=
  match l with
  | [] => [x]
  | y :: rest => if cmp y x then y :: insert_before cmp x rest else x :: y :: rest
  end.

Definition sort_keeping_ties {A : Type} (cmp : A -> A -> bool) (l : list A) : list A :=
  foldr (insert_before cmp) [] l.

(** *** The [std::sort] of libstdc++

    The firmware is built with GCC, whose C++ library is libstdc++.
    Its [std::sort] (bits/stl_algo.h and bits/stl_heap.h) is an
    introsort: ranges of more than 16 elements are partitioned around
    the median of three, to a depth of twice the binary logarithm of
    the length and by heap sort beyond it, and one insertion sort over
    the whole range finishes.  The functions below follow that code,
    function by function and under its names, on the range as a list;
    positions are offsets from [first].

    The loops that the library writes without a bound ([while] loops
    that stop at a sentinel) take the length of the range as fuel; a
    comparison with a position outside the range answers [false], so
    that a scan stops at the ends of the range, and the fuel is not
    used up before that. *)

Module Libstdcxx.
Section Sort.
Context {A : Type} (comp : A -> A -> bool).
Local Open Scope nat_scope.

(** The comparison of the elements at two positions. *)
Definition comp_at (arr : list A) (i j : nat) : bool :=
  match arr !! i, arr !! j with
  | Some x, Some y => comp x y
  | _, _ => false
  end.

(** [std::iter_swap]. *)
Definition iter_swap (arr : list A) (i j : nat) : list A :=
  match arr !! i, arr !! j with
  | Some x, Some y => <[j := x]> (<[i := y]> arr)
  | _, _ => arr
  end.

(** The assignment of the element at [src] to position [dst]. *)
Definition move (arr : list A) (dst src : nat) : list A :=
  match arr !! src with
  | Some x => <[dst := x]> arr
  | None => arr
  end.

(** [std::__move_median_to_first]. *)
Definition move_median_to_first (arr : list A) (result a b c : nat) : list A :=
  if comp_at arr a b then
    if comp_at arr b c then iter_swap arr result b
    else if comp_at arr a c then iter_swap arr result c
    else iter_swap arr result a
  else if comp_at arr a c then iter_swap arr result a
  else if comp_at arr b c then iter_swap arr result c
  else iter_swap arr result b.

(** The two inner loops of [std::__unguarded_partition]:
    [while (comp(first, pivot)) ++first] and
    [while (comp(pivot, last)) --last]. *)
Fixpoint scan_up (fuel : nat) (arr : list A) (first pivot : nat) : nat :=
  match fuel with
  | 0 => first
  | S fuel' =>
      if comp_at arr first pivot then scan_up fuel' arr (S first) pivot else first
  end.

Fixpoint scan_down (fuel : nat) (arr : list A) (last pivot : nat) : nat :=
  match fuel with
  | 0 => last
  | S fuel' =>
      if comp_at arr pivot last then scan_down fuel' arr (pred last) pivot else last
  end.

(** [std::__unguarded_partition]: the range afterwards and the cut. *)
Fixpoint unguarded_partition (fuel : nat) (arr : list A) (first last pivot : nat)
  : list A * nat :=
  match fuel with
  | 0 => (arr, first)
  | S fuel' =>
      let first1 := scan_up (length arr) arr first pivot in
      let last1 := scan_down (length arr) arr (pred last) pivot in
      if negb (first1 <? last1) then (arr, first1)
      else unguarded_partition fuel' (iter_swap arr first1 last1) (S first1) last1 pivot
  end.

(** [std::__unguarded_partition_pivot] on the range [l]. *)
Definition unguarded_partition_pivot (l : list A) : list A * nat :=
  let mid := length l / 2 in
  let l1 := move_median_to_first l 0 1 mid (length l - 1) in
  unguarded_partition (length l) l1 1 (length l) 0.

(** [std::__push_heap]; the element of the hole is held in [value]. *)
Fixpoint push_heap (fuel : nat) (arr : list A) (holeIndex topIndex : nat) (value : A)
  : list A :=
  let parent := (holeIndex - 1) / 2 in
  match fuel with
  | 0 => <[holeIndex := value]> arr
  | S fuel' =>
      if (topIndex <? holeIndex)
         && match arr !! parent with Some p => comp p value | None => false end
      then push_heap fuel' (move arr holeIndex parent) parent topIndex value
      else <[holeIndex := value]> arr
  end.

(** The [while] loop of [std::__adjust_heap]: the range, the hole and
    [secondChild] when it is left. *)
Fixpoint sift_down (fuel : nat) (arr : list A) (holeIndex secondChild len : nat)
  : list A * nat * nat :=
  match fuel with
  | 0 => (arr, holeIndex, secondChild)
  | S fuel' =>
      if secondChild <? (len - 1) / 2 then
        let c := 2 * (secondChild + 1) in
        let c' := if comp_at arr c (c - 1) then c - 1 else c in
        sift_down fuel' (move arr holeIndex c') c' c' len
      else (arr, holeIndex, secondChild)
  end.

(** [std::__adjust_heap].  Its test [secondChild == (len - 2) / 2] is
    on signed numbers, the division rounding towards zero. *)
Definition adjust_heap (arr : list A) (holeIndex len : nat) (value : A) : list A :=
  let topIndex := holeIndex in
  let '(arr1, hole1, child1) := sift_down len arr holeIndex holeIndex len in
  let '(arr2, hole2) :=
    if Nat.even len && (Z.of_nat child1 =? Z.quot (Z.of_nat len - 2) 2)%Z
    then let c := 2 * (child1 + 1) in (move arr1 hole1 (c - 1), c - 1)
    else (arr1, hole1) in
  push_heap len arr2 hole2 topIndex value.

(** [std::__pop_heap] of the heap in the first [last] positions, the
    largest element going to [result]. *)
Definition pop_heap (arr : list A) (last result : nat) : list A :=
  match arr !! result with
  | Some value => adjust_heap (move arr result 0) 0 last value
  | None => arr
  end.

(** The loop of [std::__make_heap], from [parent] down to 0. *)
Fixpoint make_heap_from (parent : nat) (arr : list A) (len : nat) : list A :=
  let arr' :=
    match arr !! parent with
    | Some value => adjust_heap arr parent len value
    | None => arr
    end in
  match parent with
  | 0 => arr'
  | S parent' => make_heap_from parent' arr' len
  end.

(** [std::__make_heap]. *)
Definition make_heap (arr : list A) : list A :=
  if length arr <? 2 then arr
  else make_heap_from ((length arr - 2) / 2) arr (length arr).

(** [std::__sort_heap] of the first [last] positions. *)
Fixpoint sort_heap (last : nat) (arr : list A) : list A :=
  match last with
  | 0 => arr
  | S last' => if 1 <? last then sort_heap last' (pop_heap arr last' last') else arr
  end.

(** [std::__partial_sort(first, last, last)], as [__introsort_loop]
    calls it: the loop of [__heap_select] has nothing to go through. *)
Definition partial_sort (l : list A) : list A :=
  sort_heap (length l) (make_heap l).

Definition S_threshold : nat := 16.

(** [std::__introsort_loop] on the range [l]: the recursive call sorts
    the part from the cut on, the loop goes on with the part before
    it. *)
Fixpoint introsort_loop (depth_limit : nat) (l : list A) : list A :=
  if S_threshold <? length l then
    match depth_limit with
    | 0 => partial_sort l
    | S depth_limit' =>
        let '(l1, cut) := unguarded_partition_pivot l in
        let right := introsort_loop depth_limit' (drop cut l1) in
        let left := introsort_loop depth_limit' (take cut l1) in
        left ++ right
    end
  else l.

(** [std::__unguarded_linear_insert] of [val], the element that
    follows [prefix]: it travels from the end of [prefix] towards the
    front as long as it compares below the element before it.
    [linear_insert_rev] reads the prefix from its end. *)
Fixpoint linear_insert_rev (val : A) (rprefix : list A) : list A :=
  match rprefix with
  | [] => [val]
  | x :: rest => if comp val x then x :: linear_insert_rev val rest else val :: x :: rest
  end.

Definition unguarded_linear_insert (prefix : list A) (val : A) : list A :=
  rev (linear_insert_rev val (rev prefix)).

(** One round of the loop of [std::__insertion_sort]. *)
Definition insertion_step (prefix : list A) (val : A) : list A :=
  match prefix with
  | [] => [val]
  | x0 :: _ => if comp val x0 then val :: prefix else unguarded_linear_insert prefix val
  end.

(** [std::__insertion_sort]. *)
Definition insertion_sort (l : list A) : list A :=
  match l with
  | [] => []
  | x :: rest => fold_left insertion_step rest [x]
  end.

(** [std::__unguarded_insertion_sort] of [rest], which follows the
    sorted elements. *)
Definition unguarded_insertion_sort (sorted rest : list A) : list A :=
  fold_left unguarded_linear_insert rest sorted.

(** [std::__final_insertion_sort]. *)
Definition final_insertion_sort (l : list A) : list A :=
  if S_threshold <? length l
  then unguarded_insertion_sort (insertion_sort (take S_threshold l)) (drop S_threshold l)
  else insertion_sort l.

(** [std::__sort], which [std::sort] calls; [std::__lg] is the binary
    logarithm rounded down. *)
Definition sort (l : list A) : list A :=
  match l with
  | [] => []
  | _ => final_insertion_sort (introsort_loop (2 * Nat.log2 (length l)) l)
  end.

End Sort.
End Libstdcxx.

(** ** Event system *)

Module Events.

Definition EventType := Z.
Definition ListenerId := Z.

Record EventData : Set := mkEvent {
  type : EventType;
  data : Z;
  dataSize : Z;
  timestamp : Z;
  senderId : Z
}.

(** A callback is an opaque capability of the subscriber.  What the
    event system observes of one invocation is whether it returns
    ([true]) or raises ([false]); callbacks do not call back into the
    event system. *)
Definition EventCallback := EventData -> bool.

Record EventListener : Type := mkListener {
  id : ListenerId;
  eventType : EventType;
  callback : EventCallback;
  priority : Z;
  oneShot : bool;
  callCount : Z
}.

Record EventSystem : Type := mkES {
  m_listeners : gmap Z (list EventListener);
  m_eventQueue : list EventData;
  m_eventsPublished : Z;
  m_eventsProcessed : Z;
  m_listenersNotified : Z;
  m_nextListenerId : ListenerId;
  m_loggingEnabled : bool;
  m_initialized : bool
}.

(** The default-constructed event system. *)
Definition empty : EventSystem := mkES ∅ [] 0 0 0 0 false false.

(** [EventSystem::initialize]. *)
Definition initialize (s : EventSystem) : os_error_t * EventSystem :=
  if m_initialized s then (OS_OK, s)
  else (OS_OK,
        mkES ∅ [] (m_eventsPublished s) (m_eventsProcessed s)
             (m_listenersNotified s) (m_nextListenerId s)
             (m_loggingEnabled s) true).

(** The comparator of [subscribe]: [a.priority > b.priority]. *)
Definition higher_priority (a b : EventListener) : bool := priority b <? priority a.

Section WithSort.
Variable S : StdSort.

(** [EventSystem::subscribe]; [cb] is [None] for an empty
    [std::function]. *)
Definition subscribe (s : EventSystem) (t : EventType) (cb : option EventCallback)
    (prio : Z) (one : bool) : ListenerId * EventSystem :=
  match cb with
  | None => (0, s)
  | Some f =>
      if negb (m_initialized s) then (0, s)
      else
        let lid := wrap32 (m_nextListenerId s + 1) in
        let listener := mkListener lid t f prio one 0 in
        let pushed := default [] (m_listeners s !! t) ++ [listener] in
        (lid,
         mkES (<[t := std_sort S _ higher_priority pushed]> (m_listeners s))
              (m_eventQueue s) (m_eventsPublished s) (m_eventsProcessed s)
              (m_listenersNotified s) lid (m_loggingEnabled s) (m_initialized s))
  end.

End WithSort.

(** [EventSystem::findListeners]. *)
Definition findListeners (s : EventSystem) (t : EventType) : list EventListener :=
  default [] (m_listeners s !! t).

(** The loop of [publishSync] over the listeners found: the listeners
    after the pass, the number notified and the listeners whose
    callback was invoked, in order of invocation (each as it was when
    its callback was entered). *)
Fixpoint notify (ev : EventData) (ls : list EventListener)
  : list EventListener * Z * list EventListener :=
  match ls with
  | [] => ([], 0, [])
  | l :: rest =>
      let '(rest', n, log) := notify ev rest in
      if callback l ev
      then (mkListener (id l) (eventType l) (callback l) (priority l) (oneShot l)
                       (wrap32 (callCount l + 1)) :: rest',
            1 + n, l :: log)
      else (l :: rest', n, l :: log)
  end.

(** [EventSystem::publishSync]: the number of listeners notified, the
    system afterwards and the listeners invoked, in order. *)
Definition publishSync (s : EventSystem) (ev : EventData)
  : Z * EventSystem * list EventListener :=
  if negb (m_initialized s) then (0, s, [])
  else match m_listeners s !! type ev with
       | None => (0, s, [])
       | Some ls =>
           let '(ls', n, log) := notify ev ls in
           (wrap32 n,
            mkES (<[type ev := ls']> (m_listeners s))
                 (m_eventQueue s) (m_eventsPublished s) (m_eventsProcessed s)
                 (wrap32 (m_listenersNotified s + n)) (m_nextListenerId s)
                 (m_loggingEnabled s) (m_initialized s),
            log)
       end.

(** [EventSystem::publishAsync]. *)
Definition publishAsync (s : EventSystem) (ev : EventData) : bool * EventSystem :=
  if negb (m_initialized s) then (false, s)
  else if OS_EVENT_QUEUE_SIZE <=? Z.of_nat (length (m_eventQueue s)) then (false, s)
  else (true,
        mkES (m_listeners s) (m_eventQueue s ++ [ev])
             (wrap32 (m_eventsPublished s + 1)) (m_eventsProcessed s)
             (m_listenersNotified s) (m_nextListenerId s)
             (m_loggingEnabled s) (m_initialized s)).

(** [EventSystem::publish]; [now] is the reading of [millis()] that
    stamps the event. *)
Definition publish (s : EventSystem) (t : EventType) (d : Z) (sz : Z)
    (sender : Z) (async : bool) (now : Z) : Z * EventSystem * list EventListener :=
  let ev := mkEvent t d sz now sender in
  if async
  then let '(ok, s') := publishAsync s ev in ((if ok then 1 else 0), s', [])
  else publishSync s ev.

(** [EventSystem::cleanupListeners]. *)
Definition retired (l : EventListener) : bool := oneShot l && (0 <? callCount l).

Definition cleanupListeners (s : EventSystem) : EventSystem :=
  mkES ((fun ls => List.filter (fun l => negb (retired l)) ls) <$> m_listeners s)
       (m_eventQueue s) (m_eventsPublished s) (m_eventsProcessed s)
       (m_listenersNotified s) (m_nextListenerId s)
       (m_loggingEnabled s) (m_initialized s).

(** The [while] loop of [processEvents]; [budget] is what is left of
    [maxEventsPerFrame]. *)
Fixpoint drain (budget : nat) (s : EventSystem) : Z * EventSystem * list EventListener :=
  match budget, m_eventQueue s with
  | Datatypes.S budget', ev :: rest =>
      let popped :=
        mkES (m_listeners s) rest (m_eventsPublished s) (m_eventsProcessed s)
             (m_listenersNotified s) (m_nextListenerId s)
             (m_loggingEnabled s) (m_initialized s) in
      let '(_, s1, log1) := publishSync popped ev in
      let s2 :=
        mkES (m_listeners s1) (m_eventQueue s1) (m_eventsPublished s1)
             (wrap32 (m_eventsProcessed s1 + 1))
             (m_listenersNotified s1) (m_nextListenerId s1)
             (m_loggingEnabled s1) (m_initialized s1) in
      let '(n, s3, log3) := drain budget' s2 in
      (1 + n, s3, log1 ++ log3)
  | _, _ => (0, s, [])
  end.

(** [EventSystem::processEvents]. *)
Definition processEvents (s : EventSystem) : Z * EventSystem * list EventListener :=
  if negb (m_initialized s) then (0, s, [])
  else
    let '(n, s1, log) := drain 10 s in
    (n, (if 0 <? n then cleanupListeners s1 else s1), log).

Definition getQueuedEventCount (s : EventSystem) : Z := Z.of_nat (length (m_eventQueue s)).

(** [EventSystem::clearQueue]. *)
Definition clearQueue (s : EventSystem) : EventSystem :=
  mkES (m_listeners s) [] (m_eventsPublished s) (m_eventsProcessed s)
       (m_listenersNotified s) (m_nextListenerId s)
       (m_loggingEnabled s) (m_initialized s).

(** Calls a client can make, and what each one yields: the system
    afterwards and the listeners invoked. *)
Inductive call : Type :=
| Subscribe (t : EventType) (cb : option EventCallback) (prio : Z) (one : bool)
| PublishSync (ev : EventData)
| PublishAsync (ev : EventData)
| Publish (t : EventType) (d sz sender : Z) (async : bool) (now : Z)
| ProcessEvents
| ClearQueue.

Definition step (S : StdSort) (s : EventSystem) (c : call)
  : EventSystem * list EventListener :=
  match c with
  | Subscribe t cb prio one => ((subscribe S s t cb prio one).2, [])
  | PublishSync ev => let '(_, s', log) := publishSync s ev in (s', log)
  | PublishAsync ev => ((publishAsync s ev).2, [])
  | Publish t d sz sender async now =>
      let '(_, s', log) := publish s t d sz sender async now in (s', log)
  | ProcessEvents => let '(_, s', log) := processEvents s in (s', log)
  | ClearQueue => (clearQueue s, [])
  end.

Fixpoint run (S : StdSort) (s : EventSystem) (cs : list call)
  : EventSystem * list EventListener :=
  match cs with
  | [] => (s, [])
  | c :: cs' =>
      let '(s1, log1) := step S s c in
      let '(s2, log2) := run S s1 cs' in
      (s2, log1 ++ log2)
  end.

(** *** Removing listeners, queries and shutdown *)

(** [EventSystem::unsubscribeAll]. *)
Definition unsubscribeAll (s : EventSystem) (t : EventType) : Z * EventSystem :=
  if negb (m_initialized s) then (0, s)
  else match m_listeners s !! t with
       | Some ls =>
           (Z.of_nat (length ls),
            mkES (delete t (m_listeners s)) (m_eventQueue s) (m_eventsPublished s)
                 (m_eventsProcessed s) (m_listenersNotified s) (m_nextListenerId s)
                 (m_loggingEnabled s) (m_initialized s))
       | None => (0, s)
       end.

(** [EventSystem::hasListeners] and [EventSystem::getListenerCount]. *)
Definition hasListeners (s : EventSystem) (t : EventType) : bool :=
  match m_listeners s !! t with
  | Some (_ :: _) => true
  | _ => false
  end.

Definition getListenerCount (s : EventSystem) (t : EventType) : Z :=
  match m_listeners s !! t with
  | Some ls => Z.of_nat (length ls)
  | None => 0
  end.

(** The event types of the map in the order of iteration of
    [std::map]: ascending. *)
Definition types_in_order (m : gmap Z (list EventListener)) : list EventType :=
  merge_sort Z.le (fst <$> map_to_list m).

(** The loop of [unsubscribe] over the entries of the map: the first
    entry that holds a listener of the given id loses the first such
    listener. *)
Fixpoint unsubscribe_from (lid : ListenerId) (types : list EventType)
    (m : gmap Z (list EventListener)) : option (gmap Z (list EventListener)) :=
  match types with
  | [] => None
  | t :: rest =>
      let ls := default [] (m !! t) in
      match list_find (fun l => id l = lid) ls with
      | Some (k, _) => Some (<[t := delete k ls]> m)
      | None => unsubscribe_from lid rest m
      end
  end.

(** [EventSystem::unsubscribe]. *)
Definition unsubscribe (s : EventSystem) (lid : ListenerId) : bool * EventSystem :=
  if negb (m_initialized s) then (false, s)
  else match unsubscribe_from lid (types_in_order (m_listeners s)) (m_listeners s) with
       | Some m' =>
           (true,
            mkES m' (m_eventQueue s) (m_eventsPublished s) (m_eventsProcessed s)
                 (m_listenersNotified s) (m_nextListenerId s)
                 (m_loggingEnabled s) (m_initialized s))
       | None => (false, s)
       end.

(** [EventSystem::shutdown]. *)
Definition shutdown (s : EventSystem) : os_error_t * EventSystem :=
  if negb (m_initialized s) then (OS_OK, s)
  else (OS_OK,
        mkES ∅ [] (m_eventsPublished s) (m_eventsProcessed s)
             (m_listenersNotified s) (m_nextListenerId s)
             (m_loggingEnabled s) false).

End Events.

(** ** Task scheduler *)

Module Sched.

Inductive TaskState : Set := READY | RUNNING | WAITING | SUSPENDED | COMPLETED.

(** A task function is an opaque capability of whoever scheduled the
    task.  What the scheduler observes of one invocation is whether it
    returns ([true]) or raises ([false]), and how the clock has moved;
    task functions do not call back into the scheduler. *)
Definition TaskFunction := unit -> bool.

Record Task : Type := mkTask {
  id : Z;
  function : TaskFunction;
  priority : Z;
  state : TaskState;
  nextExecution : Z;
  period : Z;
  maxRunTime : Z;
  actualRunTime : Z;
  executionCount : Z;
  name : Z;
  autoDelete : bool
}.

Record TaskScheduler : Type := mkTS {
  m_tasks : list Task;
  m_nextTaskId : Z;
  m_defaultMaxRunTime : Z;
  m_totalExecutionTime : Z;
  m_lastUpdateTime : Z;
  m_cpuLoad : Z;
  m_tasksExecuted : Z;
  m_tasksOverrun : Z;
  m_initialized : bool
}.

(** The platform clock: [clock k] is the [k]-th reading of [millis()],
    a [uint32_t].  Every operation takes the number of readings made so
    far and returns the number made when it is done. *)
Definition Clock := nat -> Z.

(** The default-constructed scheduler. *)
Definition empty : TaskScheduler := mkTS [] 0 50 0 0 0 0 0 false.

Definition with_tasks (s : TaskScheduler) (ts : list Task) : TaskScheduler :=
  mkTS ts (m_nextTaskId s) (m_defaultMaxRunTime s) (m_totalExecutionTime s)
       (m_lastUpdateTime s) (m_cpuLoad s) (m_tasksExecuted s) (m_tasksOverrun s)
       (m_initialized s).

(** [TaskScheduler::initialize]. *)
Definition initialize (clock : Clock) (s : TaskScheduler) (k : nat)
  : os_error_t * TaskScheduler * nat :=
  if m_initialized s then (OS_OK, s, k)
  else (OS_OK,
        mkTS (m_tasks s) (m_nextTaskId s) (m_defaultMaxRunTime s)
             (m_totalExecutionTime s) (clock k) (m_cpuLoad s)
             (m_tasksExecuted s) (m_tasksOverrun s) true,
        Datatypes.S k).

(** [TaskScheduler::scheduleOnce]; [fn] is [None] for an empty
    [std::function]. *)
Definition scheduleOnce (clock : Clock) (s : TaskScheduler) (k : nat)
    (fn : option TaskFunction) (prio : Z) (delay : Z) (nm : Z)
  : Z * TaskScheduler * nat :=
  match fn with
  | None => (0, s, k)
  | Some f =>
      if negb (m_initialized s) || (OS_MAX_TASKS <=? Z.of_nat (length (m_tasks s)))
      then (0, s, k)
      else
        let tid := wrap32 (m_nextTaskId s + 1) in
        let task := mkTask tid f prio READY (wrap32 (clock k + delay)) 0
                           (m_defaultMaxRunTime s) 0 0 nm true in
        (tid,
         mkTS (m_tasks s ++ [task]) tid (m_defaultMaxRunTime s)
              (m_totalExecutionTime s) (m_lastUpdateTime s) (m_cpuLoad s)
              (m_tasksExecuted s) (m_tasksOverrun s) (m_initialized s),
         Datatypes.S k)
  end.

(** [TaskScheduler::schedulePeriodic]. *)
Definition schedulePeriodic (clock : Clock) (s : TaskScheduler) (k : nat)
    (fn : option TaskFunction) (per : Z) (prio : Z) (delay : Z) (nm : Z)
  : Z * TaskScheduler * nat :=
  match fn with
  | None => (0, s, k)
  | Some f =>
      if negb (m_initialized s) || (per =? 0)
         || (OS_MAX_TASKS <=? Z.of_nat (length (m_tasks s)))
      then (0, s, k)
      else
        let tid := wrap32 (m_nextTaskId s + 1) in
        let task := mkTask tid f prio READY (wrap32 (clock k + delay)) per
                           (m_defaultMaxRunTime s) 0 0 nm false in
        (tid,
         mkTS (m_tasks s ++ [task]) tid (m_defaultMaxRunTime s)
              (m_totalExecutionTime s) (m_lastUpdateTime s) (m_cpuLoad s)
              (m_tasksExecuted s) (m_tasksOverrun s) (m_initialized s),
         Datatypes.S k)
  end.

Definition is_ready (t : Task) : bool :=
  match state t with READY => true | _ => false end.

(** [TaskScheduler::executeTask]: the task and the statistics
    afterwards, the clock readings made, and the task whose function
    was invoked (as it was when picked). *)
Definition executeTask (clock : Clock) (s : TaskScheduler) (k : nat) (t : Task)
  : Task * TaskScheduler * nat * list Task :=
  if negb (is_ready t) then (t, s, k, [])
  else
    let startTime := clock k in
    let returned := function t tt in
    let endTime := clock (Datatypes.S k) in
    let executionTime := wrap32 (endTime - startTime) in
    let t' :=
      mkTask (id t) (function t) (priority t)
             (if 0 <? period t then READY else COMPLETED)
             (if 0 <? period t then wrap32 (endTime + period t) else nextExecution t)
             (period t) (maxRunTime t)
             (wrap32 (actualRunTime t + executionTime))
             (wrap32 (executionCount t + 1))
             (name t) (autoDelete t) in
    let s' :=
      mkTS (m_tasks s) (m_nextTaskId s) (m_defaultMaxRunTime s)
           (wrap32 (m_totalExecutionTime s + executionTime))
           (m_lastUpdateTime s) (m_cpuLoad s)
           (if returned then wrap32 (m_tasksExecuted s + 1) else m_tasksExecuted s)
           (if maxRunTime t <? executionTime
            then wrap32 (m_tasksOverrun s + 1) else m_tasksOverrun s)
           (m_initialized s) in
    (t', s', Datatypes.S (Datatypes.S k), [t]).

(** The condition of the loop of [update] on one task. *)
Definition due (currentTime : Z) (t : Task) : bool :=
  is_ready t && (nextExecution t <=? currentTime).

(** The loop of [update] over the sorted tasks.  The last component
    tells whether the loop was left through [break], the frame budget
    of 16 ms being exceeded. *)
Fixpoint run_due (clock : Clock) (currentTime frameStartTime : Z)
    (s : TaskScheduler) (k : nat) (tasks : list Task)
  : list Task * TaskScheduler * nat * list Task * bool :=
  match tasks with
  | [] => ([], s, k, [], false)
  | t :: rest =>
      if due currentTime t then
        let '(t1, s1, k1, log1) := executeTask clock s k t in
        let frameTime := wrap32 (clock k1 - frameStartTime) in
        if 16 <? frameTime
        then (t1 :: rest, s1, Datatypes.S k1, log1, true)
        else
          let '(rest', s2, k2, log2, cut) :=
            run_due clock currentTime frameStartTime s1 (Datatypes.S k1) rest in
          (t1 :: rest', s2, k2, log1 ++ log2, cut)
      else
        let '(rest', s2, k2, log2, cut) :=
          run_due clock currentTime frameStartTime s k rest in
        (t :: rest', s2, k2, log2, cut)
  end.

(** The comparator of [update]: priority first, then the earlier
    deadline. *)
Definition task_before (a b : Task) : bool :=
  if negb (priority a =? priority b)
  then priority b <? priority a
  else nextExecution a <? nextExecution b.

(** [TaskScheduler::cleanupTasks]. *)
Definition finished (t : Task) : bool :=
  match state t with COMPLETED => autoDelete t | _ => false end.

Definition cleanupTasks (ts : list Task) : list Task :=
  List.filter (fun t => negb (finished t)) ts.

(** [TaskScheduler::updateCPULoad]; [m_cpuLoad] is a [uint8_t]. *)
Definition updateCPULoad (clock : Clock) (s : TaskScheduler) (k : nat)
  : TaskScheduler * nat :=
  let currentTime := clock k in
  let elapsed := wrap32 (currentTime - m_lastUpdateTime s) in
  if 1000 <=? elapsed then
    let load := wrap8 (wrap32 (m_totalExecutionTime s * 100) / elapsed) in
    (mkTS (m_tasks s) (m_nextTaskId s) (m_defaultMaxRunTime s) 0 currentTime
          (if 100 <? load then 100 else load)
          (m_tasksExecuted s) (m_tasksOverrun s) (m_initialized s),
     Datatypes.S k)
  else (s, Datatypes.S k).

Section WithSort.
Variable S : StdSort.

(** The sorting and the loop of [update]. *)
Definition pass (clock : Clock) (s : TaskScheduler) (k : nat)
  : list Task * TaskScheduler * nat * list Task * bool :=
  let currentTime := clock k in
  run_due clock currentTime currentTime s (Datatypes.S k)
          (std_sort S _ task_before (m_tasks s)).

(** [TaskScheduler::update]: the result, the scheduler afterwards, the
    clock readings made and the tasks whose function was invoked, in
    order. *)
Definition update (clock : Clock) (s : TaskScheduler) (k : nat) (deltaTime : Z)
  : os_error_t * TaskScheduler * nat * list Task :=
  if negb (m_initialized s) then (OS_ERROR_GENERIC, s, k, [])
  else
    let '(tasks1, s1, k1, log, _) := pass clock s k in
    let '(s2, k2) := updateCPULoad clock (with_tasks s1 (cleanupTasks tasks1)) k1 in
    (OS_OK, s2, k2, log).

End WithSort.

(** *** Looking up, cancelling, suspending and resuming tasks *)

(** [TaskScheduler::findTask]: the position of the first task with the
    identifier, [None] for [m_tasks.end()]. *)
Definition findTask (s : TaskScheduler) (taskId : Z) : option (nat * Task) :=
  list_find (fun t => id t = taskId) (m_tasks s).

(** [TaskScheduler::getTaskInfo]; [None] is the null pointer. *)
Definition getTaskInfo (s : TaskScheduler) (taskId : Z) : option Task :=
  snd <$> findTask s taskId.

Definition with_state (t : Task) (st : TaskState) : Task :=
  mkTask (id t) (function t) (priority t) st (nextExecution t) (period t)
         (maxRunTime t) (actualRunTime t) (executionCount t) (name t) (autoDelete t).

Definition is_suspended (t : Task) : bool :=
  match state t with SUSPENDED => true | _ => false end.

(** [TaskScheduler::cancelTask]. *)
Definition cancelTask (s : TaskScheduler) (taskId : Z) : bool * TaskScheduler :=
  match findTask s taskId with
  | Some (k, _) => (true, with_tasks s (delete k (m_tasks s)))
  | None => (false, s)
  end.

(** [TaskScheduler::suspendTask]. *)
Definition suspendTask (s : TaskScheduler) (taskId : Z) : bool * TaskScheduler :=
  match findTask s taskId with
  | Some (k, t) =>
      if negb (is_suspended t)
      then (true, with_tasks s (<[k := with_state t SUSPENDED]> (m_tasks s)))
      else (false, s)
  | None => (false, s)
  end.

(** [TaskScheduler::resumeTask]. *)
Definition resumeTask (s : TaskScheduler) (taskId : Z) : bool * TaskScheduler :=
  match findTask s taskId with
  | Some (k, t) =>
      if is_suspended t
      then (true, with_tasks s (<[k := with_state t READY]> (m_tasks s)))
      else (false, s)
  | None => (false, s)
  end.

(** [TaskScheduler::shutdown]. *)
Definition shutdown (s : TaskScheduler) : os_error_t * TaskScheduler :=
  if negb (m_initialized s) then (OS_OK, s)
  else (OS_OK,
        mkTS [] (m_nextTaskId s) (m_defaultMaxRunTime s) (m_totalExecutionTime s)
             (m_lastUpdateTime s) (m_cpuLoad s) (m_tasksExecuted s) (m_tasksOverrun s)
             false).

(** Calls a client can make; a run of calls threads the scheduler and
    the number of clock readings through them. *)
Inductive call : Type :=
| Initialize
| Shutdown
| ScheduleOnce (fn : option TaskFunction) (prio delay nm : Z)
| SchedulePeriodic (fn : option TaskFunction) (per prio delay nm : Z)
| Update (deltaTime : Z)
| CancelTask (taskId : Z)
| SuspendTask (taskId : Z)
| ResumeTask (taskId : Z).

Definition step (S : StdSort) (clock : Clock) (s : TaskScheduler) (k : nat) (c : call)
  : TaskScheduler * nat :=
  match c with
  | Initialize => let '(_, s', k') := initialize clock s k in (s', k')
  | Shutdown => ((shutdown s).2, k)
  | ScheduleOnce fn prio delay nm =>
      let '(_, s', k') := scheduleOnce clock s k fn prio delay nm in (s', k')
  | SchedulePeriodic fn per prio delay nm =>
      let '(_, s', k') := schedulePeriodic clock s k fn per prio delay nm in (s', k')
  | Update dt => let '(_, s', k', _) := update S clock s k dt in (s', k')
  | CancelTask taskId => ((cancelTask s taskId).2, k)
  | SuspendTask taskId => ((suspendTask s taskId).2, k)
  | ResumeTask taskId => ((resumeTask s taskId).2, k)
  end.

Fixpoint run (S : StdSort) (clock : Clock) (s : TaskScheduler) (k : nat)
    (cs : list call) : TaskScheduler * nat :=
  match cs with
  | [] => (s, k)
  | c :: cs' => let '(s1, k1) := step S clock s k c in run S clock s1 k1 cs'
  end.

End Sched.

(** ** [std::map] with [std::string] keys

    The entries in the order of iteration, which is the order of the
    keys: byte-wise lexicographic. *)

Module StrMap.

Definition t (A : Type) : Type := list (string * A).

Fixpoint find {A : Type} (k : string) (m : t A) : option A :=
  match m with
  | [] => None
  | (k', v) :: rest => if String.eqb k k' then Some v else find k rest
  end.

(** [m[k] = v]. *)
Fixpoint insert {A : Type} (k : string) (v : A) (m : t A) : t A :=
  match m with
  | [] => [(k, v)]
  | (k', v') :: rest =>
      match String.compare k k' with
      | Eq => (k, v) :: rest
      | Lt => (k, v) :: (k', v') :: rest
      | Gt => (k', v') :: insert k v rest
      end
  end.

Fixpoint erase {A : Type} (k : string) (m : t A) : t A :=
  match m with
  | [] => []
  | (k', v) :: rest => if String.eqb k k' then rest else (k', v) :: erase k rest
  end.

Definition size {A : Type} (m : t A) : Z := Z.of_nat (length m).

(** The key of [m.begin()]. *)
Definition first_key {A : Type} (m : t A) : option string :=
  match m with
  | [] => None
  | (k, _) :: _ => Some k
  end.

End StrMap.

(** ** Applications *)

Definition EVENT_APP_LAUNCH : Z := 3000.
Definition EVENT_APP_EXIT : Z := 3001.
Definition EVENT_APP_SUSPEND : Z := 3002.
Definition EVENT_APP_RESUME : Z := 3003.
Definition EVENT_APP_ERROR : Z := 3004.

(** What [PUBLISH_EVENT(type, id.c_str(), id.length())] hands to the
    event system: the type and the bytes of the payload.  Every
    operation below returns the events it published, in order. *)
Definition published : Type := Z * string.

Module BaseApp.

Inductive AppState : Set := STOPPED | STARTING | RUNNING | PAUSED | STOPPING | ERROR.

Inductive AppPriority : Set := APP_LOW | APP_NORMAL | APP_HIGH | APP_SYSTEM.

(** The data members of [BaseApp]. *)
Record Fields : Set := mkFields {
  m_id : string;
  m_name : string;
  m_version : string;
  m_description : string;
  m_author : string;
  m_state : AppState;
  m_priority : AppPriority;
  m_startTime : Z;
  m_memoryUsage : Z;
  m_exitRequested : bool;
  m_initialized : bool;
  m_uiContainer : Z
}.

(** The pure virtual members a concrete application supplies; each may
    change the data members of the base.  [update] yields [None] when
    it raises. *)
Record Impl : Type := mkImpl {
  v_initialize : Fields -> os_error_t * Fields;
  v_update : Z -> Fields -> option os_error_t * Fields;
  v_shutdown : Fields -> os_error_t * Fields;
  v_destroyUI : Fields -> os_error_t * Fields
}.

Record t : Type := mkApp {
  fields : Fields;
  impl : Impl
}.

(** [BaseApp::BaseApp]. *)
Definition new (id name version : string) (i : Impl) : t :=
  mkApp (mkFields id name version "Application for M5Stack Tab5" "Unknown"
                  STOPPED APP_NORMAL 0 0 false false 0) i.

Definition getState (a : t) : AppState := m_state (fields a).

Definition isRunning (a : t) : bool :=
  match getState a with RUNNING => true | _ => false end.

Definition isPaused (a : t) : bool :=
  match getState a with PAUSED => true | _ => false end.

Definition getId (a : t) : string := m_id (fields a).

(** [BaseApp::setState]. *)
Definition setState (a : t) (st : AppState) : t :=
  let f := fields a in
  mkApp (mkFields (m_id f) (m_name f) (m_version f) (m_description f) (m_author f)
                  st (m_priority f) (m_startTime f) (m_memoryUsage f)
                  (m_exitRequested f) (m_initialized f) (m_uiContainer f))
        (impl a).

(** [BaseApp::resume]. *)
Definition resume (a : t) : os_error_t * t * list published :=
  match getState a with
  | PAUSED => (OS_OK, setState a RUNNING, [(EVENT_APP_RESUME, getId a)])
  | _ => (OS_ERROR_GENERIC, a, [])
  end.

(** [BaseApp::pause]. *)
Definition pause (a : t) : os_error_t * t * list published :=
  match getState a with
  | RUNNING => (OS_OK, setState a PAUSED, [(EVENT_APP_SUSPEND, getId a)])
  | _ => (OS_ERROR_GENERIC, a, [])
  end.

(** [BaseApp::start]; [now] is the reading of [millis()]. *)
Definition start (a : t) (now : Z) : os_error_t * t * list published :=
  match getState a with
  | RUNNING => (OS_OK, a, [])
  | PAUSED => resume a
  | _ =>
      let a1 := setState a STARTING in
      let f := fields a1 in
      let a2 :=
        mkApp (mkFields (m_id f) (m_name f) (m_version f) (m_description f)
                        (m_author f) (m_state f) (m_priority f) now
                        (m_memoryUsage f) false (m_initialized f) (m_uiContainer f))
              (impl a1) in
      (OS_OK, setState a2 RUNNING, [(EVENT_APP_LAUNCH, getId a)])
  end.

(** [BaseApp::stop]. *)
Definition stop (a : t) : os_error_t * t * list published :=
  match getState a with
  | STOPPED => (OS_OK, a, [])
  | _ =>
      let a1 := setState a STOPPING in
      let a2 :=
        if m_uiContainer (fields a1) =? 0 then a1
        else mkApp (v_destroyUI (impl a1) (fields a1)).2 (impl a1) in
      (OS_OK, setState a2 STOPPED, [(EVENT_APP_EXIT, getId a2)])
  end.

(** The virtual calls made by the application manager. *)
Definition initialize (a : t) : os_error_t * t :=
  let '(r, f) := v_initialize (impl a) (fields a) in (r, mkApp f (impl a)).

Definition shutdown (a : t) : os_error_t * t :=
  let '(r, f) := v_shutdown (impl a) (fields a) in (r, mkApp f (impl a)).

Definition getPriority (a : t) : AppPriority := m_priority (fields a).

Definition getMemoryUsage (a : t) : Z := m_memoryUsage (fields a).

(** The life-cycle calls of [BaseApp], and a run of them. *)
Inductive call : Type :=
| Start (now : Z)
| Pause
| Resume
| Stop.

Definition step (a : t) (c : call) : os_error_t * t * list published :=
  match c with
  | Start now => start a now
  | Pause => pause a
  | Resume => resume a
  | Stop => stop a
  end.

Fixpoint run (a : t) (cs : list call) : t * list published :=
  match cs with
  | [] => (a, [])
  | c :: cs' =>
      let '(_, a1, evs1) := step a c in
      let '(a2, evs2) := run a1 cs' in
      (a2, evs1 ++ evs2)
  end.

End BaseApp.

Module AppManager.

(** A factory yields an application, or [None] when it raises or
    returns a null pointer. *)
Definition AppFactory := unit -> option BaseApp.t.

Record t : Type := mkAM {
  m_appFactories : StrMap.t AppFactory;
  m_runningApps : StrMap.t BaseApp.t;
  m_currentAppId : string;
  m_maxConcurrentApps : Z;
  m_totalLaunches : Z;
  m_totalKills : Z;
  m_lastCleanup : Z;
  m_initialized : bool
}.

(** The default-constructed manager. *)
Definition empty : t := mkAM [] [] "" OS_MAX_APPS 0 0 0 false.

Definition with_apps (s : t) (apps : StrMap.t BaseApp.t) (cur : string) : t :=
  mkAM (m_appFactories s) apps cur (m_maxConcurrentApps s)
       (m_totalLaunches s) (m_totalKills s) (m_lastCleanup s) (m_initialized s).

(** [AppManager::initialize]; the three subscriptions it makes live in
    the event system and leave the manager as it is. *)
Definition initialize (s : t) (now : Z) : os_error_t * t :=
  if m_initialized s then (OS_OK, s)
  else (OS_OK,
        mkAM (m_appFactories s) (m_runningApps s) (m_currentAppId s)
             (m_maxConcurrentApps s) (m_totalLaunches s) (m_totalKills s)
             now true).

Definition setMaxConcurrentApps (s : t) (maxApps : Z) : t :=
  mkAM (m_appFactories s) (m_runningApps s) (m_currentAppId s) maxApps
       (m_totalLaunches s) (m_totalKills s) (m_lastCleanup s) (m_initialized s).

(** [AppManager::registerApp]; [factory] is [None] for an empty
    [std::function]. *)
Definition registerApp (s : t) (appId : string) (factory : option AppFactory)
  : os_error_t * t :=
  match factory with
  | None => (OS_ERROR_INVALID_PARAM, s)
  | Some f =>
      if negb (m_initialized s) || String.eqb appId "" then (OS_ERROR_INVALID_PARAM, s)
      else match StrMap.find appId (m_appFactories s) with
           | Some _ => (OS_ERROR_GENERIC, s)
           | None =>
               (OS_OK,
                mkAM (StrMap.insert appId f (m_appFactories s)) (m_runningApps s)
                     (m_currentAppId s) (m_maxConcurrentApps s)
                     (m_totalLaunches s) (m_totalKills s) (m_lastCleanup s)
                     (m_initialized s))
           end
  end.

(** [AppManager::getApp]. *)
Definition getApp (s : t) (appId : string) : option BaseApp.t :=
  StrMap.find appId (m_runningApps s).

(** [AppManager::isAppRunning]. *)
Definition isAppRunning (s : t) (appId : string) : bool :=
  match getApp s appId with
  | Some app => BaseApp.isRunning app
  | None => false
  end.

(** [AppManager::createApp]. *)
Definition createApp (s : t) (appId : string) : option BaseApp.t :=
  match StrMap.find appId (m_appFactories s) with
  | None => None
  | Some factory => factory tt
  end.

(** [AppManager::switchToApp]. *)
Definition switchToApp (s : t) (appId : string) : os_error_t * t * list published :=
  if negb (m_initialized s) || String.eqb appId "" then (OS_ERROR_INVALID_PARAM, s, [])
  else match getApp s appId with
       | None => (OS_ERROR_NOT_FOUND, s, [])
       | Some app =>
           if negb (BaseApp.isRunning app) then (OS_ERROR_NOT_FOUND, s, [])
           else if String.eqb (m_currentAppId s) appId then (OS_OK, s, [])
           else
             (* pause the current application, if any *)
             let '(apps1, evs1) :=
               if String.eqb (m_currentAppId s) "" then (m_runningApps s, [])
               else match getApp s (m_currentAppId s) with
                    | Some currentApp =>
                        if BaseApp.isRunning currentApp
                        then let '(_, paused, evs) := BaseApp.pause currentApp in
                             (StrMap.insert (m_currentAppId s) paused (m_runningApps s), evs)
                        else (m_runningApps s, [])
                    | None => (m_runningApps s, [])
                    end in
             (* resume the application if it was paused *)
             let '(apps2, evs2) :=
               match StrMap.find appId apps1 with
               | Some app' =>
                   if BaseApp.isPaused app'
                   then let '(_, resumed, evs) := BaseApp.resume app' in
                        (StrMap.insert appId resumed apps1, evs)
                   else (apps1, [])
               | None => (apps1, [])
               end in
             (OS_OK, with_apps s apps2 appId, evs1 ++ evs2)
       end.

(** [AppManager::launchApp]; [now] is the reading of [millis()] that
    [BaseApp::start] makes. *)
Definition launchApp (s : t) (appId : string) (now : Z)
  : os_error_t * t * list published :=
  if negb (m_initialized s) || String.eqb appId "" then (OS_ERROR_INVALID_PARAM, s, [])
  else if isAppRunning s appId then switchToApp s appId
  else if m_maxConcurrentApps s <=? StrMap.size (m_runningApps s)
       then (OS_ERROR_BUSY, s, [])
  else match createApp s appId with
       | None => (OS_ERROR_GENERIC, s, [])
       | Some app =>
           let '(r1, app1) := BaseApp.initialize app in
           match r1 with
           | OS_OK =>
               let '(r2, app2, evs2) := BaseApp.start app1 now in
               match r2 with
               | OS_OK =>
                   let s1 :=
                     mkAM (m_appFactories s)
                          (StrMap.insert appId app2 (m_runningApps s))
                          (m_currentAppId s) (m_maxConcurrentApps s)
                          (wrap32 (m_totalLaunches s + 1)) (m_totalKills s)
                          (m_lastCleanup s) (m_initialized s) in
                   let '(r3, s2, evs3) := switchToApp s1 appId in
                   (r3, s2, evs2 ++ evs3)
               | _ => (r2, s, evs2)
               end
           | _ => (r1, s, [])
           end
       end.

(** [AppManager::killApp]. *)
Definition killApp (s : t) (appId : string) : os_error_t * t * list published :=
  if negb (m_initialized s) || String.eqb appId "" then (OS_ERROR_INVALID_PARAM, s, [])
  else match StrMap.find appId (m_runningApps s) with
       | None => (OS_ERROR_NOT_FOUND, s, [])
       | Some app =>
           let '(_, stopped, evs1) := BaseApp.stop app in
           let _ := BaseApp.shutdown stopped in
           let s1 :=
             mkAM (m_appFactories s) (StrMap.erase appId (m_runningApps s))
                  (m_currentAppId s) (m_maxConcurrentApps s)
                  (m_totalLaunches s) (wrap32 (m_totalKills s + 1))
                  (m_lastCleanup s) (m_initialized s) in
           if String.eqb (m_currentAppId s1) appId then
             let s2 := with_apps s1 (m_runningApps s1) "" in
             match StrMap.first_key (m_runningApps s2) with
             | Some k => let '(_, s3, evs3) := switchToApp s2 k in (OS_OK, s3, evs1 ++ evs3)
             | None => (OS_OK, s2, evs1)
             end
           else (OS_OK, s1, evs1)
       end.

(** [AppManager::pauseApp] and [AppManager::resumeApp]. *)
Definition pauseApp (s : t) (appId : string) : os_error_t * t * list published :=
  if negb (m_initialized s) then (OS_ERROR_GENERIC, s, [])
  else match getApp s appId with
       | None => (OS_ERROR_NOT_FOUND, s, [])
       | Some app =>
           let '(r, app', evs) := BaseApp.pause app in
           (r, with_apps s (StrMap.insert appId app' (m_runningApps s)) (m_currentAppId s), evs)
       end.

Definition resumeApp (s : t) (appId : string) : os_error_t * t * list published :=
  if negb (m_initialized s) then (OS_ERROR_GENERIC, s, [])
  else match getApp s appId with
       | None => (OS_ERROR_NOT_FOUND, s, [])
       | Some app =>
           let '(r, app', evs) := BaseApp.resume app in
           (r, with_apps s (StrMap.insert appId app' (m_runningApps s)) (m_currentAppId s), evs)
       end.

(** [AppManager::unregisterApp]. *)
Definition unregisterApp (s : t) (appId : string) : os_error_t * t * list published :=
  if negb (m_initialized s) || String.eqb appId "" then (OS_ERROR_INVALID_PARAM, s, [])
  else
    let '(_, s1, evs) := killApp s appId in
    match StrMap.find appId (m_appFactories s1) with
    | Some _ =>
        (OS_OK,
         mkAM (StrMap.erase appId (m_appFactories s1)) (m_runningApps s1)
              (m_currentAppId s1) (m_maxConcurrentApps s1)
              (m_totalLaunches s1) (m_totalKills s1) (m_lastCleanup s1)
              (m_initialized s1),
         evs)
    | None => (OS_ERROR_NOT_FOUND, s1, evs)
    end.

(** [AppManager::getRunningApps]. *)
Definition getRunningApps (s : t) : list string :=
  fst <$> List.filter (fun kv => BaseApp.isRunning kv.2) (m_runningApps s).

(** The second loop of [killAllApps]. *)
Fixpoint kill_each (s : t) (appIds : list string) : t * list published :=
  match appIds with
  | [] => (s, [])
  | appId :: rest =>
      let '(_, s1, evs1) := killApp s appId in
      let '(s2, evs2) := kill_each s1 rest in
      (s2, evs1 ++ evs2)
  end.

(** [AppManager::killAllApps]. *)
Definition killAllApps (s : t) : os_error_t * t * list published :=
  let appIds := fst <$> m_runningApps s in
  let '(s1, evs) := kill_each s appIds in
  (OS_OK, with_apps s1 (m_runningApps s1) "", evs).

(** [AppManager::getTotalMemoryUsage]; the sum is a [size_t]. *)
Definition getTotalMemoryUsage (s : t) : Z :=
  fold_left (fun total kv => wrap32 (total + BaseApp.getMemoryUsage kv.2))
            (m_runningApps s) 0.

(** [AppManager::cleanupStoppedApps]. *)
Definition is_stopped (a : BaseApp.t) : bool :=
  match BaseApp.getState a with BaseApp.STOPPED => true | _ => false end.

Definition cleanupStoppedApps (s : t) : t :=
  with_apps s (List.filter (fun kv => negb (is_stopped kv.2)) (m_runningApps s))
            (m_currentAppId s).

(** Heap sizes of os_config.h. *)
Definition OS_SYSTEM_HEAP_SIZE : Z := 2 * 1024 * 1024.
Definition OS_APP_HEAP_SIZE : Z := 4 * 1024 * 1024.

(** The values of [enum class AppPriority] and the comparator of
    [enforceResourceLimits]: [a.second < b.second]. *)
Definition priority_rank (p : BaseApp.AppPriority) : Z :=
  match p with
  | BaseApp.APP_LOW => 0
  | BaseApp.APP_NORMAL => 1
  | BaseApp.APP_HIGH => 2
  | BaseApp.APP_SYSTEM => 3
  end.

Definition lower_priority (a b : string * BaseApp.AppPriority) : bool :=
  priority_rank a.2 <? priority_rank b.2.

(** The killing loop of [enforceResourceLimits].  The test
    [getTotalMemoryUsage() < OS_APP_HEAP_SIZE * 0.8] compares doubles;
    the total being a whole number and [OS_APP_HEAP_SIZE] a power of
    two, it holds exactly when five times the total is below four
    times [OS_APP_HEAP_SIZE]. *)
Fixpoint kill_until_acceptable (s : t) (candidates : list (string * BaseApp.AppPriority))
  : t * list published :=
  match candidates with
  | [] => (s, [])
  | (appId, _) :: rest =>
      if 5 * getTotalMemoryUsage s <? 4 * OS_APP_HEAP_SIZE then (s, [])
      else
        let '(_, s1, evs1) := killApp s appId in
        let '(s2, evs2) := kill_until_acceptable s1 rest in
        (s2, evs1 ++ evs2)
  end.

(** [AppManager::enforceResourceLimits]; [systemMemory] is what the
    memory manager's [getTotalAllocated] answers. *)
Definition enforceResourceLimits (S : StdSort) (s : t) (systemMemory : Z)
  : t * list published :=
  if (OS_APP_HEAP_SIZE <? getTotalMemoryUsage s) || (OS_SYSTEM_HEAP_SIZE <? systemMemory)
  then
    let candidates :=
      (fun kv => (kv.1, BaseApp.getPriority kv.2))
        <$> List.filter (fun kv => negb (String.eqb kv.1 (m_currentAppId s)))
                        (m_runningApps s) in
    kill_until_acceptable s (std_sort S _ lower_priority candidates)
  else (s, []).

End AppManager.

(** * Proofs *)

Lemma wrap32_small z : 0 <= z < 2 ^ 32 -> wrap32 z = z.
Proof. intros H. unfold wrap32. apply Z.mod_small. exact H. Qed.

Lemma wrap32_range z : 0 <= wrap32 z < 2 ^ 32.
Proof. unfold wrap32. apply Z.mod_pos_bound. lia. Qed.

(** ** Address ranges that do not overlap *)

Section Ranges.

Definition disj (a b : Z * Z) : Prop := a.1 + a.2 <= b.1 \/ b.1 + b.2 <= a.1.

Lemma disj_sym a b : disj a b -> disj b a.
Proof. unfold disj. tauto. Qed.

Fixpoint pairwise {A : Type} (R : A -> A -> Prop) (l : list A) : Prop :=
  match l with
  | [] => True
  | x :: rest => Forall (R x) rest /\ pairwise R rest
  end.

Lemma pairwise_snoc {A} (R : A -> A -> Prop) l x :
  pairwise R (l ++ [x]) <-> pairwise R l /\ Forall (fun y => R y x) l.
Proof.
  induction l as [|a l IH]; simpl.
  - split; [intros _; split; [exact I | constructor] | intros _; split; [constructor | exact I]].
  - rewrite Forall_app, Forall_singleton, IH, Forall_cons. tauto.
Qed.

Lemma pairwise_delete {A} (R : A -> A -> Prop) l k :
  pairwise R l -> pairwise R (delete k l).
Proof.
  revert k. induction l as [|a l IH]; intros k H; [destruct k; exact H|].
  destruct H as [Ha Hl]. destruct k as [|k]; simpl; [exact Hl|].
  split; [|apply IH; exact Hl].
  eapply Forall_forall. intros y Hy. eapply Forall_forall in Ha; [exact Ha|].
  eapply list_elem_of_delete_inv; exact Hy.
Qed.

Lemma pairwise_lookup {A} (R : A -> A -> Prop) l (i j : nat) x y :
  (forall a b, R a b -> R b a) ->
  pairwise R l -> i <> j -> l !! i = Some x -> l !! j = Some y -> R x y.
Proof.
  intros Hsym. revert i j. induction l as [|a l IH]; intros i j H Hij Hi Hj;
    [rewrite lookup_nil in Hi; discriminate|].
  destruct H as [Ha Hl]. destruct i as [|i], j as [|j]; simpl in *.
  - congruence.
  - inversion Hi; subst. eapply Forall_lookup_1 in Ha; eauto.
  - inversion Hj; subst. apply Hsym. eapply Forall_lookup_1 in Ha; eauto.
  - eapply (IH i j); eauto.
Qed.

(** Ranges that lie in [[0, N)] and do not overlap hold at most [N]
    addresses between them. *)
Definition cells (a : Z * Z) : list Z := seqZ a.1 a.2.

Definition total_length (l : list (Z * Z)) : Z := foldr (fun e acc => e.2 + acc) 0 l.

Lemma cells_cover (N : Z) (l : list (Z * Z)) :
  Forall (fun a => 0 <= a.1 /\ 0 <= a.2 /\ a.1 + a.2 <= N) l ->
  pairwise disj l ->
  NoDup (l ≫= cells)
  /\ Z.of_nat (length (l ≫= cells)) = total_length l
  /\ forall n, n ∈ l ≫= cells -> 0 <= n < N.
Proof.
  induction l as [|a l IH]; intros Hin Hd.
  - split; [constructor|]. split; [reflexivity|]. intros n Hn. inversion Hn.
  - destruct Hd as [Ha Hl]. apply Forall_cons in Hin as [Hin1 Hin2].
    destruct (IH Hin2 Hl) as (IH1 & IH2 & IH3).
    rewrite bind_cons. cbn [total_length foldr].
    fold (total_length l).
    split; [|split].
    + apply NoDup_app. split; [apply NoDup_seqZ|]. split; [|exact IH1].
      intros n Hn Hn'. apply elem_of_seqZ in Hn.
      apply list_elem_of_bind in Hn' as (b & Hb & Hbl).
      eapply Forall_forall in Ha; [|exact Hbl].
      apply elem_of_seqZ in Hb.
      unfold disj in Ha. lia.
    + rewrite length_app, Nat2Z.inj_add, IH2. unfold cells.
      rewrite length_seqZ. lia.
    + intros n Hn. apply elem_of_app in Hn as [Hn|Hn]; [|auto].
      apply elem_of_seqZ in Hn. lia.
Qed.

Lemma packing (N : Z) (l : list (Z * Z)) :
  0 <= N ->
  Forall (fun a => 0 <= a.1 /\ 0 <= a.2 /\ a.1 + a.2 <= N) l ->
  pairwise disj l ->
  total_length l <= N.
Proof.
  intros HN Hin Hd.
  destruct (cells_cover N l Hin Hd) as (Hnd & Hlen & Hlt).
  assert (Hsub : l ≫= cells ⊆+ seqZ 0 N).
  { apply NoDup_submseteq; [exact Hnd|].
    intros n Hn. apply elem_of_seqZ. specialize (Hlt n Hn). lia. }
  apply submseteq_length in Hsub. rewrite length_seqZ in Hsub. lia.
Qed.

End Ranges.

(** ** Memory manager: pools *)

Module MemMgrProofs.
Import MemMgr.

Definition inside (a : Z * Z) (q : Z) : Prop := a.1 <= q < a.1 + a.2.

(** A pool either failed to obtain its buffer (and then has no blocks)
    or owns a buffer inside the address space with one flag per block. *)
Definition pool_wf (p : MemoryPool) : Prop :=
  (m_memory p = 0 /\ m_totalBlocks p = 0)
  \/ (0 < m_memory p /\ 0 < m_blockSize p
      /\ Z.of_nat (length (m_blockUsed p)) = m_totalBlocks p
      /\ m_memory p + m_blockSize p * m_totalBlocks p <= 2 ^ 32).

Definition set_used (p : MemoryPool) (j : nat) (v : bool) (fr : Z) : MemoryPool :=
  mkPool (m_blockSize p) (m_totalBlocks p) fr (m_memory p)
         (<[j := v]> (m_blockUsed p)).

Lemma set_used_wf p j v fr : pool_wf p -> pool_wf (set_used p j v fr).
Proof.
  intros [H|H]; [left; exact H|right]. unfold set_used; simpl.
  rewrite length_insert. exact H.
Qed.

Lemma set_used_region p j v fr : region (set_used p j v fr) = region p.
Proof. reflexivity. Qed.

Lemma first_unused_Some used i n k :
  first_unused used i n = Some k ->
  exists j : nat, k = (i + j)%nat /\ used !! j = Some false /\ (j < n)%nat.
Proof.
  revert used i. induction n as [|n IH]; intros used i H;
    destruct used as [|u rest]; simpl in H; try discriminate H.
  destruct u.
  - apply IH in H as (j & -> & Hj & Hlt). exists (S j). split; [lia|]. split; [exact Hj | lia].
  - inversion H; subst. exists 0%nat. split; [lia|]. split; [reflexivity | lia].
Qed.

Lemma pool_allocate_spec p q p' :
  pool_wf p -> pool_allocate p = (q, p') ->
  (q = 0 /\ p' = p)
  \/ exists j : nat,
       0 < m_memory p /\ m_blockUsed p !! j = Some false
       /\ q = m_memory p + Z.of_nat j * m_blockSize p
       /\ p' = set_used p j true (wrap32 (m_freeBlocks p - 1)).
Proof.
  intros Hwf. unfold pool_allocate.
  destruct (m_freeBlocks p =? 0); [intros [= <- <-]; left; auto|].
  destruct (first_unused _ _ _) as [k|] eqn:Hk; [|intros [= <- <-]; left; auto].
  intros [= <- <-]. apply first_unused_Some in Hk as (j & -> & Hj & Hlt).
  destruct Hwf as [[_ H0]|(Hm & _)]; [rewrite H0 in Hlt; simpl in Hlt; lia|].
  right. exists j. simpl. auto.
Qed.

Lemma pool_deallocate_outside p q :
  pool_wf p -> ~ inside (region p) q -> pool_deallocate p q = (false, p).
Proof.
  intros Hwf Hout. unfold pool_deallocate.
  destruct (q =? 0) eqn:Hq; [reflexivity|].
  destruct (m_memory p =? 0) eqn:Hm; [reflexivity|]. simpl.
  destruct (q <? m_memory p) eqn:Hlt; [reflexivity|].
  destruct (negb _) eqn:Hmod; [reflexivity|].
  destruct (m_totalBlocks p <=? _) eqn:Hidx; [reflexivity|].
  exfalso. apply Hout. unfold inside, region; simpl.
  destruct Hwf as [[H0 _]|(Hm0 & Hbs & _ & _)]; [lia|].
  apply Z.ltb_ge in Hlt. apply Z.leb_gt in Hidx.
  split; [exact Hlt|].
  assert (q - m_memory p < m_blockSize p * m_totalBlocks p); [|lia].
  pose proof (Z.div_mod (q - m_memory p) (m_blockSize p)) as Hdm.
  pose proof (Z.mod_pos_bound (q - m_memory p) (m_blockSize p) Hbs) as Hmb.
  nia.
Qed.

Lemma pool_deallocate_used p q (j : nat) :
  pool_wf p -> 0 < m_memory p ->
  m_blockUsed p !! j = Some true ->
  q = m_memory p + Z.of_nat j * m_blockSize p ->
  pool_deallocate p q = (true, set_used p j false (wrap32 (m_freeBlocks p + 1))).
Proof.
  intros Hwf Hm Hj ->. unfold pool_deallocate.
  destruct Hwf as [[H0 _]|(_ & Hbs & Hlen & _)]; [lia|].
  assert (Hjn : (j < length (m_blockUsed p))%nat) by (eapply lookup_lt_Some; eauto).
  replace (m_memory p + Z.of_nat j * m_blockSize p - m_memory p)
    with (Z.of_nat j * m_blockSize p) by lia.
  rewrite Z_mod_mult, Z_div_mult by lia.
  destruct (_ =? 0) eqn:Hq; [lia|].
  destruct (m_memory p =? 0) eqn:Hm0; [lia|]. simpl.
  destruct (_ <? m_memory p) eqn:Hlt; [nia|].
  destruct (m_totalBlocks p <=? Z.of_nat j) eqn:Hidx; [lia|].
  rewrite Nat2Z.id, Hj. reflexivity.
Qed.

Lemma used_inside p (j : nat) b :
  pool_wf p -> 0 < m_memory p -> m_blockUsed p !! j = Some b ->
  0 < m_blockSize p
  /\ m_memory p <= m_memory p + Z.of_nat j * m_blockSize p
  /\ m_memory p + (Z.of_nat j + 1) * m_blockSize p
     <= m_memory p + m_blockSize p * m_totalBlocks p
  /\ m_memory p + m_blockSize p * m_totalBlocks p <= 2 ^ 32.
Proof.
  intros [[H0 _]|(_ & Hbs & Hlen & Hsp)] Hm Hj; [lia|].
  apply lookup_lt_Some in Hj. repeat split; try lia; nia.
Qed.

Definition regions_apart (pools : list MemoryPool) : Prop :=
  pairwise (fun a b => disj (region a) (region b)) pools.

Lemma pools_deallocate_outside q pools :
  Forall pool_wf pools ->
  Forall (fun p => ~ inside (region p) q) pools ->
  pools_deallocate q pools = (false, pools).
Proof.
  induction pools as [|p ps IH]; intros Hwf Hout; [reflexivity|].
  apply Forall_cons in Hwf as [Hp Hps]. apply Forall_cons in Hout as [Ho Hos].
  simpl. rewrite pool_deallocate_outside by assumption.
  rewrite IH by assumption. reflexivity.
Qed.

Lemma pools_deallocate_used q pools (i : nat) p (j : nat) :
  Forall pool_wf pools -> regions_apart pools ->
  pools !! i = Some p -> 0 < m_memory p ->
  m_blockUsed p !! j = Some true ->
  q = m_memory p + Z.of_nat j * m_blockSize p ->
  pools_deallocate q pools
  = (true, <[i := set_used p j false (wrap32 (m_freeBlocks p + 1))]> pools).
Proof.
  intros Hwf Hap Hi Hm Hj Hq. revert i Hi.
  induction pools as [|a ps IH]; intros i Hi; [rewrite lookup_nil in Hi; discriminate|].
  apply Forall_cons in Hwf as [Ha Hps]. destruct Hap as [Hda Hap].
  destruct i as [|i]; simpl in Hi.
  - inversion Hi; subst a. simpl.
    rewrite (pool_deallocate_used p q j) by assumption. reflexivity.
  - simpl. rewrite pool_deallocate_outside; [|exact Ha|].
    + rewrite (IH Hps Hap i Hi). reflexivity.
    + eapply Forall_lookup_1 in Hda; [|exact Hi].
      assert (Hp : pool_wf p) by (eapply Forall_lookup_1 in Hps; eauto).
      destruct (used_inside p j true Hp Hm Hj) as (Hbs & H1 & H2 & H3).
      unfold inside, disj, region in *; simpl in *. lia.
Qed.

Lemma pools_allocate_spec sz pools q pools' :
  Forall pool_wf pools -> pools_allocate sz pools = (q, pools') ->
  (q = 0 /\ pools' = pools)
  \/ exists (i : nat) p (j : nat),
       pools !! i = Some p /\ 0 < m_memory p /\ sz <= m_blockSize p
       /\ m_blockUsed p !! j = Some false
       /\ q = m_memory p + Z.of_nat j * m_blockSize p
       /\ pools' = <[i := set_used p j true (wrap32 (m_freeBlocks p - 1))]> pools.
Proof.
  revert q pools'. induction pools as [|a ps IH]; intros q pools' Hwf H.
  - inversion H; subst. left; auto.
  - apply Forall_cons in Hwf as [Ha Hps]. simpl in H.
    assert (Hrec : forall r ps' x, pools_allocate sz ps = (r, ps') ->
              (q, pools') = (r, x :: ps') -> x = a ->
              (q = 0 /\ pools' = a :: ps)
              \/ exists (i : nat) p (j : nat),
                   (a :: ps) !! i = Some p /\ 0 < m_memory p /\ sz <= m_blockSize p
                   /\ m_blockUsed p !! j = Some false
                   /\ q = m_memory p + Z.of_nat j * m_blockSize p
                   /\ pools' = <[i := set_used p j true (wrap32 (m_freeBlocks p - 1))]> (a :: ps)).
    { intros r ps' x Hr [= -> ->] ->.
      destruct (IH _ _ Hps Hr) as [[-> ->]|(i & p & j & Hi & Hm & Hsz & Hj & -> & ->)];
        [left; auto|].
      right. exists (S i), p, j. simpl. auto 10. }
    destruct ((sz <=? m_blockSize a) && (0 <? m_freeBlocks a)) eqn:Hc.
    + destruct (pool_allocate a) as [qa a'] eqn:Hpa.
      destruct (pool_allocate_spec _ _ _ Ha Hpa)
        as [[-> ->]|(j & Hm & Hj & -> & ->)].
      * simpl in H. destruct (pools_allocate sz ps) as [r ps'] eqn:Hr.
        eapply Hrec; eauto.
      * destruct (_ =? 0) eqn:Hq0.
        { destruct (pools_allocate sz ps) as [r ps'] eqn:Hr.
          destruct (used_inside a j false Ha Hm Hj) as (? & ? & ? & ?). lia. }
        inversion H; subst. right. exists 0%nat, a, j. simpl.
        apply andb_prop in Hc as [Hc _]. apply Z.leb_le in Hc. auto 10.
    + destruct (pools_allocate sz ps) as [r ps'] eqn:Hr.
      eapply Hrec; eauto.
Qed.

(** ** Memory manager: the registry invariant *)

Definition block_ok (b : MemoryBlock) : Prop :=
  inUse b = true /\ 0 < size b /\ 0 < ptr b /\ ptr b + size b <= 2 ^ 32.

Definition blocks_apart (l : list MemoryBlock) : Prop :=
  pairwise (fun a b => disj (extent a) (extent b)) l.

(** A tracked block lives either in the general heap, away from every
    pool buffer, or in a block of a pool whose flag is set. *)
Definition homed (pools : list MemoryPool) (b : MemoryBlock) : Prop :=
  Forall (fun p => disj (extent b) (region p)) pools
  \/ exists (i : nat) p (j : nat),
       pools !! i = Some p /\ 0 < m_memory p
       /\ m_blockUsed p !! j = Some true
       /\ ptr b = m_memory p + Z.of_nat j * m_blockSize p
       /\ size b <= m_blockSize p.

Record Inv (s : MemoryManager) : Prop := mkInv {
  inv_blocks : Forall block_ok (m_activeBlocks s);
  inv_apart : blocks_apart (m_activeBlocks s);
  inv_total : m_totalAllocated s = total_length (extent <$> m_activeBlocks s);
  inv_pools : Forall pool_wf (m_pools s);
  inv_regions : regions_apart (m_pools s);
  inv_homed : Forall (homed (m_pools s)) (m_activeBlocks s)
}.

Lemma pairwise_fmap {A B} (R : B -> B -> Prop) (f : A -> B) l :
  pairwise R (f <$> l) <-> pairwise (fun a b => R (f a) (f b)) l.
Proof.
  induction l as [|a l IH]; [reflexivity|].
  rewrite fmap_cons. simpl. rewrite Forall_fmap, IH. reflexivity.
Qed.

Lemma total_length_cons a l : total_length (a :: l) = a.2 + total_length l.
Proof. reflexivity. Qed.

Lemma total_length_app l1 l2 :
  total_length (l1 ++ l2) = total_length l1 + total_length l2.
Proof. induction l1 as [|a l1 IH]; simpl; [reflexivity|]. rewrite IH. lia. Qed.

Lemma total_length_delete (l : list MemoryBlock) (k : nat) b :
  l !! k = Some b ->
  total_length (extent <$> delete k l) = total_length (extent <$> l) - size b.
Proof.
  revert k. induction l as [|a l IH]; intros k Hk; [rewrite lookup_nil in Hk; discriminate|].
  destruct k as [|k]; simpl in Hk.
  - change (delete 0%nat (a :: l)) with l.
    rewrite fmap_cons, total_length_cons. inversion Hk; subst. simpl. lia.
  - change (delete (S k) (a :: l)) with (a :: delete k l).
    rewrite !fmap_cons, !total_length_cons, (IH k Hk). lia.
Qed.

Lemma total_length_lower (l : list MemoryBlock) :
  Forall block_ok l -> Z.of_nat (length l) <= total_length (extent <$> l).
Proof.
  induction 1 as [|b l Hb _ IH]; [simpl; lia|].
  rewrite fmap_cons, total_length_cons, length_cons. simpl.
  destruct Hb as (_ & Hs & _). lia.
Qed.

(** The tracked bytes fit in [size_t]: the blocks are ranges of the
    address space above address 0 that do not overlap. *)
Lemma tracked_bytes_fit (l : list MemoryBlock) :
  Forall block_ok l -> blocks_apart l ->
  total_length (extent <$> l) < 2 ^ 32.
Proof.
  intros Hok Hap.
  assert (H : total_length ((0, 1) :: (extent <$> l)) <= 2 ^ 32).
  { apply packing; [lia| |].
    - constructor; [simpl; lia|]. apply Forall_fmap.
      eapply Forall_impl; [exact Hok|]. intros b (_ & ? & ? & ?). simpl. lia.
    - split; [|apply pairwise_fmap; exact Hap].
      apply Forall_fmap. eapply Forall_impl; [exact Hok|].
      intros b (_ & ? & ? & ?). unfold disj; simpl. lia. }
  rewrite total_length_cons in H. simpl in H. lia.
Qed.

Lemma homed_insert pools (i : nat) p (j : nat) v fr b :
  pools !! i = Some p -> homed pools b ->
  ptr b <> m_memory p + Z.of_nat j * m_blockSize p \/ v = true ->
  homed (<[i := set_used p j v fr]> pools) b.
Proof.
  intros Hi [Hheap|(i' & p' & j' & Hi' & Hm & Hj' & Hptr & Hsz)] Hv.
  - left. apply Forall_insert; [exact Hheap|].
    rewrite set_used_region. eapply Forall_lookup_1 in Hheap; eauto.
  - right. destruct (decide (i' = i)) as [->|Hne].
    + assert (p' = p) by congruence. subst p'.
      exists i, (set_used p j v fr), j'. simpl.
      split; [apply list_lookup_insert_eq; eapply lookup_lt_Some; eauto|].
      split; [exact Hm|]. split; [|auto].
      destruct (decide (j' = j)) as [->|Hj].
      * destruct Hv as [Hv| ->]; [congruence|].
        apply list_lookup_insert_eq. eapply lookup_lt_Some; eauto.
      * rewrite list_lookup_insert_ne by congruence. exact Hj'.
    + exists i', p', j'. rewrite list_lookup_insert_ne by congruence. auto.
Qed.

(** A free block of a pool overlaps no tracked block. *)
Lemma free_block_apart pools (i : nat) p (j : nat) sz b :
  Forall pool_wf pools -> regions_apart pools ->
  pools !! i = Some p -> 0 < m_memory p ->
  m_blockUsed p !! j = Some false -> sz <= m_blockSize p ->
  block_ok b -> homed pools b ->
  disj (extent b) (m_memory p + Z.of_nat j * m_blockSize p, sz).
Proof.
  intros Hwf Hap Hi Hm Hj Hsz (_ & Hbs & Hbp & Hbe) Hhome.
  assert (Hp : pool_wf p) by (eapply Forall_lookup_1 in Hwf; eauto).
  destruct (used_inside p j false Hp Hm Hj) as (Hbsz & H1 & H2 & H3).
  destruct Hhome as [Hheap|(i' & p' & j' & Hi' & Hm' & Hj' & Hptr & Hsz')].
  - eapply Forall_lookup_1 in Hheap; [|exact Hi].
    unfold disj, extent, region in *; simpl in *. lia.
  - destruct (decide (i' = i)) as [->|Hne].
    + assert (p' = p) by congruence. subst p'.
      assert (j' <> j) by congruence.
      unfold disj, extent; simpl. rewrite Hptr.
      destruct (Z.lt_total (Z.of_nat j') (Z.of_nat j)) as [Hlt|[Heq|Hgt]]; [|lia|]; nia.
    + assert (Hp' : pool_wf p') by (eapply Forall_lookup_1 in Hwf; eauto).
      destruct (used_inside p' j' true Hp' Hm' Hj') as (Hbsz' & H1' & H2' & H3').
      pose proof (pairwise_lookup _ pools i' i p' p
                    (fun a b => disj_sym (region a) (region b)) Hap Hne Hi' Hi) as Hd.
      unfold disj, extent, region in *; simpl in *. nia.
Qed.

Lemma total_length_nonneg (l : list MemoryBlock) :
  Forall block_ok l -> 0 <= total_length (extent <$> l).
Proof. intros H. pose proof (total_length_lower l H). lia. Qed.

Lemma regions_apart_insert pools (i : nat) p p' :
  pools !! i = Some p -> region p' = region p ->
  regions_apart pools -> regions_apart (<[i := p']> pools).
Proof.
  intros Hi Hr H. unfold regions_apart in *.
  apply (pairwise_fmap disj region). apply (pairwise_fmap disj region) in H.
  rewrite list_fmap_insert, Hr, list_insert_id; [exact H|].
  rewrite list_lookup_fmap, Hi. reflexivity.
Qed.

(** Recording one more block keeps the invariant, provided the block
    is a fresh range with a home. *)
Lemma inv_push s b pools' peak cnt dc ini :
  Inv s ->
  Forall pool_wf pools' -> regions_apart pools' ->
  Forall (homed pools') (m_activeBlocks s) ->
  block_ok b ->
  Forall (fun y => disj (extent y) (extent b)) (m_activeBlocks s) ->
  homed pools' b ->
  Inv (mkMM (m_activeBlocks s ++ [b]) (wrap32 (m_totalAllocated s + size b))
            peak cnt dc pools' ini).
Proof.
  intros [Hb Ha Ht Hp Hr Hh] Hp' Hr' Hh' Hbok Hfresh Hhome.
  assert (Hb' : Forall block_ok (m_activeBlocks s ++ [b])).
  { apply Forall_app. split; [exact Hb|]. constructor; [exact Hbok|constructor]. }
  assert (Ha' : blocks_apart (m_activeBlocks s ++ [b])).
  { apply pairwise_snoc. split; assumption. }
  constructor; simpl; try assumption.
  - pose proof (tracked_bytes_fit _ Hb' Ha') as Hfit.
    pose proof (total_length_nonneg _ Hb') as Hnn.
    rewrite fmap_app, total_length_app in *. simpl in *.
    rewrite Ht, wrap32_small; lia.
  - apply Forall_app. split; [exact Hh'|]. constructor; [exact Hhome|constructor].
Qed.

Lemma disjointb_disj a b : disjointb a b = true <-> disj a b.
Proof.
  unfold disjointb, disj. rewrite orb_true_iff, !Z.leb_le. reflexivity.
Qed.

Lemma allocate_inv s sz fl ln now heap q s' :
  Inv s -> 0 <= sz < 2 ^ 32 -> heap_answer_ok s sz heap = true ->
  allocate s sz fl ln now heap = (q, s') ->
  Inv s'
  /\ ((q = 0 /\ m_activeBlocks s' = m_activeBlocks s)
      \/ (q <> 0 /\ m_activeBlocks s' = m_activeBlocks s ++ [mkBlock q sz now fl ln true]
          /\ m_totalAllocated s' = wrap32 (m_totalAllocated s + sz))).
Proof.
  intros HI Hsz Hheap. unfold allocate.
  destruct (negb (m_initialized s) || (sz =? 0)) eqn:Hg.
  { intros [= <- <-]. split; [exact HI|left; auto]. }
  apply orb_false_elim in Hg as [_ Hsz0]. apply Z.eqb_neq in Hsz0.
  assert (Hpool : exists q1 pools1,
            (if sz <=? 1024 then pools_allocate sz (m_pools s) else (0, m_pools s))
            = (q1, pools1)
            /\ ((q1 = 0 /\ pools1 = m_pools s)
                \/ exists (i : nat) p (j : nat),
                     m_pools s !! i = Some p /\ 0 < m_memory p /\ sz <= m_blockSize p
                     /\ m_blockUsed p !! j = Some false
                     /\ q1 = m_memory p + Z.of_nat j * m_blockSize p
                     /\ pools1 = <[i := set_used p j true (wrap32 (m_freeBlocks p - 1))]> (m_pools s))).
  { destruct (sz <=? 1024).
    - destruct (pools_allocate sz (m_pools s)) as [q1 pools1] eqn:Hpa.
      exists q1, pools1. split; [reflexivity|].
      eapply pools_allocate_spec; [apply (inv_pools _ HI) | exact Hpa].
    - exists 0, (m_pools s). split; [reflexivity|left; auto]. }
  destruct Hpool as (q1 & pools1 & -> & Hcase).
  destruct Hcase as [[-> ->]|(i & p & j & Hi & Hm & Hle & Hj & -> & ->)].
  - (* the general heap answers *)
    rewrite Z.eqb_refl. destruct (heap =? 0) eqn:Hh0.
    { intros [= <- <-]. split; [destruct HI; constructor; assumption|left; auto]. }
    intros [= <- <-]. apply Z.eqb_neq in Hh0.
    unfold heap_answer_ok in Hheap. apply orb_prop in Hheap as [Hheap|Hheap];
      [apply Z.eqb_eq in Hheap; lia|].
    apply andb_prop in Hheap as [Hheap Hpl]. apply andb_prop in Hheap as [Hsp Hbl].
    unfold in_space in Hsp. simpl in Hsp. apply andb_prop in Hsp as [Hsp1 Hsp2].
    apply Z.ltb_lt in Hsp1. apply Z.leb_le in Hsp2.
    rewrite forallb_forall in Hbl, Hpl.
    split; [|right; auto].
    apply (inv_push s (mkBlock heap sz now fl ln true)); try exact HI.
    + apply (inv_pools _ HI).
    + apply (inv_regions _ HI).
    + apply (inv_homed _ HI).
    + unfold block_ok; simpl. repeat split; lia.
    + apply Forall_forall. intros y Hy. apply disj_sym, disjointb_disj.
      apply Hbl. apply list_elem_of_In. exact Hy.
    + left. apply Forall_forall. intros y Hy. apply disjointb_disj.
      apply Hpl. apply list_elem_of_In. exact Hy.
  - (* a pool block *)
    assert (Hp : pool_wf p)
      by (eapply Forall_lookup_1; [apply (inv_pools _ HI)|exact Hi]).
    destruct (used_inside p j false Hp Hm Hj) as (Hbs & H1 & H2 & H3).
    assert (Hq0 : (m_memory p + Z.of_nat j * m_blockSize p =? 0) = false)
      by (apply Z.eqb_neq; lia).
    rewrite !Hq0. intros [= <- <-].
    split; [|right; split; [lia|auto]].
    apply (inv_push s (mkBlock _ sz now fl ln true)); try exact HI.
    + apply Forall_insert; [apply (inv_pools _ HI)|apply set_used_wf; exact Hp].
    + eapply regions_apart_insert; [exact Hi|reflexivity|apply (inv_regions _ HI)].
    + eapply Forall_impl; [apply (inv_homed _ HI)|]. intros b Hb.
      apply homed_insert; auto.
    + unfold block_ok; simpl. repeat split; lia.
    + apply Forall_forall. intros y Hy.
      eapply (free_block_apart (m_pools s) i p j sz y);
        try assumption.
      * apply (inv_pools _ HI).
      * apply (inv_regions _ HI).
      * eapply Forall_forall in Hy; [exact Hy|apply (inv_blocks _ HI)].
      * eapply Forall_forall in Hy; [exact Hy|apply (inv_homed _ HI)].
    + right. exists i, (set_used p j true (wrap32 (m_freeBlocks p - 1))), j. simpl.
      split; [apply list_lookup_insert_eq; eapply lookup_lt_Some; eauto|].
      split; [exact Hm|].
      split; [apply list_lookup_insert_eq; eapply lookup_lt_Some; eauto|].
      split; [reflexivity|exact Hle].
Qed.

Lemma ptr_unique (l : list MemoryBlock) (k k' : nat) b b' :
  Forall block_ok l -> blocks_apart l ->
  l !! k = Some b -> l !! k' = Some b' -> k <> k' -> ptr b <> ptr b'.
Proof.
  intros Hok Hap Hk Hk' Hne.
  pose proof (pairwise_lookup _ l k k' b b'
                (fun x y => disj_sym (extent x) (extent y)) Hap Hne Hk Hk') as Hd.
  eapply Forall_lookup_1 in Hk; [|exact Hok].
  eapply Forall_lookup_1 in Hk'; [|exact Hok].
  destruct Hk as (_ & ? & _), Hk' as (_ & ? & _).
  unfold disj, extent in Hd; simpl in Hd. lia.
Qed.

Lemma delete_lookup_inv {A} (l : list A) (k n : nat) x :
  delete k l !! n = Some x -> exists k', k' <> k /\ l !! k' = Some x.
Proof.
  rewrite list_lookup_delete. case_decide; intros Hx; eexists; (split; [|exact Hx]); lia.
Qed.

Definition keeps (q : ptr_t) (x : ptr_t * Z) : bool := negb (x.1 =? q).

Lemma filter_keeps_all q (l : list MemoryBlock) :
  Forall (fun b => ptr b <> q) l ->
  List.filter (keeps q) (extent <$> l) = extent <$> l.
Proof.
  induction 1 as [|b l Hb _ IH]; [reflexivity|].
  rewrite fmap_cons. simpl. unfold keeps at 1. simpl.
  destruct (ptr b =? q) eqn:E; [apply Z.eqb_eq in E; contradiction|].
  simpl. rewrite IH. reflexivity.
Qed.

(** Erasing the record found for [q] removes every record of [q]:
    tracked pointers are distinct. *)
Lemma delete_is_filter (l : list MemoryBlock) (k : nat) b q :
  Forall block_ok l -> blocks_apart l ->
  l !! k = Some b -> ptr b = q ->
  extent <$> delete k l = List.filter (keeps q) (extent <$> l).
Proof.
  intros Hok Hap Hk Hq.
  assert (Hothers : forall k' b', l !! k' = Some b' -> k' <> k -> ptr b' <> q).
  { intros k' b' Hk' Hne. subst q. eapply ptr_unique; eauto. }
  clear Hok Hap. revert k Hk Hothers.
  induction l as [|a l IH]; intros k Hk Hothers; [rewrite lookup_nil in Hk; discriminate|].
  rewrite fmap_cons. simpl. destruct k as [|k]; simpl in Hk.
  - inversion Hk; subst a. change (delete 0%nat (b :: l)) with l.
    unfold keeps at 1. simpl. rewrite Hq, Z.eqb_refl. simpl.
    symmetry. apply filter_keeps_all. apply Forall_lookup. intros n x Hx.
    apply (Hothers (S n) x); [exact Hx|lia].
  - change (delete (S k) (a :: l)) with (a :: delete k l).
    rewrite fmap_cons. unfold keeps at 1. simpl.
    assert (Ha : ptr a <> q) by (apply (Hothers 0%nat a); [reflexivity|lia]).
    destruct (ptr a =? q) eqn:E; [apply Z.eqb_eq in E; contradiction|].
    simpl. f_equal. apply IH; [exact Hk|].
    intros k' b' Hk' Hne. apply (Hothers (S k') b'); [exact Hk'|lia].
Qed.

Lemma deallocate_inv s q ok s' :
  Inv s -> deallocate s q = (ok, s') ->
  Inv s'
  /\ ((ok = false /\ s' = s)
      \/ (ok = true
          /\ extent <$> m_activeBlocks s'
             = List.filter (keeps q) (extent <$> m_activeBlocks s))).
Proof.
  intros HI. unfold deallocate.
  destruct ((q =? 0) || negb (m_initialized s));
    [intros [= <- <-]; split; [exact HI|left; auto]|].
  unfold findBlock. destruct (list_find _ _) as [[k b]|] eqn:Hf;
    [|intros [= <- <-]; split; [exact HI|left; auto]].
  apply list_find_Some in Hf as (Hk & Hq & _).
  pose proof (inv_blocks _ HI) as Hok. pose proof (inv_apart _ HI) as Hap.
  assert (Hb : block_ok b) by (eapply Forall_lookup_1; eauto).
  assert (Hhome : homed (m_pools s) b)
    by (eapply Forall_lookup_1; [apply (inv_homed _ HI)|exact Hk]).
  assert (Hpools : exists pools1,
            (pools_deallocate q (m_pools s)).2 = pools1
            /\ Forall pool_wf pools1 /\ regions_apart pools1
            /\ Forall (homed pools1) (delete k (m_activeBlocks s))).
  { destruct Hhome as [Hheap|(i & p & j & Hi & Hm & Hj & Hptr & Hsz)].
    - exists (m_pools s). rewrite pools_deallocate_outside.
      + split; [reflexivity|]. split; [apply (inv_pools _ HI)|].
        split; [apply (inv_regions _ HI)|].
        apply Forall_delete. apply (inv_homed _ HI).
      + apply (inv_pools _ HI).
      + eapply Forall_impl; [exact Hheap|]. intros p Hd.
        destruct Hb as (_ & ? & ? & ?).
        unfold inside, disj, extent, region in *; simpl in *. lia.
    - assert (Hp : pool_wf p)
        by (eapply Forall_lookup_1; [apply (inv_pools _ HI)|exact Hi]).
      eexists. rewrite (pools_deallocate_used q (m_pools s) i p j);
        try assumption; try congruence;
        [|apply (inv_pools _ HI)|apply (inv_regions _ HI)].
      split; [reflexivity|].
      split; [apply Forall_insert; [apply (inv_pools _ HI)|apply set_used_wf; exact Hp]|].
      split; [eapply regions_apart_insert; [exact Hi|reflexivity|apply (inv_regions _ HI)]|].
      apply Forall_lookup. intros n b' Hn.
      apply delete_lookup_inv in Hn as (k' & Hne & Hk').
      apply homed_insert; [exact Hi| |].
      + eapply Forall_lookup_1; [apply (inv_homed _ HI)|exact Hk'].
      + left. rewrite <- Hptr. eapply ptr_unique; eauto. }
  destruct Hpools as (pools1 & Hp1 & Hwf1 & Hra1 & Hh1).
  destruct (pools_deallocate q (m_pools s)) as [r pools1'] eqn:Hpd.
  simpl in Hp1. subst pools1'. intros [= <- <-].
  split; [|right; split; [reflexivity|simpl; eapply delete_is_filter; eauto]].
  constructor; simpl; try assumption.
  - apply Forall_delete. exact Hok.
  - apply pairwise_delete. exact Hap.
  - rewrite (total_length_delete _ _ _ Hk), (inv_total _ HI).
    pose proof (tracked_bytes_fit _ Hok Hap) as Hfit.
    assert (Hd : Forall block_ok (delete k (m_activeBlocks s)))
      by (apply Forall_delete; exact Hok).
    pose proof (total_length_nonneg _ Hd) as Hnn.
    rewrite (total_length_delete _ _ _ Hk) in Hnn.
    destruct Hb as (_ & ? & _). apply wrap32_small. lia.
Qed.

(** ** Memory manager: histories *)

(** The records that survive a history: those whose pointer no call of
    the history frees. *)
Definition survives (h : list (call * reply)) (x : ptr_t * Z) : bool :=
  negb (existsb (frees x.1) h).

Lemma filter_twice {A} (f g : A -> bool) (l : list A) :
  List.filter f (List.filter g l) = List.filter (fun x => g x && f x) l.
Proof.
  induction l as [|a l IH]; [reflexivity|]. simpl.
  destruct (g a); simpl; [destruct (f a)|]; rewrite IH; reflexivity.
Qed.

Lemma step_inv s c :
  Inv s -> call_ok s c = true -> Inv (step s c).2.
Proof.
  intros HI Hc. destruct c as [sz fl ln now heap|q]; simpl.
  - destruct (allocate s sz fl ln now heap) as [q s1] eqn:Ha. simpl.
    simpl in Hc. apply andb_prop in Hc as [Hc Hh]. apply andb_prop in Hc as [H0 H1].
    apply Z.leb_le in H0. apply Z.ltb_lt in H1.
    eapply allocate_inv in Ha; eauto. apply Ha.
  - destruct (deallocate s q) as [ok s1] eqn:Hd. simpl.
    eapply deallocate_inv in Hd; eauto. apply Hd.
Qed.

Lemma run_tracks cs : forall s,
  Inv s -> trace_ok s cs = true ->
  Inv (run s cs).2
  /\ extent <$> m_activeBlocks (run s cs).2
     = List.filter (survives (zip cs (run s cs).1)) (extent <$> m_activeBlocks s)
       ++ outstanding (zip cs (run s cs).1).
Proof.
  induction cs as [|c cs IH]; intros s HI Hok.
  - simpl. split; [exact HI|]. rewrite app_nil_r.
    induction (extent <$> m_activeBlocks s) as [|x l IHl]; [reflexivity|].
    simpl. f_equal. exact IHl.
  - simpl in Hok. apply andb_prop in Hok as [Hc Hok].
    pose proof (step_inv s c HI Hc) as HI1.
    specialize (IH (step s c).2 HI1 Hok).
    simpl. destruct (step s c) as [r s1] eqn:Hstep. simpl in *.
    destruct (run s1 cs) as [rs s2] eqn:Hrun. simpl in *.
    destruct IH as [HI2 IH]. split; [exact HI2|]. rewrite IH. clear IH.
    destruct c as [sz fl ln now heap|q]; simpl in Hstep.
    + destruct (allocate s sz fl ln now heap) as [q s1'] eqn:Ha.
      inversion Hstep; subst r s1'. clear Hstep.
      simpl in Hc. apply andb_prop in Hc as [Hc Hh]. apply andb_prop in Hc as [H0 H1].
      apply Z.leb_le in H0. apply Z.ltb_lt in H1.
      apply (allocate_inv _ _ _ _ _ _ _ _ HI (conj H0 H1) Hh) in Ha
        as [_ [[-> Hb]|(Hq & Hb & _)]]; rewrite Hb.
      * reflexivity.
      * apply Z.eqb_neq in Hq. rewrite Hq. simpl.
        rewrite fmap_app, List.filter_app, <- app_assoc. f_equal.
        simpl. unfold survives at 1. simpl.
        destruct (existsb (frees q) (zip cs rs)); reflexivity.
    + destruct (deallocate s q) as [ok s1'] eqn:Hd.
      inversion Hstep; subst r s1'. clear Hstep.
      apply (deallocate_inv _ _ _ _ HI) in Hd as [_ [[-> ->]|[-> Hb]]].
      * reflexivity.
      * rewrite Hb, filter_twice. f_equal.
        apply List.filter_ext. intros x. unfold keeps, survives. simpl.
        rewrite (Z.eqb_sym q). destruct (x.1 =? q); reflexivity.
Qed.

Lemma initialize_inv mems :
  init_ok mems = true -> Inv (initialize empty mems).2.
Proof.
  destruct mems as [[[a b] c] d]. unfold init_ok, buffer_ok, in_space. simpl.
  intros H.
  assert (Hwf : forall bs n m,
             (m =? 0) || (0 <? m) && (m + bs * n <=? 2 ^ 32) = true ->
             0 < bs -> 0 <= n -> pool_wf (new_pool bs n m)).
  { intros bs n m Hm Hbs Hn. unfold new_pool.
    destruct (m =? 0) eqn:E; [left; simpl; auto|right; simpl].
    simpl in Hm. apply andb_prop in Hm as [H1 H2].
    apply Z.ltb_lt in H1. apply Z.leb_le in H2.
    rewrite length_replicate. lia. }
  assert (Hreg : forall bs n m, 0 <= m -> 
             region (new_pool bs n m) = (m, if m =? 0 then 0 else bs * n)).
  { intros bs n m Hm. unfold new_pool, region.
    destruct (m =? 0) eqn:E; simpl; [apply Z.eqb_eq in E; subst; f_equal; lia|reflexivity]. }
  repeat rewrite andb_true_iff in H.
  destruct H as [(Ha & Hb & Hc & Hd & _) Hdisj].
  constructor; simpl.
  - constructor.
  - exact I.
  - reflexivity.
  - repeat (apply Forall_cons; split; [apply Hwf; [assumption|lia|lia]|]).
    apply Forall_nil. exact I.
  - assert (Hge : forall m bs n,
              (m =? 0) || (0 <? m) && (m + bs * n <=? 2 ^ 32) = true -> 0 <= m).
    { intros m bs n Hm. apply orb_prop in Hm as [Hm|Hm];
        [apply Z.eqb_eq in Hm; lia|apply andb_prop in Hm as [Hm _]; apply Z.ltb_lt in Hm; lia]. }
    pose proof (Hge _ _ _ Ha) as Ha0. pose proof (Hge _ _ _ Hb) as Hb0.
    pose proof (Hge _ _ _ Hc) as Hc0. pose proof (Hge _ _ _ Hd) as Hd0.
    apply (pairwise_fmap disj region).
    rewrite !fmap_cons, fmap_nil, !Hreg by assumption.
    cbn [pairwise]. rewrite !Forall_cons, !Forall_nil. unfold disj. cbn [fst snd].
    destruct (a =? 0) eqn:Ea, (b =? 0) eqn:Eb, (c =? 0) eqn:Ec, (d =? 0) eqn:Ed;
      cbn [negb all_disjoint forallb List.filter fst snd] in Hdisj;
      unfold disjointb in Hdisj; cbn [fst snd] in Hdisj;
      repeat rewrite ?andb_true_iff, ?orb_true_iff, ?Z.leb_le in Hdisj;
      repeat match goal with
             | E : (_ =? 0) = true |- _ => apply Z.eqb_eq in E
             | E : (_ =? 0) = false |- _ => apply Z.eqb_neq in E
             end;
      lia.
  - constructor.
Qed.

Lemma filter_inUse (l : list MemoryBlock) :
  Forall block_ok l -> List.filter inUse l = l.
Proof.
  induction 1 as [|b l Hb _ IH]; [reflexivity|]. simpl.
  destruct Hb as (-> & _). rewrite IH. reflexivity.
Qed.

(** A small session: two pool-sized requests and a large one served by
    the general heap; a release and a request that reuses the released
    block; a request the heap refuses; the release of a pointer the
    manager never handed out; a second release. *)
Definition demo_mems : ptr_t * ptr_t * ptr_t * ptr_t := (4096, 8192, 12288, 20480).
Definition demo_calls : list call :=
  [Allocate 10 0 0 5 0; Allocate 2000 0 0 6 100000; Allocate 16 0 0 7 0;
   Deallocate 4096; Allocate 8 0 0 8 0; Allocate 5000 0 0 9 0;
   Deallocate 777; Deallocate 4112].

Example demo_replies :
  (run (initialize empty demo_mems).2 demo_calls).1
  = [Pointer 4096; Pointer 100000; Pointer 4112; Freed true; Pointer 4096;
     Pointer 0; Freed false; Freed true].
Proof. vm_compute. reflexivity. Qed.

Example demo_outstanding :
  outstanding (zip demo_calls (run (initialize empty demo_mems).2 demo_calls).1)
  = [(100000, 2000); (4096, 8)].
Proof. vm_compute. reflexivity. Qed.

Example demo_totals :
  getTotalAllocated (run (initialize empty demo_mems).2 demo_calls).2 = 2008
  /\ checkLeaks (run (initialize empty demo_mems).2 demo_calls).2 = 2.
Proof. vm_compute. split; reflexivity. Qed.

(** C1. After initialization, whatever sequence of [allocate] and
    [deallocate] calls is made (the platform heap answering each
    fallback request with null or with a fresh range of the address
    space), [getTotalAllocated] is the sum of the sizes of the
    successful [allocate] calls whose pointer has not been successfully
    deallocated since, and [checkLeaks] returns the number of those
    calls. *)
Theorem total_tracks_outstanding mems cs :
  init_ok mems = true ->
  trace_ok (initialize empty mems).2 cs = true ->
  getTotalAllocated (run (initialize empty mems).2 cs).2
  = sum_sizes (outstanding (zip cs (run (initialize empty mems).2 cs).1))
  /\ checkLeaks (run (initialize empty mems).2 cs).2
     = Z.of_nat (length (outstanding (zip cs (run (initialize empty mems).2 cs).1))).
Proof.
  intros Hinit Hok.
  pose proof (initialize_inv mems Hinit) as HI0.
  destruct (run_tracks cs _ HI0 Hok) as [HI Hblocks].
  assert (Hnil : m_activeBlocks (initialize empty mems).2 = []).
  { destruct mems as [[[a b] c] d]. reflexivity. }
  rewrite Hnil in Hblocks. simpl in Hblocks.
  set (s := (run (initialize empty mems).2 cs).2) in *.
  rewrite <- Hblocks.
  pose proof (inv_blocks _ HI) as Hb. pose proof (inv_apart _ HI) as Ha.
  split.
  - unfold getTotalAllocated. rewrite (inv_total _ HI). reflexivity.
  - unfold checkLeaks. rewrite (filter_inUse _ Hb), length_fmap.
    apply wrap32_small.
    pose proof (tracked_bytes_fit _ Hb Ha). pose proof (total_length_lower _ Hb). lia.
Qed.

Lemma total_tracks_outstanding_witness :
  getTotalAllocated (run (initialize empty demo_mems).2 demo_calls).2
  = sum_sizes (outstanding (zip demo_calls (run (initialize empty demo_mems).2 demo_calls).1))
  /\ checkLeaks (run (initialize empty demo_mems).2 demo_calls).2
     = Z.of_nat (length (outstanding (zip demo_calls (run (initialize empty demo_mems).2 demo_calls).1))).
Proof.
  apply (total_tracks_outstanding demo_mems demo_calls); vm_compute; reflexivity.
Defined.

(** C6. [deallocate] of a pointer that has no record in the registry
    of tracked blocks fails and returns the allocator exactly as it
    was: registry, pools, counters and totals. *)
Theorem deallocate_untracked s q :
  q ∉ ptr <$> m_activeBlocks s ->
  deallocate s q = (false, s).
Proof.
  intros Hq. unfold deallocate.
  destruct ((q =? 0) || negb (m_initialized s)); [reflexivity|].
  unfold findBlock. destruct (list_find _ _) as [[k b]|] eqn:Hf; [|reflexivity].
  apply list_find_Some in Hf as (Hk & Hp & _). exfalso. apply Hq.
  apply list_elem_of_fmap. exists b. split; [symmetry; exact Hp|].
  eapply list_elem_of_lookup_2. exact Hk.
Qed.

Definition demo_state : MemoryManager :=
  (run (initialize empty demo_mems).2 demo_calls).2.

Lemma deallocate_untracked_witness :
  deallocate demo_state 4112 = (false, demo_state)
  /\ deallocate demo_state 777 = (false, demo_state).
Proof.
  split; apply deallocate_untracked; vm_compute;
    intros H; repeat (apply elem_of_cons in H as [H|H]; [discriminate H|]);
    inversion H.
Defined.

End MemMgrProofs.

(** ** Sorting by insertion meets the contract of [std::sort] *)

Section Insertion.
Context {A : Type} (cmp : A -> A -> bool).

Lemma insert_before_perm x l : insert_before cmp x l ≡ₚ x :: l.
Proof.
  induction l as [|y l IH]; simpl; [reflexivity|].
  destruct (cmp y x); [|reflexivity]. rewrite IH. apply Permutation_swap.
Qed.

Lemma sort_keeping_ties_perm l : sort_keeping_ties cmp l ≡ₚ l.
Proof.
  induction l as [|x l IH]; simpl; [reflexivity|].
  rewrite insert_before_perm. f_equiv. exact IH.
Qed.

Hypothesis Hswo : strict_weak_order cmp.

Lemma swo_asym a b : cmp a b = true -> cmp b a = false.
Proof.
  destruct Hswo as (Hirr & Htr & _). intros Hab.
  destruct (cmp b a) eqn:Hba; [|reflexivity].
  rewrite <- (Hirr a). symmetry. eapply Htr; eauto.
Qed.

Lemma swo_not_below a b c :
  cmp a b = false -> cmp b c = false -> cmp a c = false.
Proof.
  destruct Hswo as (Hirr & Htr & Heq). intros Hab Hbc.
  destruct (cmp a c) eqn:Hac; [|reflexivity].
  destruct (cmp b a) eqn:Hba.
  - rewrite <- Hbc. symmetry. eapply Htr; eauto.
  - destruct (cmp c b) eqn:Hcb.
    + rewrite <- Hab. symmetry. eapply Htr; eauto.
    + destruct (Heq a b c Hab Hba Hbc Hcb) as [H _]. rewrite <- H. auto.
Qed.

Lemma insert_before_sorted x l :
  sorted_by cmp l -> sorted_by cmp (insert_before cmp x l).
Proof.
  unfold sorted_by. induction 1 as [|y l Hl IH Hy]; simpl.
  - constructor; constructor.
  - destruct (cmp y x) eqn:Hyx.
    + constructor; [exact IH|]. rewrite insert_before_perm.
      constructor; [apply swo_asym; exact Hyx|exact Hy].
    + constructor; [constructor; assumption|].
      constructor; [exact Hyx|].
      eapply Forall_impl; [exact Hy|]. intros z Hz. simpl in Hz.
      eapply swo_not_below; eauto.
Qed.

Lemma sort_keeping_ties_sorted l : sorted_by cmp (sort_keeping_ties cmp l).
Proof.
  induction l as [|x l IH]; simpl; [constructor|].
  apply insert_before_sorted. exact IH.
Qed.

End Insertion.

(** A sort that keeps equivalent elements in their order; it is an
    admissible implementation of [std::sort]. *)
Definition stable_sort : StdSort :=
  mkStdSort (@sort_keeping_ties) (@sort_keeping_ties_perm)
            (fun A cmp l H => sort_keeping_ties_sorted cmp H l).

(** ** The [std::sort] of libstdc++ meets the contract of [std::sort] *)

Module LibstdcxxProofs.
Import Libstdcxx.

Section Permutes.
Context {A : Type} (comp : A -> A -> bool).
Local Open Scope nat_scope.

Lemma iter_swap_perm (arr : list A) i j : iter_swap arr i j ≡ₚ arr.
Proof.
  unfold iter_swap. destruct (arr !! i) as [x|] eqn:Hi; [|reflexivity].
  destruct (arr !! j) as [y|] eqn:Hj; [|reflexivity].
  apply Permutation_insert_swap; assumption.
Qed.

Lemma move_median_to_first_perm (arr : list A) r a b c :
  move_median_to_first comp arr r a b c ≡ₚ arr.
Proof.
  unfold move_median_to_first.
  repeat match goal with |- context [if ?x then _ else _] => destruct x end;
    apply iter_swap_perm.
Qed.

Lemma unguarded_partition_perm fuel : forall (arr : list A) first last pivot,
  (unguarded_partition comp fuel arr first last pivot).1 ≡ₚ arr.
Proof.
  induction fuel as [|fuel IH]; intros arr first last pivot; [reflexivity|].
  simpl. destruct (negb _); [reflexivity|].
  rewrite IH. apply iter_swap_perm.
Qed.

Lemma unguarded_partition_pivot_perm (l : list A) :
  (unguarded_partition_pivot comp l).1 ≡ₚ l.
Proof.
  unfold unguarded_partition_pivot.
  rewrite unguarded_partition_perm. apply move_median_to_first_perm.
Qed.

(** Moving an element into the hole moves the hole: with the value
    held aside put into the hole, the elements are the same before and
    after. *)
Lemma hole_moves (arr : list A) h c x v :
  (h < length arr)%nat -> arr !! c = Some x ->
  <[c := v]> (<[h := x]> arr) ≡ₚ <[h := v]> arr.
Proof.
  intros Hh Hc. destruct (decide (c = h)) as [->|Hne].
  - rewrite list_insert_insert_eq. reflexivity.
  - assert (Heq : <[c := v]> (<[h := x]> arr) = <[c := v]> (<[h := x]> (<[h := v]> arr))).
    { rewrite list_insert_insert_eq. reflexivity. }
    rewrite Heq. apply Permutation_insert_swap.
    + apply list_lookup_insert_eq. exact Hh.
    + rewrite list_lookup_insert_ne by congruence. exact Hc.
Qed.

Lemma move_hole (arr : list A) h c v :
  (h < length arr)%nat -> (c < length arr)%nat ->
  length (move arr h c) = length arr
  /\ <[c := v]> (move arr h c) ≡ₚ <[h := v]> arr.
Proof.
  intros Hh Hc. unfold move.
  destruct (lookup_lt_is_Some_2 arr c Hc) as [x Hx]. rewrite Hx.
  split; [apply length_insert|]. apply hole_moves; assumption.
Qed.

Lemma push_heap_step fuel (arr : list A) h top v :
  push_heap comp (S fuel) arr h top v
  = if (top <? h)
       && match arr !! ((h - 1) / 2) with Some p => comp p v | None => false end
    then push_heap comp fuel (move arr h ((h - 1) / 2)) ((h - 1) / 2) top v
    else <[h := v]> arr.
Proof. reflexivity. Qed.

Lemma push_heap_perm fuel : forall (arr : list A) h top v,
  (h < length arr)%nat -> push_heap comp fuel arr h top v ≡ₚ <[h := v]> arr.
Proof.
  induction fuel as [|fuel IH]; intros arr h top v Hh; [reflexivity|].
  rewrite push_heap_step. destruct (_ && _); [|reflexivity].
  assert (Hp : ((h - 1) / 2 < length arr)%nat).
  { pose proof (Nat.Div0.div_le_upper_bound (h - 1) 2 h). lia. }
  destruct (move_hole arr h ((h - 1) / 2) v Hh Hp) as [Hlen Hperm].
  rewrite IH by (rewrite Hlen; exact Hp). exact Hperm.
Qed.


Lemma sift_down_step fuel (arr : list A) h sc len :
  sift_down comp (S fuel) arr h sc len
  = if sc <? (len - 1) / 2 then
      sift_down comp fuel
        (move arr h (if comp_at comp arr (2 * (sc + 1)) (2 * (sc + 1) - 1)
                     then 2 * (sc + 1) - 1 else 2 * (sc + 1)))
        (if comp_at comp arr (2 * (sc + 1)) (2 * (sc + 1) - 1)
         then 2 * (sc + 1) - 1 else 2 * (sc + 1))
        (if comp_at comp arr (2 * (sc + 1)) (2 * (sc + 1) - 1)
         then 2 * (sc + 1) - 1 else 2 * (sc + 1))
        len
    else (arr, h, sc).
Proof. reflexivity. Qed.

Lemma sift_down_perm fuel : forall (arr : list A) h sc len v,
  (h < length arr)%nat -> (len <= length arr)%nat ->
  length (sift_down comp fuel arr h sc len).1.1 = length arr
  /\ ((sift_down comp fuel arr h sc len).1.2 < length arr)%nat
  /\ <[(sift_down comp fuel arr h sc len).1.2 := v]> (sift_down comp fuel arr h sc len).1.1
     ≡ₚ <[h := v]> arr.
Proof.
  induction fuel as [|fuel IH]; intros arr h sc len v Hh Hlen; [simpl; auto|].
  rewrite sift_down_step. destruct (Nat.ltb_spec sc ((len - 1) / 2)) as [Hsc|Hsc];
    [|simpl; auto].
  assert (Hc : (2 * (sc + 1) < length arr)%nat).
  { pose proof (Nat.Div0.mul_div_le (len - 1) 2). lia. }
  set (c := if comp_at comp arr (2 * (sc + 1)) (2 * (sc + 1) - 1)
            then (2 * (sc + 1) - 1)%nat else (2 * (sc + 1))%nat).
  assert (Hc' : (c < length arr)%nat) by (unfold c; destruct (comp_at _ _ _ _); lia).
  destruct (move_hole arr h c v Hh Hc') as [Hl Hp].
  destruct (IH (move arr h c) c c len v) as (IHl & IHh & IHp); [lia|lia|].
  rewrite IHl, Hl. split; [reflexivity|]. split; [lia|].
  rewrite IHp. exact Hp.
Qed.

Lemma even_child (len child : nat) :
  Nat.even len && (Z.of_nat child =? Z.quot (Z.of_nat len - 2) 2)%Z = true ->
  (2 * (child + 1) = len)%nat.
Proof.
  intros H. apply andb_prop in H as [He Hq].
  apply Nat.even_spec in He as [k ->]. apply Z.eqb_eq in Hq.
  destruct k as [|k].
  - replace ((Z.of_nat (2 * 0) - 2) ÷ 2)%Z with (-1)%Z in Hq by reflexivity. lia.
  - replace (Z.of_nat (2 * S k) - 2)%Z with (Z.of_nat k * 2)%Z in Hq by lia.
    rewrite Z.quot_mul in Hq by lia. lia.
Qed.

Lemma adjust_heap_perm (arr : list A) h len v :
  (h < length arr)%nat -> (len <= length arr)%nat ->
  adjust_heap comp arr h len v ≡ₚ <[h := v]> arr.
Proof.
  intros Hh Hlen. unfold adjust_heap.
  destruct (sift_down_perm len arr h h len v Hh Hlen) as (Hl & Hh1 & Hp).
  destruct (sift_down comp len arr h h len) as [[arr1 hole1] child1].
  simpl in Hl, Hh1, Hp.
  destruct (Nat.even len && _) eqn:He.
  - apply even_child in He.
    destruct (move_hole arr1 hole1 (2 * (child1 + 1) - 1) v) as [Hl2 Hp2]; [lia|lia|].
    rewrite push_heap_perm by lia. rewrite Hp2. exact Hp.
  - rewrite push_heap_perm by lia. exact Hp.
Qed.

Lemma pop_heap_perm (arr : list A) last result :
  (last <= length arr)%nat -> pop_heap comp arr last result ≡ₚ arr.
Proof.
  intros Hlast. unfold pop_heap.
  destruct (arr !! result) as [value|] eqn:Hr; [|reflexivity].
  assert (Hres : (result < length arr)%nat) by (eapply lookup_lt_Some; exact Hr).
  assert (H0 : (0 < length arr)%nat) by lia.
  destruct (lookup_lt_is_Some_2 arr 0 H0) as [x0 Hx0].
  unfold move. rewrite Hx0.
  rewrite adjust_heap_perm by (rewrite length_insert; lia).
  destruct (decide (result = 0%nat)) as [->|Hne].
  - rewrite list_insert_insert_eq. rewrite list_insert_id by exact Hr. reflexivity.
  - apply Permutation_insert_swap; assumption.
Qed.

Lemma make_heap_from_perm parent : forall (arr : list A) len,
  (len <= length arr)%nat -> make_heap_from comp parent arr len ≡ₚ arr.
Proof.
  induction parent as [|parent IH]; intros arr len Hlen.
  - simpl. destruct (arr !! 0%nat) as [value|] eqn:H0; [|reflexivity].
    rewrite adjust_heap_perm by (try (eapply lookup_lt_Some; exact H0); exact Hlen).
    rewrite list_insert_id by exact H0. reflexivity.
  - cbn [make_heap_from].
    assert (Hstep : match arr !! S parent with
                    | Some value => adjust_heap comp arr (S parent) len value
                    | None => arr
                    end ≡ₚ arr).
    { destruct (arr !! S parent) as [value|] eqn:Hp; [|reflexivity].
      rewrite adjust_heap_perm by (try (eapply lookup_lt_Some; exact Hp); exact Hlen).
      rewrite list_insert_id by exact Hp. reflexivity. }
    rewrite IH; [exact Hstep|]. rewrite (Permutation_length Hstep). exact Hlen.
Qed.

Lemma make_heap_perm (arr : list A) : make_heap comp arr ≡ₚ arr.
Proof.
  unfold make_heap. destruct (_ <? 2); [reflexivity|].
  apply make_heap_from_perm. lia.
Qed.

Lemma sort_heap_perm last : forall (arr : list A),
  (last <= length arr)%nat -> sort_heap comp last arr ≡ₚ arr.
Proof.
  induction last as [|last IH]; intros arr Hlast; [reflexivity|].
  cbn [sort_heap]. destruct (1 <? S last); [|reflexivity].
  assert (Hpop : pop_heap comp arr last last ≡ₚ arr) by (apply pop_heap_perm; lia).
  rewrite IH; [exact Hpop|]. rewrite (Permutation_length Hpop). lia.
Qed.

Lemma partial_sort_perm (l : list A) : partial_sort comp l ≡ₚ l.
Proof.
  unfold partial_sort. rewrite sort_heap_perm.
  - apply make_heap_perm.
  - rewrite (Permutation_length (make_heap_perm l)). lia.
Qed.

Lemma introsort_loop_perm depth : forall l : list A, introsort_loop comp depth l ≡ₚ l.
Proof.
  induction depth as [|depth IH]; intros l; cbn [introsort_loop];
    destruct (S_threshold <? length l); try reflexivity.
  - apply partial_sort_perm.
  - pose proof (unguarded_partition_pivot_perm l) as Hp.
    destruct (unguarded_partition_pivot comp l) as [l1 cut]. simpl in Hp.
    rewrite !IH, take_drop. exact Hp.
Qed.

Lemma linear_insert_rev_perm val (rp : list A) :
  linear_insert_rev comp val rp ≡ₚ val :: rp.
Proof.
  induction rp as [|x rp IH]; simpl; [reflexivity|].
  destruct (comp val x); [|reflexivity]. rewrite IH. apply Permutation_swap.
Qed.

Lemma unguarded_linear_insert_perm (prefix : list A) val :
  unguarded_linear_insert comp prefix val ≡ₚ prefix ++ [val].
Proof.
  unfold unguarded_linear_insert.
  rewrite <- Permutation_rev, linear_insert_rev_perm, <- Permutation_rev.
  apply Permutation_cons_append.
Qed.

Lemma insertion_step_perm (prefix : list A) val :
  insertion_step comp prefix val ≡ₚ prefix ++ [val].
Proof.
  unfold insertion_step. destruct prefix as [|x0 rest]; [reflexivity|].
  destruct (comp val x0).
  - apply Permutation_cons_append.
  - apply unguarded_linear_insert_perm.
Qed.

Lemma fold_left_perm (f : list A -> A -> list A) :
  (forall p v, f p v ≡ₚ p ++ [v]) ->
  forall rest p, fold_left f rest p ≡ₚ p ++ rest.
Proof.
  intros Hf. induction rest as [|v rest IH]; intros p; simpl.
  - rewrite app_nil_r. reflexivity.
  - rewrite IH, Hf, <- app_assoc. reflexivity.
Qed.

Lemma insertion_sort_perm (l : list A) : insertion_sort comp l ≡ₚ l.
Proof.
  destruct l as [|x rest]; [reflexivity|]. unfold insertion_sort.
  rewrite (fold_left_perm _ (insertion_step_perm)). reflexivity.
Qed.

Lemma final_insertion_sort_perm (l : list A) : final_insertion_sort comp l ≡ₚ l.
Proof.
  unfold final_insertion_sort, unguarded_insertion_sort.
  destruct (S_threshold <? length l); [|apply insertion_sort_perm].
  rewrite (fold_left_perm _ (unguarded_linear_insert_perm)), insertion_sort_perm.
  rewrite take_drop. reflexivity.
Qed.

Lemma sort_perm (l : list A) : sort comp l ≡ₚ l.
Proof.
  unfold sort. destruct l as [|x l]; [reflexivity|].
  rewrite final_insertion_sort_perm. apply introsort_loop_perm.
Qed.

End Permutes.

Section Sorts.
Context {A : Type} (comp : A -> A -> bool).
Hypothesis Hswo : strict_weak_order comp.
Local Open Scope nat_scope.

Lemma sorted_rev (R : A -> A -> Prop) (l : list A) :
  StronglySorted R l -> StronglySorted (fun a b => R b a) (rev l).
Proof.
  induction 1 as [|x l Hl IH Hx]; simpl; [constructor|].
  apply StronglySorted_app_2; [|exact IH|repeat constructor].
  intros a b Ha Hb. apply list_elem_of_singleton in Hb. subst b.
  rewrite Forall_forall in Hx. apply Hx.
  apply list_elem_of_In, in_rev, list_elem_of_In. exact Ha.
Qed.

(** The prefix read from its end: sorted when no element compares
    below one that comes later in this reading. *)
Lemma linear_insert_rev_sorted val (rp : list A) :
  StronglySorted (fun a b => comp a b = false) rp ->
  StronglySorted (fun a b => comp a b = false) (linear_insert_rev comp val rp).
Proof.
  induction 1 as [|x rp Hrp IH Hx]; simpl.
  - repeat constructor.
  - destruct (comp val x) eqn:Hvx.
    + constructor; [exact IH|]. rewrite linear_insert_rev_perm.
      constructor; [apply (swo_asym comp Hswo); exact Hvx|exact Hx].
    + constructor; [constructor; assumption|].
      constructor; [exact Hvx|].
      eapply Forall_impl; [exact Hx|]. intros z Hz. simpl in Hz.
      apply (swo_not_below comp Hswo val x z); assumption.
Qed.

Lemma unguarded_linear_insert_sorted (prefix : list A) val :
  sorted_by comp prefix -> sorted_by comp (unguarded_linear_insert comp prefix val).
Proof.
  unfold sorted_by, unguarded_linear_insert. intros Hs.
  apply (sorted_rev (fun a b => comp a b = false)).
  apply linear_insert_rev_sorted.
  apply (sorted_rev (fun a b => comp b a = false)). exact Hs.
Qed.

Lemma insertion_step_sorted (prefix : list A) val :
  sorted_by comp prefix -> sorted_by comp (insertion_step comp prefix val).
Proof.
  intros Hs. unfold insertion_step. destruct prefix as [|x0 rest].
  - repeat constructor.
  - destruct (comp val x0) eqn:Hv; [|apply unguarded_linear_insert_sorted; exact Hs].
    constructor; [exact Hs|].
    pose proof Hswo as (_ & Htr & _).
    apply StronglySorted_cons in Hs as [Hx0 Hrest].
    constructor; [apply (swo_asym comp Hswo); exact Hv|].
    eapply Forall_impl; [exact Hx0|]. intros z Hz. simpl in Hz.
    destruct (comp z val) eqn:Hzv; [|reflexivity].
    rewrite <- Hz. symmetry. eapply Htr; eauto.
Qed.

Lemma fold_left_sorted (f : list A -> A -> list A) :
  (forall p v, sorted_by comp p -> sorted_by comp (f p v)) ->
  forall rest p, sorted_by comp p -> sorted_by comp (fold_left f rest p).
Proof.
  intros Hf. induction rest as [|v rest IH]; intros p Hp; simpl; [exact Hp|].
  apply IH, Hf, Hp.
Qed.

Lemma insertion_sort_sorted (l : list A) : sorted_by comp (insertion_sort comp l).
Proof.
  destruct l as [|x rest]; [constructor|]. unfold insertion_sort.
  apply (fold_left_sorted _ insertion_step_sorted). repeat constructor.
Qed.

Lemma final_insertion_sort_sorted (l : list A) :
  sorted_by comp (final_insertion_sort comp l).
Proof.
  unfold final_insertion_sort, unguarded_insertion_sort.
  destruct (S_threshold <? length l); [|apply insertion_sort_sorted].
  apply (fold_left_sorted _ unguarded_linear_insert_sorted), insertion_sort_sorted.
Qed.

Lemma sort_sorted (l : list A) : sorted_by comp (sort comp l).
Proof.
  unfold sort. destruct l as [|x l]; [constructor|].
  apply final_insertion_sort_sorted.
Qed.

End Sorts.
(** *** The fuel of the loops is enough

    Each loop of the library that is modelled with fuel comes to its
    end by its own test before the fuel is used up: one more unit of
    fuel does not change what it computes.  The conditions are met
    where the loops are called: the scans start inside a range of the
    length given as fuel and the pivot, at position 0, does not compare
    below itself; the partition runs from 1 to the length; the hole of
    [push_heap] and the children of [sift_down] are inside the heap
    whose length is the fuel. *)
Section Fuel.
Context {A : Type} (comp : A -> A -> bool).
Local Open Scope nat_scope.

Lemma comp_at_outside (arr : list A) i j :
  length arr <= i -> comp_at comp arr i j = false.
Proof.
  intros Hi. unfold comp_at. rewrite (lookup_ge_None_2 arr i Hi). reflexivity.
Qed.

Lemma scan_up_enough fuel : forall (arr : list A) first pivot,
  length arr < first + fuel ->
  scan_up comp (S fuel) arr first pivot = scan_up comp fuel arr first pivot.
Proof.
  induction fuel as [|fuel IH]; intros arr first pivot Hlen.
  - simpl. rewrite comp_at_outside by lia. reflexivity.
  - change (scan_up comp (S (S fuel)) arr first pivot)
      with (if comp_at comp arr first pivot
            then scan_up comp (S fuel) arr (S first) pivot else first).
    change (scan_up comp (S fuel) arr first pivot)
      with (if comp_at comp arr first pivot
            then scan_up comp fuel arr (S first) pivot else first).
    destruct (comp_at comp arr first pivot); [|reflexivity]. apply IH. lia.
Qed.

Lemma scan_up_from fuel : forall (arr : list A) first pivot,
  first <= scan_up comp fuel arr first pivot.
Proof.
  induction fuel as [|fuel IH]; intros arr first pivot; simpl; [lia|].
  destruct (comp_at comp arr first pivot); [|lia].
  specialize (IH arr (S first) pivot). lia.
Qed.

Lemma scan_down_enough fuel : forall (arr : list A) last pivot,
  comp_at comp arr pivot 0 = false -> last < fuel ->
  scan_down comp (S fuel) arr last pivot = scan_down comp fuel arr last pivot.
Proof.
  induction fuel as [|fuel IH]; intros arr last pivot H0 Hlast; [lia|].
  change (scan_down comp (S (S fuel)) arr last pivot)
    with (if comp_at comp arr pivot last
          then scan_down comp (S fuel) arr (pred last) pivot else last).
  change (scan_down comp (S fuel) arr last pivot)
    with (if comp_at comp arr pivot last
          then scan_down comp fuel arr (pred last) pivot else last).
  destruct (comp_at comp arr pivot last) eqn:Hc; [|reflexivity].
  destruct last as [|last]; [congruence|]. apply IH; [exact H0|simpl; lia].
Qed.

Lemma scan_down_from fuel : forall (arr : list A) last pivot,
  scan_down comp fuel arr last pivot <= last.
Proof.
  induction fuel as [|fuel IH]; intros arr last pivot; simpl; [lia|].
  destruct (comp_at comp arr pivot last); [|lia].
  specialize (IH arr (pred last) pivot). lia.
Qed.

Lemma unguarded_partition_enough fuel : forall (arr : list A) first last pivot,
  last - first < fuel ->
  unguarded_partition comp (S fuel) arr first last pivot
  = unguarded_partition comp fuel arr first last pivot.
Proof.
  induction fuel as [|fuel IH]; intros arr first last pivot Hm; [lia|].
  change (unguarded_partition comp (S (S fuel)) arr first last pivot)
    with (let first1 := scan_up comp (length arr) arr first pivot in
          let last1 := scan_down comp (length arr) arr (pred last) pivot in
          if negb (first1 <? last1) then (arr, first1)
          else unguarded_partition comp (S fuel) (iter_swap arr first1 last1)
                                   (S first1) last1 pivot).
  change (unguarded_partition comp (S fuel) arr first last pivot)
    with (let first1 := scan_up comp (length arr) arr first pivot in
          let last1 := scan_down comp (length arr) arr (pred last) pivot in
          if negb (first1 <? last1) then (arr, first1)
          else unguarded_partition comp fuel (iter_swap arr first1 last1)
                                   (S first1) last1 pivot).
  cbv zeta.
  pose proof (scan_up_from (length arr) arr first pivot) as Hup.
  pose proof (scan_down_from (length arr) arr (pred last) pivot) as Hdown.
  destruct (Nat.ltb_spec (scan_up comp (length arr) arr first pivot)
                         (scan_down comp (length arr) arr (pred last) pivot));
    [|reflexivity].
  simpl negb. cbv iota. apply IH. lia.
Qed.

Lemma push_heap_enough fuel : forall (arr : list A) h top v,
  h < fuel ->
  push_heap comp (S fuel) arr h top v = push_heap comp fuel arr h top v.
Proof.
  induction fuel as [|fuel IH]; intros arr h top v Hh; [lia|].
  rewrite (push_heap_step comp (S fuel) arr h top v), (push_heap_step comp fuel arr h top v).
  destruct (Nat.ltb_spec top h) as [Hth|Hth]; [|reflexivity].
  destruct (match arr !! ((h - 1) / 2) with Some p => comp p v | None => false end);
    [|reflexivity].
  simpl andb. cbv iota. apply IH.
  pose proof (Nat.Div0.div_le_upper_bound (h - 1) 2 (h - 1)). lia.
Qed.

Lemma sift_down_enough fuel : forall (arr : list A) h sc len,
  (len - 1) / 2 <= sc + fuel ->
  sift_down comp (S fuel) arr h sc len = sift_down comp fuel arr h sc len.
Proof.
  induction fuel as [|fuel IH]; intros arr h sc len Hm.
  - rewrite sift_down_step. destruct (Nat.ltb_spec sc ((len - 1) / 2)); [lia|reflexivity].
  - rewrite (sift_down_step comp (S fuel) arr h sc len), (sift_down_step comp fuel arr h sc len).
    destruct (Nat.ltb_spec sc ((len - 1) / 2)); [|reflexivity].
    apply IH. destruct (comp_at comp arr (2 * (sc + 1)) (2 * (sc + 1) - 1)); lia.
Qed.

End Fuel.

End LibstdcxxProofs.

(** Two runs of the library code on keys with ties, each key paired
    with its position before the sort: [std::sort] with the comparator
    [a.first > b.first] on twenty elements, and the heap sort of
    [std::partial_sort] with [a.first < b.first] on nine. *)
Definition keyed (keys : list Z) : list (Z * nat) := zip keys (seq 0 (length keys)).

Example sort_twenty_keys :
  snd <$> Libstdcxx.sort (fun a b : Z * nat => b.1 <? a.1)
            (keyed [3; 1; 2; 3; 1; 2; 3; 3; 0; 2; 2; 1; 0; 3; 1; 2; 0; 1; 3; 2])
  = [18; 3; 13; 6; 7; 0; 10; 19; 15; 9; 5; 2; 11; 14; 4; 17; 1; 8; 12; 16]%nat.
Proof. vm_compute. reflexivity. Qed.

Example heap_sort_nine_keys :
  snd <$> Libstdcxx.partial_sort (fun a b : Z * nat => a.1 <? b.1)
            (keyed [3; 1; 2; 3; 1; 2; 3; 3; 0])
  = [8; 1; 4; 5; 2; 3; 7; 0; 6]%nat.
Proof. vm_compute. reflexivity. Qed.

(** The [std::sort] the firmware is linked with. *)
Definition libstdcxx_sort : StdSort :=
  mkStdSort (@Libstdcxx.sort) (@LibstdcxxProofs.sort_perm)
            (fun A cmp l H => LibstdcxxProofs.sort_sorted cmp H l).

(** ** Event system *)

Module EventsProofs.
Import Events.

(** *** Delivery order *)

Lemma higher_priority_swo : strict_weak_order higher_priority.
Proof.
  unfold strict_weak_order, higher_priority. repeat split; intros *;
    rewrite ?Z.ltb_lt, ?Z.ltb_ge; lia.
Qed.





(** A batch of subscriptions, and the identifiers handed to those of
    one event type. *)
Definition subscription : Type := EventType * option EventCallback * Z * bool.

Fixpoint subscribe_all (S : StdSort) (s : EventSystem) (subs : list subscription)
  : list ListenerId * EventSystem :=
  match subs with
  | [] => ([], s)
  | (t, cb, prio, one) :: rest =>
      let '(i, s1) := subscribe S s t cb prio one in
      let '(ids, s2) := subscribe_all S s1 rest in
      (i :: ids, s2)
  end.





Definition quiet : EventCallback := fun _ => true.

(** Listeners of priority 5, subscribed one after the other to event
    type 1.  Up to sixteen of them stay in the order of subscription:
    [std::sort] leaves a range of at most sixteen elements to its
    insertion sort.  With the seventeenth the range is partitioned
    first, and the partition exchanges equivalent elements. *)
Definition tie_subs (n : nat) : list subscription :=
  replicate n (1, Some quiet, 5, false).

Definition tie_log (n : nat) : list EventListener :=
  (publishSync (subscribe_all libstdcxx_sort (initialize empty).2 (tie_subs n)).2
               (mkEvent 1 0 0 0 0)).2.

Example sixteen_ties_log :
  id <$> tie_log 16 = [1; 2; 3; 4; 5; 6; 7; 8; 9; 10; 11; 12; 13; 14; 15; 16].
Proof. vm_compute. reflexivity. Qed.

Example seventeen_ties_log :
  (fun l => (id l, priority l)) <$> tie_log 17
  = [(9, 5); (17, 5); (16, 5); (15, 5); (14, 5); (13, 5); (12, 5); (11, 5); (10, 5);
     (1, 5); (8, 5); (7, 5); (6, 5); (5, 5); (4, 5); (3, 5); (2, 5)].
Proof. vm_compute. reflexivity. Qed.


(** *** One-shot listeners *)

Definition is_subscribe (c : call) : bool :=
  match c with Subscribe _ _ _ _ => true | _ => false end.

Lemma run_without_subscribe S S' cs : forall s,
  forallb (fun c => negb (is_subscribe c)) cs = true ->
  run S s cs = run S' s cs.
Proof.
  induction cs as [|c cs IH]; intros s H; [reflexivity|].
  simpl in H. apply andb_prop in H as [Hc Hcs]. simpl.
  assert (Hstep : step S s c = step S' s c) by (destruct c; [discriminate Hc|reflexivity..]).
  rewrite Hstep. destruct (step S' s c) as [s1 log1]. rewrite (IH s1 Hcs). reflexivity.
Qed.

(** The first subscription to an event type does not depend on the
    sorting procedure: a list of one listener has one arrangement. *)
Lemma subscribe_first S S' s t cb prio one :
  m_listeners s !! t = None ->
  subscribe S s t cb prio one = subscribe S' s t cb prio one.
Proof.
  intros Hnone. unfold subscribe. destruct cb as [f|]; [|reflexivity].
  destruct (negb (m_initialized s)); [reflexivity|].
  rewrite Hnone. simpl.
  assert (Hone : forall (T : StdSort) (l : EventListener),
             std_sort T _ higher_priority [l] = [l]).
  { intros T l. apply Permutation_singleton_r, std_sort_perm. }
  rewrite !Hone. reflexivity.
Qed.

Definition invocations (lid : ListenerId) (log : list EventListener) : nat :=
  length (List.filter (fun l => id l =? lid) log).

Definition ev7 : EventData := mkEvent 7 0 0 0 0.

(** The one-shot listener gets identifier 1; the event is published
    twice, directly or through the queue. *)
Definition one_shot_sync : list call :=
  [Subscribe 7 (Some quiet) 100 true; PublishSync ev7; PublishSync ev7].

Definition one_shot_async : list call :=
  [Subscribe 7 (Some quiet) 100 true; PublishAsync ev7; PublishAsync ev7; ProcessEvents].

(** C3, at a failing input.  A listener subscribed with
    [oneShot = true] is invoked twice when its event type is published
    twice through [publishSync], and twice when two queued events of
    its type are drained by one [processEvents]: [cleanupListeners]
    runs only at the end of a [processEvents] batch. *)
Theorem one_shot_invoked_twice S :
  invocations 1 (run S (initialize empty).2 one_shot_sync).2 = 2%nat
  /\ invocations 1 (run S (initialize empty).2 one_shot_async).2 = 2%nat.
Proof.
  assert (H : forall rest,
             forallb (fun c => negb (is_subscribe c)) rest = true ->
             run S (initialize empty).2 (Subscribe 7 (Some quiet) 100 true :: rest)
             = run stable_sort (initialize empty).2
                   (Subscribe 7 (Some quiet) 100 true :: rest)).
  { intros rest Hrest. cbn [run step].
    rewrite (subscribe_first S stable_sort) by reflexivity.
    destruct (subscribe stable_sort _ _ _ _ _) as [i s1]. cbn [snd].
    rewrite (run_without_subscribe S stable_sort rest s1 Hrest). reflexivity. }
  unfold one_shot_sync, one_shot_async.
  rewrite !H by reflexivity. split; vm_compute; reflexivity.
Qed.

(** *** The queue of asynchronous events *)

Lemma publishSync_queue s ev :
  m_eventQueue (publishSync s ev).1.2 = m_eventQueue s.
Proof.
  unfold publishSync. destruct (negb (m_initialized s)); [reflexivity|].
  destruct (m_listeners s !! type ev) as [ls|]; [|reflexivity].
  destruct (notify ev ls) as [[ls' n] log]. reflexivity.
Qed.

Lemma publishAsync_queue s ev :
  Z.of_nat (length (m_eventQueue s)) <= OS_EVENT_QUEUE_SIZE ->
  Z.of_nat (length (m_eventQueue (publishAsync s ev).2)) <= OS_EVENT_QUEUE_SIZE.
Proof.
  intros H. unfold publishAsync. destruct (negb (m_initialized s)); [exact H|].
  destruct (OS_EVENT_QUEUE_SIZE <=? _) eqn:Hfull; [exact H|].
  apply Z.leb_gt in Hfull. simpl. rewrite length_app. simpl. lia.
Qed.

Lemma drain_queue budget : forall s,
  (length (m_eventQueue (drain budget s).1.2) <= length (m_eventQueue s))%nat.
Proof.
  induction budget as [|budget IH]; intros s; [simpl; lia|].
  simpl. destruct (m_eventQueue s) as [|ev rest] eqn:Hq; [simpl; rewrite Hq; simpl; lia|].
  match goal with |- context [publishSync ?p ev] =>
    pose proof (publishSync_queue p ev) as Hps;
    destruct (publishSync p ev) as [[n1 s1] log1] end.
  simpl in Hps.
  match goal with |- context [drain budget ?s2] =>
    pose proof (IH s2) as Hd; destruct (drain budget s2) as [[n3 s3] log3] end.
  simpl in *. rewrite Hps in Hd. lia.
Qed.

Lemma processEvents_queue s :
  (length (m_eventQueue (processEvents s).1.2) <= length (m_eventQueue s))%nat.
Proof.
  unfold processEvents. destruct (negb (m_initialized s)); [simpl; lia|].
  pose proof (drain_queue 10 s) as Hd.
  destruct (drain 10 s) as [[n s1] log]. simpl in *.
  destruct (0 <? n); simpl; exact Hd.
Qed.

Lemma step_queue S s c :
  getQueuedEventCount s <= OS_EVENT_QUEUE_SIZE ->
  getQueuedEventCount (step S s c).1 <= OS_EVENT_QUEUE_SIZE.
Proof.
  unfold getQueuedEventCount. intros H. destruct c as [t cb prio one|ev|ev|t d sz sender async now| |]; simpl.
  - unfold subscribe. destruct cb; [|exact H].
    destruct (negb (m_initialized s)); exact H.
  - pose proof (publishSync_queue s ev) as Hq.
    destruct (publishSync s ev) as [[n s1] log]. simpl in *. rewrite Hq. exact H.
  - apply publishAsync_queue. exact H.
  - unfold publish. destruct async.
    + pose proof (publishAsync_queue s (mkEvent t d sz now sender) H) as Hq.
      destruct (publishAsync s _) as [ok s1]. exact Hq.
    + pose proof (publishSync_queue s (mkEvent t d sz now sender)) as Hq.
      destruct (publishSync s _) as [[n s1] log]. simpl in *. rewrite Hq. exact H.
  - pose proof (processEvents_queue s) as Hq.
    destruct (processEvents s) as [[n s1] log]. simpl in *. lia.
  - unfold OS_EVENT_QUEUE_SIZE. lia.
Qed.

(** C9. In every state [publishAsync] rejects an event, and leaves the
    event system as it was, when the queue already holds
    [OS_EVENT_QUEUE_SIZE] events; and from a queue within capacity no
    sequence of calls (among them [publishAsync], [publish] and
    [processEvents]) makes the queue longer than that capacity. *)
Theorem async_queue_bounded S s :
  (forall ev, OS_EVENT_QUEUE_SIZE <= getQueuedEventCount s ->
              publishAsync s ev = (false, s))
  /\ (getQueuedEventCount s <= OS_EVENT_QUEUE_SIZE ->
      forall cs, getQueuedEventCount (run S s cs).1 <= OS_EVENT_QUEUE_SIZE).
Proof.
  split.
  - intros ev Hfull. unfold publishAsync, getQueuedEventCount in *.
    destruct (negb (m_initialized s)); [reflexivity|].
    destruct (OS_EVENT_QUEUE_SIZE <=? _) eqn:E; [reflexivity|].
    apply Z.leb_gt in E. lia.
  - intros H cs. revert s H. induction cs as [|c cs IH]; intros s H; [exact H|].
    simpl. pose proof (step_queue S s c H) as H1.
    destruct (step S s c) as [s1 log1]. simpl in H1.
    specialize (IH s1 H1). destruct (run S s1 cs) as [s2 log2]. exact IH.
Qed.

(** A full queue: 128 accepted events on the initialized system. *)
Definition full_queue : EventSystem :=
  (run stable_sort (initialize empty).2 (replicate 128 (PublishAsync ev7))).1.

Lemma async_queue_bounded_witness :
  publishAsync full_queue ev7 = (false, full_queue)
  /\ getQueuedEventCount
       (run stable_sort full_queue [PublishAsync ev7; ProcessEvents; PublishAsync ev7]).1
     <= OS_EVENT_QUEUE_SIZE.
Proof.
  destruct (async_queue_bounded stable_sort full_queue) as [Hrej Hbound].
  split.
  - apply Hrej. vm_compute. discriminate.
  - apply Hbound. vm_compute. discriminate.
Defined.

End EventsProofs.

(** ** Task scheduler *)

Module SchedProofs.
Import Sched.



(** What one pass over the tasks invokes: the due tasks among those
    the loop reached, in the order of the list; all of the list is
    reached unless the frame budget cuts the pass short. *)
Lemma run_due_log clock now start : forall ts s k,
  exists n : nat,
    (run_due clock now start s k ts).1.2 = List.filter (due now) (take n ts)
    /\ ((run_due clock now start s k ts).2 = false -> take n ts = ts).
Proof.
  induction ts as [|t ts IH]; intros s k.
  - exists 0%nat. split; reflexivity.
  - simpl. destruct (due now t) eqn:Hd.
    + assert (Hr : is_ready t = true)
        by (unfold due in Hd; apply andb_prop in Hd; apply Hd).
      unfold executeTask. rewrite Hr. simpl.
      destruct (16 <? _).
      * exists 1%nat. simpl. rewrite Hd. split; [reflexivity|discriminate].
      * match goal with |- context [run_due clock now start ?s1 ?k1 ts] =>
          destruct (IH s1 k1) as (n & Hlog & Hall);
          destruct (run_due clock now start s1 k1 ts) as [[[[rest' s2] k2] log2] cut]
        end.
        simpl in *. exists (Datatypes.S n). simpl. rewrite Hd, Hlog.
        split; [reflexivity|]. intros Hc. rewrite (Hall Hc). reflexivity.
    + destruct (IH s k) as (n & Hlog & Hall).
      destruct (run_due clock now start s k ts) as [[[[rest' s2] k2] log2] cut].
      simpl in *. exists (Datatypes.S n). simpl. rewrite Hd, Hlog.
      split; [reflexivity|]. intros Hc. rewrite (Hall Hc). reflexivity.
Qed.


Lemma update_log S clock s k dt :
  m_initialized s = true ->
  (update S clock s k dt).2 = (pass S clock s k).1.2.
Proof.
  intros Hi. unfold update. rewrite Hi. simpl.
  destruct (pass S clock s k) as [[[[tasks1 s1] k1] log] cut].
  destruct (updateCPULoad _ _ _) as [s2 k2]. reflexivity.
Qed.


(** A session for the theorem above: the clock advances by one
    millisecond per reading; a task of priority 1 is scheduled before a
    task of priority 3, both without delay. *)
Definition tick_clock : Clock := fun n => Z.of_nat n.
Definition idle : TaskFunction := fun _ => true.

Definition two_tasks : TaskScheduler * nat :=
  let '(_, s0, k0) := initialize tick_clock empty 0 in
  let '(_, s1, k1) := scheduleOnce tick_clock s0 k0 (Some idle) 1 0 0 in
  let '(_, s2, k2) := scheduleOnce tick_clock s1 k1 (Some idle) 3 0 0 in
  (s2, k2).

Definition task_low : Task := mkTask 1 idle 1 READY 1 0 50 0 0 0 true.
Definition task_high : Task := mkTask 2 idle 3 READY 2 0 50 0 0 0 true.

Example two_tasks_log :
  id <$> (update stable_sort tick_clock two_tasks.1 two_tasks.2 16).2 = [2; 1].
Proof. vm_compute. reflexivity. Qed.


(** A session in which the frame budget cuts the pass short: every
    reading of the clock is 10 ms after the one before, and three
    tasks of priorities 1, 2 and 3 are scheduled without delay.  The
    [update] that follows reads 40 ms at its start; all three tasks are
    READY and due.  The task of priority 3 runs from 50 ms to 60 ms,
    the loop reads 70 ms, the frame has taken 30 ms, more than the 16
    it may, and the loop is left. *)
Definition slow_clock : Clock := fun n => 10 * Z.of_nat n.

Definition three_tasks : TaskScheduler * nat :=
  let '(_, s0, k0) := initialize slow_clock empty 0 in
  let '(_, s1, k1) := scheduleOnce slow_clock s0 k0 (Some idle) 1 0 0 in
  let '(_, s2, k2) := scheduleOnce slow_clock s1 k1 (Some idle) 2 0 0 in
  let '(_, s3, k3) := scheduleOnce slow_clock s2 k2 (Some idle) 3 0 0 in
  (s3, k3).

Definition slow_low : Task := mkTask 1 idle 1 READY 10 0 50 0 0 0 true.
Definition slow_mid : Task := mkTask 2 idle 2 READY 20 0 50 0 0 0 true.
Definition slow_high : Task := mkTask 3 idle 3 READY 30 0 50 0 0 0 true.

Example three_tasks_table :
  m_tasks three_tasks.1 = [slow_low; slow_mid; slow_high]
  /\ slow_clock three_tasks.2 = 40.
Proof. vm_compute. split; reflexivity. Qed.


(** The frame budget is exceeded by more than 16 ms only: with the
    clock advancing 4 ms per reading the frame has taken 12 ms after
    the first task, the loop goes on, and 24 ms after the second, where
    it stops; with 16 ms read after a task the loop goes on. *)
Definition clock_of (readings : list Z) : Clock := fun n => default 0 (readings !! n).

Example frame_budget_is_strict :
  id <$> (update libstdcxx_sort (fun n => 4 * Z.of_nat n)
                 (with_tasks three_tasks.1 [slow_low; slow_mid; slow_high]) 10 16).2
  = [3; 2]
  /\ id <$> (update libstdcxx_sort (clock_of [100; 100; 101; 116; 116; 117; 200; 200])
                    (with_tasks three_tasks.1 [slow_low; slow_mid; slow_high]) 0 16).2
     = [3; 2]
  /\ id <$> (update libstdcxx_sort (clock_of [100; 100; 101; 117; 116; 117; 200; 200])
                    (with_tasks three_tasks.1 [slow_low; slow_mid; slow_high]) 0 16).2
     = [3].
Proof. vm_compute. repeat split; reflexivity. Qed.

(** *** Deadlines *)

(** [update] invokes only tasks that are READY and whose
    [nextExecution] is not after the time read at the start of the
    call. *)
Lemma update_runs_only_due S clock s k dt t :
  t ∈ (update S clock s k dt).2 ->
  state t = READY /\ nextExecution t <= clock k.
Proof.
  unfold update. destruct (negb (m_initialized s)) eqn:Hi.
  { simpl. intros H. inversion H. }
  pose proof (run_due_log clock (clock k) (clock k)
                (std_sort S Task task_before (m_tasks s)) s (Datatypes.S k))
    as (n & Hlog & _).
  unfold pass.
  destruct (run_due _ _ _ _ _ _) as [[[[tasks1 s1] k1] log] cut].
  destruct (updateCPULoad _ _ _) as [s2 k2]. simpl in *. subst log.
  intros H. apply list_elem_of_In, List.filter_In in H as [_ Hd].
  unfold due, is_ready in Hd. apply andb_prop in Hd as [Hr Hn].
  apply Z.leb_le in Hn. split; [|exact Hn].
  destruct (state t); try discriminate Hr. reflexivity.
Qed.

(** A periodic task that has run is READY again with its
    [nextExecution] at the end of the run plus the period, as long as
    that sum is a [uint32_t]. *)
Lemma rearm_without_wrap clock s k t :
  state t = READY -> 0 < period t ->
  0 <= clock (Datatypes.S k) + period t < 2 ^ 32 ->
  nextExecution (executeTask clock s k t).1.1.1 = clock (Datatypes.S k) + period t.
Proof.
  intros Hs Hp Hfit. unfold executeTask, is_ready. rewrite Hs. simpl.
  apply Z.ltb_lt in Hp. rewrite Hp. apply wrap32_small. exact Hfit.
Qed.

Lemma pass_few_tasks S S' clock s k :
  (length (m_tasks s) <= 1)%nat -> pass S clock s k = pass S' clock s k.
Proof.
  intros Hlen. unfold pass.
  assert (Hsort : forall T : StdSort, std_sort T _ task_before (m_tasks s) = m_tasks s).
  { intros T. pose proof (std_sort_perm T _ task_before (m_tasks s)) as Hp.
    destruct (m_tasks s) as [|t [|t' ts]]; simpl in Hlen; [| |lia].
    - apply Permutation_nil_r. exact Hp.
    - apply Permutation_singleton_r. exact Hp. }
  rewrite !Hsort. reflexivity.
Qed.

Lemma update_few_tasks S S' clock s k dt :
  (length (m_tasks s) <= 1)%nat -> update S clock s k dt = update S' clock s k dt.
Proof.
  intros Hlen. unfold update. rewrite (pass_few_tasks S S' clock s k Hlen). reflexivity.
Qed.

(** The clock 296 ms before [uint32_t] wraps, one millisecond per
    reading, and a task of period 1000 ms scheduled without delay. *)
Definition late_clock : Clock := fun n => 4294967000 + Z.of_nat n.

Definition one_periodic : TaskScheduler * nat :=
  let '(_, s0, k0) := initialize late_clock empty 0 in
  let '(_, s1, k1) := schedulePeriodic late_clock s0 k0 (Some idle) 1000 2 0 0 in
  (s1, k1).

(** C5, at a failing input.  A task of period 1000 ms runs in an
    [update] that starts at time 4294967002 and ends its run at
    T = 4294967004.  Its [nextExecution] is re-armed to 708, not to a
    value of at least T + 1000, and the next [update], at time
    4294967007, runs the task again. *)
Theorem periodic_rearm_wraps S :
  let first := update S late_clock one_periodic.1 one_periodic.2 16 in
  let second := update S late_clock first.1.1.2 first.1.2 16 in
  id <$> first.2 = [1]
  /\ late_clock 4%nat = 4294967004
  /\ nextExecution <$> m_tasks first.1.1.2 = [708]
  /\ late_clock first.1.2 = 4294967007
  /\ id <$> second.2 = [1].
Proof.
  assert (H1 : update S late_clock one_periodic.1 one_periodic.2 16
               = update stable_sort late_clock one_periodic.1 one_periodic.2 16)
    by (apply update_few_tasks; vm_compute; lia).
  cbv zeta. rewrite H1.
  rewrite (update_few_tasks S stable_sort) by (vm_compute; lia).
  vm_compute. repeat split; reflexivity.
Qed.

End SchedProofs.

(** ** Application manager *)

Module AppsProofs.
Import AppManager.

Lemma find_insert_same {A} (k : string) (v : A) m :
  StrMap.find k (StrMap.insert k v m) = Some v.
Proof.
  induction m as [|[k' v'] m IH]; simpl.
  - rewrite String.eqb_refl. reflexivity.
  - destruct (String.compare k k') eqn:Hc; simpl.
    + rewrite String.eqb_refl. reflexivity.
    + rewrite String.eqb_refl. reflexivity.
    + destruct (String.eqb k k') eqn:He; [|exact IH].
      apply String.eqb_eq in He. subst k'.
      pose proof (String.compare_antisym k k) as Ha.
      rewrite Hc in Ha. discriminate Ha.
Qed.

Lemma find_insert_other {A} (k k' : string) (v : A) m :
  k' <> k -> StrMap.find k' (StrMap.insert k v m) = StrMap.find k' m.
Proof.
  intros Hne. induction m as [|[k0 v0] m IH]; simpl.
  - apply String.eqb_neq in Hne. rewrite Hne. reflexivity.
  - destruct (String.compare k k0) eqn:Hc; simpl.
    + apply String.compare_eq_iff in Hc. subst k0.
      apply String.eqb_neq in Hne. rewrite Hne. reflexivity.
    + apply String.eqb_neq in Hne. rewrite Hne. reflexivity.
    + rewrite IH. reflexivity.
Qed.

(** *** The concurrency ceiling *)

(** C7. On an initialized manager, for a non-empty id that is not
    running, [launchApp] returns [OS_ERROR_BUSY] when the number of
    running instances has reached [m_maxConcurrentApps]; the manager
    (running instances, foreground id and all the rest) is as before
    and nothing is published. *)
Theorem launch_at_ceiling s appId now :
  m_initialized s = true -> appId <> "" ->
  isAppRunning s appId = false ->
  m_maxConcurrentApps s <= StrMap.size (m_runningApps s) ->
  launchApp s appId now = (OS_ERROR_BUSY, s, []).
Proof.
  intros Hi Hid Hrun Hfull. unfold launchApp.
  rewrite Hi. apply String.eqb_neq in Hid. rewrite Hid. simpl.
  rewrite Hrun. apply Z.leb_le in Hfull. rewrite Hfull. reflexivity.
Qed.

(** Applications that do nothing of their own. *)
Definition plain : BaseApp.Impl :=
  BaseApp.mkImpl (fun f => (OS_OK, f)) (fun _ f => (Some OS_OK, f))
                 (fun f => (OS_OK, f)) (fun f => (OS_OK, f)).

Definition factory_of (appId : string) : AppFactory :=
  fun _ => Some (BaseApp.new appId appId "1.0" plain).

(** The scenario of the specification: "calc" and "clock" registered,
    ceiling 1, "calc" launched. *)
Definition calc_running : AppManager.t :=
  let s0 := (initialize empty 0).2 in
  let s1 := (registerApp s0 "calc" (Some (factory_of "calc"))).2 in
  let s2 := (registerApp s1 "clock" (Some (factory_of "clock"))).2 in
  let s3 := setMaxConcurrentApps s2 1 in
  (launchApp s3 "calc" 10).1.2.

Example calc_is_foreground : m_currentAppId calc_running = "calc".
Proof. vm_compute. reflexivity. Qed.

Lemma launch_at_ceiling_witness :
  launchApp calc_running "clock" 20 = (OS_ERROR_BUSY, calc_running, []).
Proof.
  apply launch_at_ceiling.
  - reflexivity.
  - discriminate.
  - reflexivity.
  - vm_compute. discriminate.
Defined.

(** *** Killing the foreground application *)

(** Three applications launched one after the other; each launch
    pauses the one in the foreground before it. *)
Definition three_launched : AppManager.t :=
  let s0 := (initialize empty 0).2 in
  let s1 := (registerApp s0 "calc" (Some (factory_of "calc"))).2 in
  let s2 := (registerApp s1 "clock" (Some (factory_of "clock"))).2 in
  let s3 := (registerApp s2 "notes" (Some (factory_of "notes"))).2 in
  let s4 := (launchApp s3 "calc" 10).1.2 in
  let s5 := (launchApp s4 "clock" 20).1.2 in
  (launchApp s5 "notes" 30).1.2.

Definition states (s : AppManager.t) : list (string * BaseApp.AppState) :=
  (fun e => (e.1, BaseApp.getState e.2)) <$> m_runningApps s.

Example three_launched_states :
  states three_launched
  = [("calc", BaseApp.PAUSED); ("clock", BaseApp.PAUSED); ("notes", BaseApp.RUNNING)]
  /\ m_currentAppId three_launched = "notes".
Proof. vm_compute. split; reflexivity. Qed.

(** C8, at a failing input.  "notes" is in the foreground and "calc"
    and "clock" remain in the map of running instances, paused by the
    launches that followed theirs.  [killApp "notes"] succeeds and
    removes "notes", but no remaining application becomes the
    foreground: [switchToApp] refuses "calc", the first in iteration
    order, because it is not RUNNING, and the foreground id stays
    empty. *)
Theorem kill_foreground_leaves_none :
  (killApp three_launched "notes").1.1 = OS_OK
  /\ states (killApp three_launched "notes").1.2
     = [("calc", BaseApp.PAUSED); ("clock", BaseApp.PAUSED)]
  /\ StrMap.first_key (m_runningApps (killApp three_launched "notes").1.2) = Some "calc"
  /\ m_currentAppId (killApp three_launched "notes").1.2 = "".
Proof. vm_compute. repeat split; reflexivity. Qed.

(** *** Launching and switching *)

Lemma start_running a now r a' evs :
  BaseApp.start a now = (r, a', evs) -> r = OS_OK /\ BaseApp.isRunning a' = true.
Proof.
  unfold BaseApp.start, BaseApp.resume, BaseApp.isRunning.
  destruct (BaseApp.getState a) eqn:Hs; intros [= <- <- <-];
    try (split; reflexivity).
  split; [reflexivity|]. rewrite Hs. reflexivity.
Qed.

Lemma pause_running a :
  BaseApp.isRunning a = true ->
  BaseApp.getState (BaseApp.pause a).1.2 = BaseApp.PAUSED.
Proof.
  unfold BaseApp.isRunning, BaseApp.pause.
  destruct (BaseApp.getState a); intros H; try discriminate H. reflexivity.
Qed.

Lemma running_not_paused a : BaseApp.isRunning a = true -> BaseApp.isPaused a = false.
Proof.
  unfold BaseApp.isRunning, BaseApp.isPaused.
  destruct (BaseApp.getState a); intros H; try discriminate H. reflexivity.
Qed.

(** [switchToApp] to a running application other than the current
    one. *)
Lemma switchToApp_running s appId app :
  m_initialized s = true -> appId <> "" ->
  getApp s appId = Some app -> BaseApp.isRunning app = true ->
  exists s' evs,
    switchToApp s appId = (OS_OK, s', evs)
    /\ m_currentAppId s' = appId
    /\ getApp s' appId = Some app
    /\ (forall prev,
          m_currentAppId s <> "" -> m_currentAppId s <> appId ->
          getApp s (m_currentAppId s) = Some prev ->
          BaseApp.isRunning prev = true ->
          exists prev', getApp s' (m_currentAppId s) = Some prev'
                        /\ BaseApp.getState prev' = BaseApp.PAUSED).
Proof.
  intros Hi Hid Happ Hrun. unfold switchToApp.
  rewrite Hi. apply String.eqb_neq in Hid. rewrite Hid. simpl.
  rewrite Happ, Hrun. simpl.
  destruct (String.eqb (m_currentAppId s) appId) eqn:Hcur.
  { apply String.eqb_eq in Hcur. exists s, []. repeat split; auto.
    intros prev _ Hne. contradiction. }
  apply String.eqb_neq in Hcur.
  destruct (String.eqb (m_currentAppId s) "") eqn:Hempty.
  { unfold getApp in Happ. rewrite Happ, (running_not_paused _ Hrun).
    eexists _, _. split; [reflexivity|]. simpl. repeat split; auto.
    intros prev Hne. apply String.eqb_eq in Hempty. contradiction. }
  destruct (getApp s (m_currentAppId s)) as [cur|] eqn:Hget.
  - destruct (BaseApp.isRunning cur) eqn:Hcr.
    + pose proof (pause_running cur Hcr) as Hp.
      destruct (BaseApp.pause cur) as [[rp paused] evs]. simpl in Hp.
      rewrite find_insert_other by congruence.
      unfold getApp in Happ. rewrite Happ, (running_not_paused _ Hrun).
      eexists _, _. split; [reflexivity|]. simpl. unfold getApp. simpl.
      rewrite find_insert_other by congruence.
      repeat split; auto.
      intros prev _ _ _ _. exists paused. rewrite find_insert_same. auto.
    + unfold getApp in Happ. rewrite Happ, (running_not_paused _ Hrun).
      eexists _, _. split; [reflexivity|]. simpl. repeat split; auto.
      intros prev _ _ [= <-] Hpr. congruence.
  - unfold getApp in Happ. rewrite Happ, (running_not_paused _ Hrun).
    eexists _, _. split; [reflexivity|]. simpl. repeat split; auto.
    intros prev _ _ Hprev. discriminate Hprev.
Qed.

(** C10. When [launchApp] of an application that was not running
    succeeds, the launched application is the current application and
    is RUNNING, and the application that was in the foreground before
    the call, if it was RUNNING, is PAUSED. *)
Theorem launch_makes_foreground s appId now s' evs :
  isAppRunning s appId = false ->
  launchApp s appId now = (OS_OK, s', evs) ->
  m_currentAppId s' = appId
  /\ isAppRunning s' appId = true
  /\ (forall prev,
        m_currentAppId s <> "" ->
        getApp s (m_currentAppId s) = Some prev ->
        BaseApp.isRunning prev = true ->
        exists prev', getApp s' (m_currentAppId s) = Some prev'
                      /\ BaseApp.getState prev' = BaseApp.PAUSED).
Proof.
  intros Hnot. unfold launchApp.
  destruct (m_initialized s) eqn:Hi; [|intros H; discriminate H].
  destruct (String.eqb appId "") eqn:Hid; [intros H; discriminate H|]. simpl.
  rewrite Hnot.
  destruct (_ <=? _); [intros H; discriminate H|].
  destruct (createApp s appId) as [app|]; [|intros H; discriminate H].
  destruct (BaseApp.initialize app) as [r1 app1].
  destruct r1; try (intros H; discriminate H).
  destruct (BaseApp.start app1 now) as [[r2 app2] evs2] eqn:Hstart.
  apply start_running in Hstart as [-> Hrun2].
  match goal with |- context [switchToApp ?x appId] => set (s1 := x) end.
  apply String.eqb_neq in Hid.
  destruct (switchToApp_running s1 appId app2) as (s2 & evs3 & Hsw & Hcur & Hget & Hprev).
  - reflexivity.
  - exact Hid.
  - unfold getApp, s1. simpl. apply find_insert_same.
  - exact Hrun2.
  - rewrite Hsw. intros [= <- <-].
    split; [exact Hcur|]. split; [unfold isAppRunning; rewrite Hget; exact Hrun2|].
    intros prev Hne Hp Hpr.
    assert (Hdiff : m_currentAppId s <> appId).
    { intros Heq. unfold isAppRunning in Hnot. rewrite <- Heq, Hp, Hpr in Hnot.
      discriminate Hnot. }
    apply (Hprev prev); try assumption.
    unfold getApp, s1. simpl. rewrite find_insert_other by exact Hdiff. exact Hp.
Qed.

Definition clock_launched : os_error_t * AppManager.t * list published :=
  launchApp (setMaxConcurrentApps calc_running 2) "clock" 20.

Lemma launch_makes_foreground_witness :
  m_currentAppId clock_launched.1.2 = "clock"
  /\ isAppRunning clock_launched.1.2 "clock" = true
  /\ (forall prev,
        m_currentAppId (setMaxConcurrentApps calc_running 2) <> "" ->
        getApp (setMaxConcurrentApps calc_running 2)
               (m_currentAppId (setMaxConcurrentApps calc_running 2)) = Some prev ->
        BaseApp.isRunning prev = true ->
        exists prev',
          getApp clock_launched.1.2
                 (m_currentAppId (setMaxConcurrentApps calc_running 2)) = Some prev'
          /\ BaseApp.getState prev' = BaseApp.PAUSED).
Proof.
  apply (launch_makes_foreground (setMaxConcurrentApps calc_running 2) "clock" 20
           clock_launched.1.2 clock_launched.2).
  - reflexivity.
  - reflexivity.
Defined.

(** *** What [killApp] does achieve

    When the first remaining application is RUNNING it becomes the
    foreground, and when none remains the foreground id is empty. *)

Lemma kill_foreground_switches s appId app k succ :
  m_initialized s = true -> appId <> "" ->
  m_currentAppId s = appId ->
  StrMap.find appId (m_runningApps s) = Some app ->
  StrMap.first_key (StrMap.erase appId (m_runningApps s)) = Some k ->
  k <> "" ->
  StrMap.find k (StrMap.erase appId (m_runningApps s)) = Some succ ->
  BaseApp.isRunning succ = true ->
  m_currentAppId (killApp s appId).1.2 = k.
Proof.
  intros Hi Hid Hcur Hfind Hfirst Hk Hsucc Hrun. unfold killApp.
  rewrite Hi. apply String.eqb_neq in Hid. rewrite Hid. simpl.
  rewrite Hfind. destruct (BaseApp.stop app) as [[r stopped] evs1].
  rewrite Hcur, String.eqb_refl. cbn [m_runningApps with_apps]. rewrite Hfirst.
  match goal with |- context [switchToApp ?x k] => set (s2 := x) end.
  destruct (switchToApp_running s2 k succ) as (s3 & evs3 & Hsw & Hcur3 & _).
  - reflexivity.
  - exact Hk.
  - exact Hsucc.
  - exact Hrun.
  - rewrite Hsw. exact Hcur3.
Qed.

Lemma kill_last_clears s appId app :
  m_initialized s = true -> appId <> "" ->
  m_currentAppId s = appId ->
  StrMap.find appId (m_runningApps s) = Some app ->
  StrMap.erase appId (m_runningApps s) = [] ->
  m_currentAppId (killApp s appId).1.2 = "".
Proof.
  intros Hi Hid Hcur Hfind Hnone. unfold killApp.
  rewrite Hi. apply String.eqb_neq in Hid. rewrite Hid. simpl.
  rewrite Hfind. destruct (BaseApp.stop app) as [[r stopped] evs1].
  rewrite Hcur, String.eqb_refl. cbn [m_runningApps with_apps].
  rewrite Hnone. reflexivity.
Qed.

End AppsProofs.

(** * Further properties of the memory manager *)

Module MemMgrExtra.
Import MemMgr MemMgrProofs.

Lemma reachable_inv s : reachable s -> Inv s.
Proof.
  intros (mems & cs & Hinit & Hok & ->).
  apply (run_tracks cs _ (initialize_inv mems Hinit) Hok).
Qed.

(** A property that every call keeps, on the states where the registry
    invariant holds, is kept by every sequence of calls. *)
Lemma run_keeps (P : MemoryManager -> Prop) :
  (forall s c, Inv s -> call_ok s c = true -> P s -> P (step s c).2) ->
  forall cs s, Inv s -> trace_ok s cs = true -> P s -> P (run s cs).2.
Proof.
  intros Hstep. induction cs as [|c cs IH]; intros s HI Hok HP; [exact HP|].
  simpl in Hok. apply andb_prop in Hok as [Hc Hok].
  pose proof (step_inv s c HI Hc) as HI1.
  pose proof (Hstep s c HI Hc HP) as HP1.
  specialize (IH _ HI1 Hok HP1). simpl.
  destruct (step s c) as [r s1]. simpl in *.
  destruct (run s1 cs) as [rs s2]. exact IH.
Qed.

Lemma allocate_fields s sz fl ln now heap q s' :
  allocate s sz fl ln now heap = (q, s') ->
  (q = 0 /\ m_activeBlocks s' = m_activeBlocks s
   /\ m_totalAllocated s' = m_totalAllocated s
   /\ m_peakAllocated s' = m_peakAllocated s
   /\ m_allocationCount s' = m_allocationCount s
   /\ m_deallocationCount s' = m_deallocationCount s)
  \/ (q <> 0 /\ m_initialized s = true
      /\ m_activeBlocks s' = m_activeBlocks s ++ [mkBlock q sz now fl ln true]
      /\ m_totalAllocated s' = wrap32 (m_totalAllocated s + sz)
      /\ m_peakAllocated s'
         = (if m_peakAllocated s <? wrap32 (m_totalAllocated s + sz)
            then wrap32 (m_totalAllocated s + sz) else m_peakAllocated s)
      /\ m_allocationCount s' = wrap32 (m_allocationCount s + 1)
      /\ m_deallocationCount s' = m_deallocationCount s
      /\ m_initialized s' = true).
Proof.
  unfold allocate.
  destruct (m_initialized s) eqn:Hi; simpl;
    [|intros [= <- <-]; left; repeat split; reflexivity].
  destruct (sz =? 0); [intros [= <- <-]; left; repeat split; reflexivity|].
  destruct (if sz <=? 1024 then _ else _) as [q1 pools1]. cbv beta iota zeta.
  match goal with |- context [if ?c then (0, _) else _] => destruct c eqn:Hq end.
  - intros [= <- <-]. left. repeat split; reflexivity.
  - intros [= <- <-]. right. apply Z.eqb_neq in Hq. repeat split; auto.
Qed.

Lemma deallocate_fields s q ok s' :
  deallocate s q = (ok, s') ->
  (ok = false /\ s' = s)
  \/ (ok = true /\ exists (k : nat) b,
        m_activeBlocks s !! k = Some b /\ ptr b = q
        /\ m_activeBlocks s' = delete k (m_activeBlocks s)
        /\ m_totalAllocated s' = wrap32 (m_totalAllocated s - size b)
        /\ m_peakAllocated s' = m_peakAllocated s
        /\ m_allocationCount s' = m_allocationCount s
        /\ m_deallocationCount s' = wrap32 (m_deallocationCount s + 1)).
Proof.
  unfold deallocate.
  destruct ((q =? 0) || negb (m_initialized s)); [intros [= <- <-]; left; auto|].
  unfold findBlock. destruct (list_find _ _) as [[k b]|] eqn:Hf;
    [|intros [= <- <-]; left; auto].
  apply list_find_Some in Hf as (Hk & Hq & _).
  destruct (pools_deallocate q (m_pools s)) as [r pools1].
  intros [= <- <-]. right. split; [reflexivity|].
  exists k, b. repeat split; auto.
Qed.

(** X1. After initialization and any sequence of [allocate] and
    [deallocate] calls, the allocation counter exceeds the
    deallocation counter by the number of active allocations (all
    three read as [uint32_t]). *)
Theorem counters_match_registry mems cs :
  wrap32 (m_allocationCount (run (initialize empty mems).2 cs).2
          - m_deallocationCount (run (initialize empty mems).2 cs).2)
  = wrap32 (getActiveAllocations (run (initialize empty mems).2 cs).2).
Proof.
  assert (Hgen : forall cs s,
             wrap32 (m_allocationCount s - m_deallocationCount s)
             = wrap32 (Z.of_nat (length (m_activeBlocks s))) ->
             wrap32 (m_allocationCount (run s cs).2 - m_deallocationCount (run s cs).2)
             = wrap32 (Z.of_nat (length (m_activeBlocks (run s cs).2)))).
  { clear. induction cs as [|c cs IH]; intros s H; [exact H|].
    simpl. destruct (step s c) as [r s1] eqn:Hstep.
    assert (H1 : wrap32 (m_allocationCount s1 - m_deallocationCount s1)
                 = wrap32 (Z.of_nat (length (m_activeBlocks s1)))).
    { destruct c as [sz fl ln now heap|q]; simpl in Hstep.
      - destruct (allocate s sz fl ln now heap) as [q s1'] eqn:Ha.
        inversion Hstep; subst r s1'.
        apply allocate_fields in Ha
          as [(_ & Hb & _ & _ & Hac & Hdc)|(_ & _ & Hb & _ & _ & Hac & Hdc & _)];
          rewrite Hb, Hac, Hdc; [exact H|].
        rewrite length_app. simpl. unfold wrap32 in *.
        rewrite Zminus_mod_idemp_l.
        replace (m_allocationCount s + 1 - m_deallocationCount s)
          with ((m_allocationCount s - m_deallocationCount s) + 1) by lia.
        rewrite <- Zplus_mod_idemp_l, H, Zplus_mod_idemp_l. f_equal. lia.
      - destruct (deallocate s q) as [ok s1'] eqn:Hd.
        inversion Hstep; subst r s1'.
        apply deallocate_fields in Hd
          as [[_ ->]|(_ & k & b & Hk & _ & Hb & _ & _ & Hac & Hdc)]; [exact H|].
        rewrite Hb, Hac, Hdc.
        pose proof (lookup_lt_Some _ _ _ Hk) as Hlt.
        rewrite length_delete by eauto.
        unfold wrap32 in *. rewrite Zminus_mod_idemp_r.
        replace (m_allocationCount s - (m_deallocationCount s + 1))
          with ((m_allocationCount s - m_deallocationCount s) - 1) by lia.
        rewrite <- Zminus_mod_idemp_l, H, Zminus_mod_idemp_l. f_equal. lia. }
    specialize (IH s1 H1). destruct (run s1 cs) as [rs s2]. exact IH. }
  unfold getActiveAllocations. apply Hgen.
  destruct mems as [[[a b] c] d]. reflexivity.
Qed.

Lemma demo_reachable : reachable demo_state.
Proof.
  exists demo_mems, demo_calls. split; [reflexivity|]. split; [|reflexivity].
  vm_compute. reflexivity.
Qed.

Lemma inv_total_range s : Inv s -> 0 <= m_totalAllocated s < 2 ^ 32.
Proof.
  intros HI. rewrite (inv_total _ HI).
  pose proof (tracked_bytes_fit _ (inv_blocks _ HI) (inv_apart _ HI)).
  pose proof (total_length_nonneg _ (inv_blocks _ HI)). lia.
Qed.

Lemma step_total_peak s c :
  Inv s -> call_ok s c = true ->
  m_peakAllocated s <= m_peakAllocated (step s c).2
  /\ (m_totalAllocated s <= m_peakAllocated s ->
      m_totalAllocated (step s c).2 <= m_peakAllocated (step s c).2).
Proof.
  intros HI Hc. destruct c as [sz fl ln now heap|q]; simpl.
  - destruct (allocate s sz fl ln now heap) as [q s1] eqn:Ha. simpl.
    apply allocate_fields in Ha
      as [(_ & _ & Ht & Hp & _)|(_ & _ & _ & Ht & Hp & _)]; rewrite Ht, Hp.
    + split; [lia|auto].
    + destruct (Z.ltb_spec (m_peakAllocated s) (wrap32 (m_totalAllocated s + sz)));
        split; lia.
  - destruct (deallocate s q) as [ok s1] eqn:Hd. simpl.
    pose proof (deallocate_inv _ _ _ _ HI Hd) as [HI1 _].
    apply deallocate_fields in Hd
      as [[_ ->]|(_ & k & b & Hk & _ & Hb & Ht & Hp & _)]; [split; [lia|auto]|].
    rewrite Hp. split; [lia|]. intros Hle.
    rewrite (inv_total _ HI1), Hb, (total_length_delete _ _ _ Hk), <- (inv_total _ HI).
    pose proof (inv_blocks _ HI) as Hok.
    eapply Forall_lookup_1 in Hok; [|exact Hk]. destruct Hok as (_ & ? & _). lia.
Qed.

(** X2. In every state a client can bring about,
    [getPeakAllocated] is at least [getTotalAllocated], and no further
    call lowers it. *)
Theorem peak_bounds_total s :
  reachable s ->
  getTotalAllocated s <= getPeakAllocated s
  /\ forall c, call_ok s c = true ->
               getPeakAllocated s <= getPeakAllocated (step s c).2.
Proof.
  intros Hr. pose proof (reachable_inv s Hr) as HI. split.
  - destruct Hr as (mems & cs & Hinit & Hok & ->).
    apply (run_keeps (fun s => m_totalAllocated s <= m_peakAllocated s)).
    + intros s c HIs Hc. apply (step_total_peak s c HIs Hc).
    + apply initialize_inv. exact Hinit.
    + exact Hok.
    + destruct mems as [[[a b] c] d]. simpl. lia.
  - intros c Hc. apply (step_total_peak s c HI Hc).
Qed.

Lemma peak_bounds_total_witness :
  getTotalAllocated demo_state <= getPeakAllocated demo_state
  /\ forall c, call_ok demo_state c = true ->
               getPeakAllocated demo_state <= getPeakAllocated (step demo_state c).2.
Proof. apply peak_bounds_total. exact demo_reachable. Defined.



(** A pool block returned with [deallocateFromPool] while its record
    is still tracked: the record stays, the next [allocate] hands the
    block out again under a second record, and [deallocate] then
    erases the older of the two.  [allocateFromPool] can hand out the
    same block, and [deallocate] takes its address for the tracked
    one.  The two properties below are therefore about the states
    reached by [allocate] and [deallocate] calls alone. *)
Definition pool_mixed : MemoryManager :=
  (deallocateFromPool (allocate (initialize empty demo_mems).2 10 0 0 5 0).2 4096 0).2.

Example stale_record_after_pool_return :
  (fun b => (ptr b, size b, timestamp b)) <$> m_activeBlocks pool_mixed = [(4096, 10, 5)]
  /\ (allocate pool_mixed 10 0 0 6 0).1 = 4096
  /\ (fun b => (ptr b, size b, timestamp b))
       <$> m_activeBlocks (deallocate (allocate pool_mixed 10 0 0 6 0).2 4096).2
     = [(4096, 10, 6)]
  /\ (allocateFromPool pool_mixed 0).1 = 4096
  /\ (deallocate (allocateFromPool pool_mixed 0).2 4096).1 = true.
Proof. vm_compute. repeat split; reflexivity. Qed.

(** X4. In a state reached from the initialized manager by [allocate]
    and [deallocate] calls alone (no direct pool call), [deallocate]
    of the pointer a successful [allocate] has just returned succeeds
    and puts the registry of tracked blocks and the tracked total back
    to what they were before the [allocate]. *)
Theorem allocate_then_deallocate s sz fl ln now heap q s1 :
  reachable s -> call_ok s (Allocate sz fl ln now heap) = true ->
  allocate s sz fl ln now heap = (q, s1) -> q <> 0 ->
  (deallocate s1 q).1 = true
  /\ m_activeBlocks (deallocate s1 q).2 = m_activeBlocks s
  /\ getTotalAllocated (deallocate s1 q).2 = getTotalAllocated s.
Proof.
  intros Hr Hc Ha Hq. pose proof (reachable_inv s Hr) as HI.
  simpl in Hc. apply andb_prop in Hc as [Hc Hh]. apply andb_prop in Hc as [H0 H1].
  apply Z.leb_le in H0. apply Z.ltb_lt in H1.
  destruct (allocate_inv _ _ _ _ _ _ _ _ HI (conj H0 H1) Hh Ha)
    as [HI1 [[-> _]|(_ & Hb & Ht)]]; [contradiction|].
  apply allocate_fields in Ha as [(-> & _)|(_ & _ & _ & _ & _ & _ & _ & Hi1)];
    [contradiction|].
  set (b := mkBlock q sz now fl ln true) in *.
  assert (Hlast : m_activeBlocks s1 !! length (m_activeBlocks s) = Some b).
  { rewrite Hb. apply list_lookup_middle. reflexivity. }
  destruct (deallocate s1 q) as [ok s2] eqn:Hd.
  assert (Hok : ok = true).
  { unfold deallocate in Hd. apply Z.eqb_neq in Hq. rewrite Hq, Hi1 in Hd.
    simpl in Hd. unfold findBlock in Hd.
    destruct (list_find _ _) as [[k b']|] eqn:Hf.
    - destruct (pools_deallocate q (m_pools s1)). inversion Hd. reflexivity.
    - exfalso. apply list_find_None in Hf.
      eapply Forall_lookup_1 in Hf; [|exact Hlast]. apply Hf. reflexivity. }
  apply deallocate_fields in Hd
    as [[-> _]|(_ & k & b' & Hk & Hp & Hbl & Ht2 & _)]; [discriminate Hok|].
  assert (Hkeq : k = length (m_activeBlocks s)).
  { destruct (decide (k = length (m_activeBlocks s))) as [|Hne]; [assumption|].
    exfalso.
    apply (ptr_unique _ _ _ _ _ (inv_blocks _ HI1) (inv_apart _ HI1) Hk Hlast Hne).
    rewrite Hp. reflexivity. }
  subst k. rewrite Hlast in Hk. inversion Hk; subst b'.
  simpl. split; [exact Hok|]. split.
  - rewrite Hbl, Hb. rewrite delete_take_drop, take_app_length.
    rewrite drop_ge by (rewrite length_app; simpl; lia). apply app_nil_r.
  - unfold getTotalAllocated. rewrite Ht2, Ht. simpl.
    pose proof (inv_total_range _ HI). pose proof (inv_total_range _ HI1) as Hr1.
    rewrite Ht in Hr1.
    assert (Hw : wrap32 (m_totalAllocated s + sz) = m_totalAllocated s + sz).
    { pose proof (inv_total _ HI1) as Hi. rewrite Ht, Hb, fmap_app, total_length_app in Hi.
      rewrite Hi, (inv_total _ HI). simpl. lia. }
    rewrite Hw. replace (m_totalAllocated s + sz - sz) with (m_totalAllocated s) by lia.
    apply wrap32_small. lia.
Qed.

Lemma allocate_then_deallocate_witness :
  (deallocate (allocate demo_state 12 0 0 20 0).2 4112).1 = true
  /\ m_activeBlocks (deallocate (allocate demo_state 12 0 0 20 0).2 4112).2
     = m_activeBlocks demo_state
  /\ getTotalAllocated (deallocate (allocate demo_state 12 0 0 20 0).2 4112).2
     = getTotalAllocated demo_state.
Proof.
  apply (allocate_then_deallocate demo_state 12 0 0 20 0).
  - exact demo_reachable.
  - reflexivity.
  - reflexivity.
  - discriminate.
Defined.

(** ** Pools *)

Lemma pool_deallocate_free p q (j : nat) :
  pool_wf p -> 0 < m_memory p ->
  m_blockUsed p !! j = Some false ->
  q = m_memory p + Z.of_nat j * m_blockSize p ->
  pool_deallocate p q = (false, p).
Proof.
  intros Hwf Hm Hj ->. unfold pool_deallocate.
  destruct Hwf as [[H0 _]|(_ & Hbs & Hlen & _)]; [lia|].
  assert (Hjn : (j < length (m_blockUsed p))%nat) by (eapply lookup_lt_Some; eauto).
  replace (m_memory p + Z.of_nat j * m_blockSize p - m_memory p)
    with (Z.of_nat j * m_blockSize p) by lia.
  rewrite Z_mod_mult, Z_div_mult by lia.
  destruct (_ =? 0) eqn:Hq; [lia|].
  destruct (m_memory p =? 0) eqn:Hm0; [lia|]. simpl.
  destruct (_ <? m_memory p) eqn:Hlt; [nia|].
  destruct (m_totalBlocks p <=? Z.of_nat j) eqn:Hidx; [lia|].
  rewrite Nat2Z.id, Hj. reflexivity.
Qed.

(** X5. A block handed out by [MemoryPool::allocate] can be returned
    to the pool exactly once: the first [MemoryPool::deallocate] of
    its address succeeds and restores the flags of the pool, the
    second is refused and changes nothing. *)
Theorem pool_block_returned_once p q p1 :
  pool_wf p -> pool_allocate p = (q, p1) -> q <> 0 ->
  (pool_deallocate p1 q).1 = true
  /\ m_blockUsed (pool_deallocate p1 q).2 = m_blockUsed p
  /\ pool_deallocate (pool_deallocate p1 q).2 q = (false, (pool_deallocate p1 q).2).
Proof.
  intros Hwf Ha Hq.
  destruct (pool_allocate_spec _ _ _ Hwf Ha) as [[-> _]|(j & Hm & Hj & -> & ->)];
    [contradiction|].
  assert (Hjn : (j < length (m_blockUsed p))%nat) by (eapply lookup_lt_Some; eauto).
  rewrite (pool_deallocate_used (set_used p j true _) _ j).
  - simpl. split; [reflexivity|]. split.
    + rewrite list_insert_insert_eq. apply list_insert_id. exact Hj.
    + apply (pool_deallocate_free _ _ j).
      * apply set_used_wf, set_used_wf. exact Hwf.
      * exact Hm.
      * simpl. apply list_lookup_insert_eq. rewrite length_insert. exact Hjn.
      * reflexivity.
  - apply set_used_wf. exact Hwf.
  - exact Hm.
  - simpl. apply list_lookup_insert_eq. exact Hjn.
  - reflexivity.
Qed.

Lemma pool_block_returned_once_witness :
  (pool_deallocate (pool_allocate (new_pool 16 64 4096)).2 4096).1 = true
  /\ m_blockUsed (pool_deallocate (pool_allocate (new_pool 16 64 4096)).2 4096).2
     = m_blockUsed (new_pool 16 64 4096)
  /\ pool_deallocate (pool_deallocate (pool_allocate (new_pool 16 64 4096)).2 4096).2 4096
     = (false, (pool_deallocate (pool_allocate (new_pool 16 64 4096)).2 4096).2).
Proof.
  apply (pool_block_returned_once (new_pool 16 64 4096) 4096).
  - right. vm_compute. repeat split; try reflexivity; discriminate.
  - reflexivity.
  - discriminate.
Defined.

Lemma unused_range (l : list bool) : 0 <= unused l <= Z.of_nat (length l).
Proof.
  unfold unused. pose proof (List.filter_length_le negb l). lia.
Qed.

Lemma unused_insert (l : list bool) (j : nat) (v : bool) :
  l !! j = Some (negb v) ->
  unused (<[j := v]> l) = unused l + (if v then -1 else 1).
Proof.
  unfold unused. revert j. induction l as [|u l IH]; intros j Hj;
    [rewrite lookup_nil in Hj; discriminate|].
  destruct j as [|j]; simpl in Hj.
  - inversion Hj; subst u. destruct v; simpl; lia.
  - specialize (IH j Hj). change (<[S j := v]> (u :: l)) with (u :: <[j := v]> l).
    simpl. destruct (negb u); simpl; lia.
Qed.

Lemma pool_deallocate_spec p q ok p' :
  pool_deallocate p q = (ok, p') ->
  (ok = false /\ p' = p)
  \/ (ok = true /\ exists j : nat,
        m_memory p <> 0 /\ m_blockUsed p !! j = Some true
        /\ p' = set_used p j false (wrap32 (m_freeBlocks p + 1))).
Proof.
  unfold pool_deallocate.
  destruct (q =? 0); [intros [= <- <-]; left; auto|].
  destruct (m_memory p =? 0) eqn:Hm0; [intros [= <- <-]; left; auto|].
  apply Z.eqb_neq in Hm0. simpl.
  destruct (q <? m_memory p); [intros [= <- <-]; left; auto|].
  destruct (negb _); [intros [= <- <-]; left; auto|].
  destruct (m_totalBlocks p <=? _); [intros [= <- <-]; left; auto|].
  destruct (m_blockUsed p !! _) as [[|]|] eqn:Hj; intros [= <- <-];
    [|left; auto..].
  right. split; [reflexivity|]. eexists. split; [exact Hm0|].
  split; [exact Hj|reflexivity].
Qed.

Lemma pools_deallocate_spec q pools : forall r pools',
  pools_deallocate q pools = (r, pools') ->
  pools' = pools
  \/ exists (i : nat) p (j : nat),
       pools !! i = Some p /\ m_memory p <> 0
       /\ m_blockUsed p !! j = Some true
       /\ pools' = <[i := set_used p j false (wrap32 (m_freeBlocks p + 1))]> pools.
Proof.
  induction pools as [|a ps IH]; intros r pools' H; simpl in H.
  - inversion H. left. reflexivity.
  - destruct (pool_deallocate a q) as [ok a'] eqn:Ha.
    apply pool_deallocate_spec in Ha as [[-> ->]|(-> & j & Hm & Hj & ->)].
    + destruct (pools_deallocate q ps) as [r' ps'] eqn:Hps.
      inversion H; subst r pools'.
      destruct (IH _ _ eq_refl) as [->|(i & p & j & Hi & Hm & Hj & ->)];
        [left; reflexivity|].
      right. exists (S i), p, j. auto.
    + inversion H; subst r pools'. right. exists 0%nat, a, j. auto.
Qed.

Definition counted (p : MemoryPool) : Prop :=
  m_freeBlocks p = unused (m_blockUsed p).

Lemma counted_insert pools (i : nat) p (j : nat) (v : bool) :
  Forall pool_wf pools -> Forall counted pools ->
  pools !! i = Some p -> m_memory p <> 0 ->
  m_blockUsed p !! j = Some (negb v) ->
  Forall counted
    (<[i := set_used p j v (wrap32 (m_freeBlocks p + (if v then -1 else 1)))]> pools).
Proof.
  intros Hwf Hc Hi Hmem Hj. apply Forall_insert; [exact Hc|].
  eapply Forall_lookup_1 in Hc; [|exact Hi].
  eapply Forall_lookup_1 in Hwf; [|exact Hi].
  unfold counted in *. simpl. rewrite (unused_insert _ _ _ Hj), <- Hc.
  pose proof (unused_range (m_blockUsed p)) as Hr. rewrite <- Hc in Hr.
  pose proof (unused_insert _ _ _ Hj) as Hu.
  pose proof (unused_range (<[j := v]> (m_blockUsed p))) as Hr'.
  rewrite length_insert, Hu, <- Hc in Hr'.
  apply wrap32_small.
  destruct Hwf as [[H0 _]|(Hm & Hbs & Hlen & Hsp)]; [contradiction|].
  assert (Z.of_nat (length (m_blockUsed p)) < 2 ^ 32) by nia.
  destruct v; lia.
Qed.

Lemma allocate_pools s sz fl ln now heap q s' :
  allocate s sz fl ln now heap = (q, s') ->
  m_pools s' = m_pools s \/ m_pools s' = (pools_allocate sz (m_pools s)).2.
Proof.
  unfold allocate.
  destruct (negb (m_initialized s) || (sz =? 0)); [intros [= <- <-]; left; reflexivity|].
  destruct (sz <=? 1024).
  - destruct (pools_allocate sz (m_pools s)) as [q1 pools1]. cbv beta iota zeta.
    match goal with |- context [if ?c then (0, _) else _] => destruct c end;
      intros [= <- <-]; right; reflexivity.
  - cbv beta iota zeta.
    match goal with |- context [if ?c then (0, _) else _] => destruct c end;
      intros [= <- <-]; left; reflexivity.
Qed.

Lemma deallocate_pools s q ok s' :
  deallocate s q = (ok, s') ->
  m_pools s' = m_pools s \/ m_pools s' = (pools_deallocate q (m_pools s)).2.
Proof.
  unfold deallocate.
  destruct ((q =? 0) || negb (m_initialized s)); [intros [= <- <-]; left; reflexivity|].
  destruct (findBlock s q) as [[k b]|]; [|intros [= <- <-]; left; reflexivity].
  destruct (pools_deallocate q (m_pools s)) as [r pools1].
  intros [= <- <-]. right. reflexivity.
Qed.

Lemma step_counted s c :
  Inv s -> Forall counted (m_pools s) -> Forall counted (m_pools (step s c).2).
Proof.
  intros HI Hc. pose proof (inv_pools _ HI) as Hwf.
  destruct c as [sz fl ln now heap|q]; simpl.
  - destruct (allocate s sz fl ln now heap) as [q s1] eqn:Ha. simpl.
    apply allocate_pools in Ha as [->| ->]; [exact Hc|].
    destruct (pools_allocate sz (m_pools s)) as [q1 pools1] eqn:Hpa. simpl.
    destruct (pools_allocate_spec _ _ _ _ Hwf Hpa)
      as [[_ ->]|(i & p & j & Hi & Hm & _ & Hj & _ & ->)]; [exact Hc|].
    apply (counted_insert (m_pools s) i p j true); auto. lia.
  - destruct (deallocate s q) as [ok s1] eqn:Hd. simpl.
    apply deallocate_pools in Hd as [->| ->]; [exact Hc|].
    destruct (pools_deallocate q (m_pools s)) as [r pools1] eqn:Hpd. simpl.
    destruct (pools_deallocate_spec _ _ _ _ Hpd)
      as [->|(i & p & j & Hi & Hm & Hj & ->)]; [exact Hc|].
    apply (counted_insert (m_pools s) i p j false); auto.
Qed.

(** X6. In every state a client can bring about, the free-block
    counter of each pool is exact: it equals the number of blocks of
    the pool not marked used. *)
Theorem free_blocks_exact s :
  reachable s ->
  Forall (fun p => m_freeBlocks p = unused (m_blockUsed p)) (m_pools s).
Proof.
  intros (mems & cs & Hinit & Hok & ->).
  apply (run_keeps (fun s => Forall counted (m_pools s))).
  - intros s c HI _. apply step_counted. exact HI.
  - apply initialize_inv. exact Hinit.
  - exact Hok.
  - destruct mems as [[[a b] c] d]. simpl. unfold new_pool.
    repeat (apply Forall_cons; split;
            [match goal with |- context [?m =? 0] => destruct (m =? 0) end; reflexivity|]).
    apply Forall_nil. exact I.
Qed.

Lemma free_blocks_exact_witness :
  Forall (fun p => m_freeBlocks p = unused (m_blockUsed p)) (m_pools demo_state).
Proof. apply free_blocks_exact. exact demo_reachable. Defined.

(** X7. In a state reached from the initialized manager by [allocate]
    and [deallocate] calls alone (no earlier direct pool call), a block
    taken with [allocateFromPool] is not tracked: the registry and the
    tracked total stay as they were, [deallocate] refuses its address
    and changes nothing, and [deallocateFromPool] on the same pool
    takes it back. *)
Theorem pool_block_is_untracked s poolIndex q s' :
  reachable s ->
  allocateFromPool s poolIndex = (q, s') -> q <> 0 ->
  m_activeBlocks s' = m_activeBlocks s
  /\ getTotalAllocated s' = getTotalAllocated s
  /\ deallocate s' q = (false, s')
  /\ (deallocateFromPool s' q poolIndex).1 = true.
Proof.
  intros Hr Ha Hq. pose proof (reachable_inv s Hr) as HI.
  pose proof (inv_pools _ HI) as Hwf.
  unfold allocateFromPool in Ha.
  destruct (m_initialized s) eqn:Hi; simpl in Ha; [|inversion Ha; congruence].
  destruct (Z.of_nat (length (m_pools s)) <=? poolIndex) eqn:Hlen;
    [inversion Ha; congruence|].
  destruct (m_pools s !! Z.to_nat poolIndex) as [p|] eqn:Hp; [|inversion Ha; congruence].
  destruct (pool_allocate p) as [q' p'] eqn:Hpa. inversion Ha; subst q' s'. clear Ha.
  assert (Hpwf : pool_wf p) by (eapply Forall_lookup_1; eauto).
  destruct (pool_allocate_spec _ _ _ Hpwf Hpa) as [[-> _]|(j & Hm & Hj & -> & ->)];
    [contradiction|].
  destruct (used_inside p j false Hpwf Hm Hj) as (Hbs & _).
  assert (Hjn : (j < length (m_blockUsed p))%nat) by (eapply lookup_lt_Some; eauto).
  assert (Hin : (Z.to_nat poolIndex < length (m_pools s))%nat)
    by (eapply lookup_lt_Some; eauto).
  split; [reflexivity|]. split; [reflexivity|]. split.
  - unfold deallocate.
    destruct ((_ =? 0) || negb _); [reflexivity|].
    unfold findBlock. destruct (list_find _ _) as [[k b]|] eqn:Hf; [|reflexivity].
    exfalso. apply list_find_Some in Hf as (Hk & Hptr & _). simpl in Hk.
    pose proof (free_block_apart (m_pools s) (Z.to_nat poolIndex) p j 1 b
                  Hwf (inv_regions _ HI) Hp Hm Hj) as Hd.
    assert (Hbok : block_ok b) by (eapply Forall_lookup_1; [apply (inv_blocks _ HI)|exact Hk]).
    assert (Hhome : homed (m_pools s) b)
      by (eapply Forall_lookup_1; [apply (inv_homed _ HI)|exact Hk]).
    specialize (Hd ltac:(lia) Hbok Hhome).
    destruct Hbok as (_ & ? & _). unfold disj, extent in Hd. simpl in Hd. lia.
  - unfold deallocateFromPool. apply Z.eqb_neq in Hq. rewrite Hq. simpl.
    rewrite Hi, length_insert, Hlen. simpl.
    rewrite list_lookup_insert_eq by exact Hin.
    rewrite (pool_deallocate_used _ _ j).
    + reflexivity.
    + apply set_used_wf. exact Hpwf.
    + exact Hm.
    + simpl. apply list_lookup_insert_eq. exact Hjn.
    + reflexivity.
Qed.

Lemma pool_block_is_untracked_witness :
  m_activeBlocks (allocateFromPool demo_state 1).2 = m_activeBlocks demo_state
  /\ getTotalAllocated (allocateFromPool demo_state 1).2 = getTotalAllocated demo_state
  /\ deallocate (allocateFromPool demo_state 1).2 8192
     = (false, (allocateFromPool demo_state 1).2)
  /\ (deallocateFromPool (allocateFromPool demo_state 1).2 8192 1).1 = true.
Proof.
  apply (pool_block_is_untracked demo_state 1 8192).
  - exact demo_reachable.
  - reflexivity.
  - discriminate.
Defined.

End MemMgrExtra.

(** * Further properties of the event system *)

Module EventsExtra.
Import Events EventsProofs.

(** ** Subscribing and unsubscribing *)

(** X8. On the initialized event system [subscribe] with a callback
    returns the next identifier and adds exactly one listener to the
    event type: the listeners of the type afterwards are those it had
    before, each as it was, and one new listener with the identifier
    returned, the callback, priority and one-shot flag given and a
    call count of zero, in descending order of priority.  This holds
    whatever the sorting procedure does with ties; the listeners of
    every other type and the queue are left as they were. *)
Theorem subscribe_adds_one S s t f prio one :
  m_initialized s = true ->
  (subscribe S s t (Some f) prio one).1 = wrap32 (m_nextListenerId s + 1)
  /\ findListeners (subscribe S s t (Some f) prio one).2 t
     ≡ₚ findListeners s t
        ++ [mkListener (wrap32 (m_nextListenerId s + 1)) t f prio one 0]
  /\ sorted_by higher_priority (findListeners (subscribe S s t (Some f) prio one).2 t)
  /\ getListenerCount (subscribe S s t (Some f) prio one).2 t
     = getListenerCount s t + 1
  /\ hasListeners (subscribe S s t (Some f) prio one).2 t = true
  /\ m_eventQueue (subscribe S s t (Some f) prio one).2 = m_eventQueue s
  /\ forall t', t' <> t ->
       findListeners (subscribe S s t (Some f) prio one).2 t' = findListeners s t'.
Proof.
  intros Hi. unfold subscribe. rewrite Hi. simpl.
  split; [reflexivity|].
  set (l := mkListener _ t f prio one 0).
  set (old := default [] (m_listeners s !! t)).
  pose proof (std_sort_perm S _ higher_priority (old ++ [l])) as Hp.
  assert (Hlen : length (std_sort S _ higher_priority (old ++ [l])) = Datatypes.S (length old)).
  { rewrite Hp, length_app. simpl. lia. }
  unfold getListenerCount, hasListeners, findListeners. simpl.
  rewrite lookup_insert_eq. simpl. fold old.
  split; [exact Hp|].
  split; [apply std_sort_sorted, higher_priority_swo|].
  split; [|split; [|split; [reflexivity|]]].
  - rewrite Hlen. unfold old. destruct (m_listeners s !! t); simpl; lia.
  - destruct (std_sort S _ higher_priority (old ++ [l])); [discriminate Hlen|reflexivity].
  - intros t' Hne. rewrite lookup_insert_ne by congruence. reflexivity.
Qed.

(** Listeners of priorities 5 and 9 for event type 7, and one for
    type 8. *)
Definition two_listeners : EventSystem :=
  (subscribe_all stable_sort (initialize empty).2
     [(7, Some quiet, 5, false); (7, Some quiet, 9, true); (8, Some quiet, 1, false)]).2.

Lemma subscribe_adds_one_witness :
  (subscribe libstdcxx_sort two_listeners 7 (Some quiet) 5 false).1
  = wrap32 (m_nextListenerId two_listeners + 1)
  /\ findListeners (subscribe libstdcxx_sort two_listeners 7 (Some quiet) 5 false).2 7
     ≡ₚ findListeners two_listeners 7
        ++ [mkListener (wrap32 (m_nextListenerId two_listeners + 1)) 7 quiet 5 false 0]
  /\ sorted_by higher_priority
       (findListeners (subscribe libstdcxx_sort two_listeners 7 (Some quiet) 5 false).2 7)
  /\ getListenerCount (subscribe libstdcxx_sort two_listeners 7 (Some quiet) 5 false).2 7
     = getListenerCount two_listeners 7 + 1
  /\ hasListeners (subscribe libstdcxx_sort two_listeners 7 (Some quiet) 5 false).2 7
     = true
  /\ m_eventQueue (subscribe libstdcxx_sort two_listeners 7 (Some quiet) 5 false).2
     = m_eventQueue two_listeners
  /\ forall t', t' <> 7 ->
       findListeners (subscribe libstdcxx_sort two_listeners 7 (Some quiet) 5 false).2 t'
       = findListeners two_listeners t'.
Proof. apply subscribe_adds_one. reflexivity. Defined.

Example subscribe_to_two_listeners :
  (fun l => (id l, priority l)) <$> findListeners two_listeners 7 = [(2, 9); (1, 5)]
  /\ (fun l => (id l, priority l))
       <$> findListeners (subscribe libstdcxx_sort two_listeners 7 (Some quiet) 5 false).2 7
     = [(2, 9); (1, 5); (4, 5)].
Proof. vm_compute. split; reflexivity. Qed.

(** X9. On the initialized event system [unsubscribeAll] returns the
    number of listeners the event type had; afterwards the type has no
    listeners, [publishSync] of an event of that type notifies nobody,
    and the listeners of every other type are as before. *)
Theorem unsubscribeAll_clears_type s t ev :
  m_initialized s = true -> type ev = t ->
  (unsubscribeAll s t).1 = getListenerCount s t
  /\ hasListeners (unsubscribeAll s t).2 t = false
  /\ publishSync (unsubscribeAll s t).2 ev = (0, (unsubscribeAll s t).2, [])
  /\ forall t', t' <> t ->
       findListeners (unsubscribeAll s t).2 t' = findListeners s t'.
Proof.
  intros Hi Ht. unfold unsubscribeAll, getListenerCount, hasListeners. rewrite Hi. simpl.
  destruct (m_listeners s !! t) as [ls|] eqn:Hl; simpl.
  - rewrite lookup_delete_eq. split; [reflexivity|]. split; [reflexivity|]. split.
    + unfold publishSync. simpl. rewrite Ht.
      rewrite lookup_delete_eq. reflexivity.
    + intros t' Hne. unfold findListeners. simpl.
      rewrite lookup_delete_ne by congruence. reflexivity.
  - rewrite Hl. split; [reflexivity|]. split; [reflexivity|]. split.
    + unfold publishSync. rewrite Hi, Ht, Hl. reflexivity.
    + intros t' _. reflexivity.
Qed.

Lemma unsubscribeAll_clears_type_witness :
  (unsubscribeAll two_listeners 7).1 = getListenerCount two_listeners 7
  /\ hasListeners (unsubscribeAll two_listeners 7).2 7 = false
  /\ publishSync (unsubscribeAll two_listeners 7).2 ev7
     = (0, (unsubscribeAll two_listeners 7).2, [])
  /\ forall t', t' <> 7 ->
       findListeners (unsubscribeAll two_listeners 7).2 t' = findListeners two_listeners t'.
Proof. apply unsubscribeAll_clears_type; reflexivity. Defined.

(** ** Synchronous delivery *)

(** A listener after one delivery of [ev]: its call count goes up when
    its callback returns and stays when it raises. *)
Definition delivered (ev : EventData) (l : EventListener) : EventListener :=
  if callback l ev
  then mkListener (id l) (eventType l) (callback l) (priority l) (oneShot l)
                  (wrap32 (callCount l + 1))
  else l.

Lemma notify_spec ev ls :
  notify ev ls
  = (delivered ev <$> ls,
     Z.of_nat (length (List.filter (fun l => callback l ev) ls)), ls).
Proof.
  induction ls as [|l ls IH]; [reflexivity|].
  simpl notify. rewrite IH. rewrite fmap_cons.
  simpl List.filter. destruct (callback l ev) eqn:Hc;
    unfold delivered; rewrite Hc; [|reflexivity].
  simpl length. f_equal. f_equal. lia.
Qed.

Lemma publishSync_listeners s ev :
  m_initialized s = true ->
  (publishSync s ev).1.1
  = wrap32 (Z.of_nat (length (List.filter (fun l => callback l ev)
                                          (findListeners s (type ev)))))
  /\ (publishSync s ev).2 = findListeners s (type ev)
  /\ findListeners (publishSync s ev).1.2 (type ev)
     = delivered ev <$> findListeners s (type ev)
  /\ forall t, t <> type ev ->
       findListeners (publishSync s ev).1.2 t = findListeners s t.
Proof.
  intros Hi. unfold publishSync, findListeners. rewrite Hi. simpl.
  destruct (m_listeners s !! type ev) as [ls|] eqn:Hl.
  - rewrite notify_spec. simpl. rewrite lookup_insert_eq. simpl.
    repeat split. intros t Hne. rewrite lookup_insert_ne by congruence. reflexivity.
  - simpl. rewrite Hl. repeat split.
Qed.

(** X10. On the initialized event system [publishSync] returns the
    number of listeners of the event's type whose callback returned; a
    callback that raises is not counted and does not stop the delivery
    to the listeners after it.  No listener is added or removed: the
    listeners of the event's type keep their place, those notified with
    their call count one higher, and the other types are untouched. *)
Theorem publishSync_counts_returns s ev :
  m_initialized s = true ->
  (publishSync s ev).1.1
  = wrap32 (Z.of_nat (length (List.filter (fun l => callback l ev)
                                          (findListeners s (type ev)))))
  /\ (publishSync s ev).2 = findListeners s (type ev)
  /\ findListeners (publishSync s ev).1.2 (type ev)
     = delivered ev <$> findListeners s (type ev)
  /\ forall t, t <> type ev ->
       findListeners (publishSync s ev).1.2 t = findListeners s t.
Proof. exact (publishSync_listeners s ev). Qed.

Definition failing : EventCallback := fun _ => false.

Definition mixed_listeners : EventSystem :=
  (subscribe_all stable_sort (initialize empty).2
     [(7, Some failing, 9, false); (7, Some quiet, 5, false); (8, Some quiet, 1, false)]).2.

Lemma publishSync_counts_returns_witness :
  (publishSync mixed_listeners ev7).1.1
  = wrap32 (Z.of_nat (length (List.filter (fun l => callback l ev7)
                                          (findListeners mixed_listeners (type ev7)))))
  /\ (publishSync mixed_listeners ev7).2 = findListeners mixed_listeners (type ev7)
  /\ findListeners (publishSync mixed_listeners ev7).1.2 (type ev7)
     = delivered ev7 <$> findListeners mixed_listeners (type ev7)
  /\ forall t, t <> type ev7 ->
       findListeners (publishSync mixed_listeners ev7).1.2 t
       = findListeners mixed_listeners t.
Proof. apply publishSync_counts_returns. reflexivity. Defined.

Example mixed_listeners_delivery :
  (publishSync mixed_listeners ev7).1.1 = 1
  /\ id <$> (publishSync mixed_listeners ev7).2 = [1; 2].
Proof. split; reflexivity. Qed.

(** ** The queue is served first in, first out *)

(** The identifiers of the listeners of a type, in their order. *)
Definition ids_of (s : EventSystem) (t : EventType) : list ListenerId :=
  id <$> findListeners s t.

Lemma delivered_id ev (ls : list EventListener) :
  id <$> (delivered ev <$> ls) = id <$> ls.
Proof.
  rewrite <- list_fmap_compose. apply list_fmap_ext. intros _ l _.
  simpl. unfold delivered. destruct (callback l ev); reflexivity.
Qed.

Lemma publishSync_ids s ev t :
  m_initialized s = true -> ids_of (publishSync s ev).1.2 t = ids_of s t.
Proof.
  intros Hi. destruct (publishSync_listeners s ev Hi) as (_ & _ & Hsame & Hother).
  unfold ids_of. destruct (decide (t = type ev)) as [->|Hne].
  - rewrite Hsame. apply delivered_id.
  - rewrite (Hother t Hne). reflexivity.
Qed.

Lemma publishSync_fields s ev :
  m_initialized (publishSync s ev).1.2 = m_initialized s
  /\ m_eventsProcessed (publishSync s ev).1.2 = m_eventsProcessed s.
Proof.
  unfold publishSync. destruct (negb (m_initialized s)); [split; reflexivity|].
  destruct (m_listeners s !! type ev) as [ls|]; [|split; reflexivity].
  destruct (notify ev ls) as [[ls' n] log]. split; reflexivity.
Qed.

Lemma bind_pointwise {A B} (f g : A -> list B) (l : list A) :
  (forall x, f x = g x) -> l ≫= f = l ≫= g.
Proof.
  intros H. induction l as [|x l IH]; [reflexivity|].
  rewrite !bind_cons, IH, H. reflexivity.
Qed.

Lemma wrap32_succ_add x k : wrap32 (wrap32 (x + 1) + k) = wrap32 (x + (1 + k)).
Proof.
  unfold wrap32. rewrite Zplus_mod_idemp_l. f_equal. lia.
Qed.

Lemma drain_spec budget : forall s,
  m_initialized s = true ->
  let n := Nat.min budget (length (m_eventQueue s)) in
  (drain budget s).1.1 = Z.of_nat n
  /\ m_eventQueue (drain budget s).1.2 = drop n (m_eventQueue s)
  /\ id <$> (drain budget s).2
     = take n (m_eventQueue s) ≫= (fun ev => ids_of s (type ev))
  /\ (forall t, ids_of (drain budget s).1.2 t = ids_of s t)
  /\ wrap32 (m_eventsProcessed (drain budget s).1.2)
     = wrap32 (m_eventsProcessed s + Z.of_nat n)
  /\ m_initialized (drain budget s).1.2 = true.
Proof.
  induction budget as [|budget IH]; intros s Hi.
  { simpl. destruct (m_eventQueue s); simpl; rewrite Z.add_0_r; repeat split; assumption. }
  simpl drain. destruct (m_eventQueue s) as [|ev rest] eqn:Hq.
  { simpl. rewrite Hq, Z.add_0_r. repeat split; assumption. }
  set (popped := mkES (m_listeners s) rest (m_eventsPublished s) (m_eventsProcessed s)
                      (m_listenersNotified s) (m_nextListenerId s)
                      (m_loggingEnabled s) (m_initialized s)).
  assert (Hip : m_initialized popped = true) by exact Hi.
  pose proof (publishSync_queue popped ev) as Hpq.
  pose proof (publishSync_fields popped ev) as [Hpi Hpp].
  pose proof (fun t => publishSync_ids popped ev t Hip) as Hpids.
  destruct (publishSync_listeners popped ev Hip) as (_ & Hplog & _ & _).
  destruct (publishSync popped ev) as [[n1 s1] log1]. simpl in Hpq, Hpi, Hpp, Hpids, Hplog.
  set (s2 := mkES (m_listeners s1) (m_eventQueue s1) (m_eventsPublished s1)
                  (wrap32 (m_eventsProcessed s1 + 1))
                  (m_listenersNotified s1) (m_nextListenerId s1)
                  (m_loggingEnabled s1) (m_initialized s1)).
  assert (Hi2 : m_initialized s2 = true) by (simpl; rewrite Hpi; exact Hip).
  assert (Hids2 : forall t, ids_of s2 t = ids_of s t).
  { intros t. transitivity (ids_of s1 t); [reflexivity|]. rewrite Hpids. reflexivity. }
  destruct (IH s2 Hi2) as (Hn & Hqueue & Hlog & Hids & Hproc & Hinit).
  destruct (drain budget s2) as [[n3 s3] log3].
  simpl in Hn, Hqueue, Hlog, Hids, Hproc, Hinit. rewrite Hpq in Hn, Hqueue, Hlog, Hproc.
  simpl. repeat split.
  - rewrite Hn. lia.
  - exact Hqueue.
  - rewrite fmap_app, Hlog. f_equal.
    + rewrite Hplog. reflexivity.
    + apply (bind_pointwise (fun e => ids_of s2 (type e))). intros e. apply Hids2.
  - intros t. rewrite Hids. apply Hids2.
  - rewrite Hproc, Hpp. simpl. rewrite wrap32_succ_add. f_equal. lia.
  - exact Hinit.
Qed.

Lemma cleanupListeners_lookup s t :
  findListeners (cleanupListeners s) t
  = List.filter (fun l => negb (retired l)) (findListeners s t).
Proof.
  unfold findListeners, cleanupListeners. simpl. rewrite lookup_fmap.
  destruct (m_listeners s !! t); reflexivity.
Qed.

(** X11. On the initialized event system [processEvents] serves the
    queue first in, first out, ten events at most: it returns the
    number of events served, leaves the rest of the queue in order,
    advances the counter of processed events by that number, and
    invokes, event by event, the listeners of each event's type in the
    order they have in the listener table. *)
Theorem processEvents_fifo s :
  m_initialized s = true ->
  let n := Nat.min 10 (length (m_eventQueue s)) in
  (processEvents s).1.1 = Z.of_nat n
  /\ m_eventQueue (processEvents s).1.2 = drop n (m_eventQueue s)
  /\ id <$> (processEvents s).2
     = take n (m_eventQueue s) ≫= (fun ev => id <$> findListeners s (type ev))
  /\ wrap32 (m_eventsProcessed (processEvents s).1.2)
     = wrap32 (m_eventsProcessed s + Z.of_nat n).
Proof.
  intros Hi n. unfold processEvents. rewrite Hi. simpl negb. cbv iota.
  destruct (drain_spec 10 s Hi) as (Hn & Hqueue & Hlog & _ & Hproc & _).
  destruct (drain 10 s) as [[k s1] log]. simpl in Hn, Hqueue, Hlog, Hproc.
  fold n in Hn, Hqueue, Hlog, Hproc. simpl.
  repeat split; try assumption; destruct (0 <? k); assumption.
Qed.

Definition three_queued : EventSystem :=
  (run stable_sort mixed_listeners
     [PublishAsync (mkEvent 8 0 0 0 0); PublishAsync ev7; PublishAsync (mkEvent 9 0 0 0 0)]).1.

Lemma processEvents_fifo_witness :
  (processEvents three_queued).1.1
  = Z.of_nat (Nat.min 10 (length (m_eventQueue three_queued)))
  /\ m_eventQueue (processEvents three_queued).1.2
     = drop (Nat.min 10 (length (m_eventQueue three_queued))) (m_eventQueue three_queued)
  /\ id <$> (processEvents three_queued).2
     = take (Nat.min 10 (length (m_eventQueue three_queued))) (m_eventQueue three_queued)
       ≫= (fun ev => id <$> findListeners three_queued (type ev))
  /\ wrap32 (m_eventsProcessed (processEvents three_queued).1.2)
     = wrap32 (m_eventsProcessed three_queued
               + Z.of_nat (Nat.min 10 (length (m_eventQueue three_queued)))).
Proof. apply processEvents_fifo. reflexivity. Defined.

Example three_queued_order : id <$> (processEvents three_queued).2 = [3; 1; 2].
Proof. reflexivity. Qed.

(** What no delivery changes of a listener: its identifier and its
    one-shot flag. *)
Definition standing (l : EventListener) : ListenerId * bool := (id l, oneShot l).

Lemma delivered_standing ev (ls : list EventListener) :
  standing <$> (delivered ev <$> ls) = standing <$> ls.
Proof.
  rewrite <- list_fmap_compose. apply list_fmap_ext. intros _ l _.
  simpl. unfold delivered. destruct (callback l ev); reflexivity.
Qed.

Lemma publishSync_standing s ev t :
  m_initialized s = true ->
  standing <$> findListeners (publishSync s ev).1.2 t = standing <$> findListeners s t.
Proof.
  intros Hi. destruct (publishSync_listeners s ev Hi) as (_ & _ & Hsame & Hother).
  destruct (decide (t = type ev)) as [->|Hne].
  - rewrite Hsame. apply delivered_standing.
  - rewrite (Hother t Hne). reflexivity.
Qed.

Lemma drain_standing budget : forall s t,
  m_initialized s = true ->
  standing <$> findListeners (drain budget s).1.2 t = standing <$> findListeners s t.
Proof.
  induction budget as [|budget IH]; intros s t Hi.
  { simpl. destruct (m_eventQueue s); reflexivity. }
  simpl drain. destruct (m_eventQueue s) as [|ev rest] eqn:Hq; [reflexivity|].
  set (popped := mkES (m_listeners s) rest (m_eventsPublished s) (m_eventsProcessed s)
                      (m_listenersNotified s) (m_nextListenerId s)
                      (m_loggingEnabled s) (m_initialized s)).
  assert (Hip : m_initialized popped = true) by exact Hi.
  pose proof (publishSync_fields popped ev) as [Hpi _].
  pose proof (publishSync_standing popped ev t Hip) as Hst.
  destruct (publishSync popped ev) as [[n1 s1] log1]. simpl in Hpi, Hst.
  set (s2 := mkES (m_listeners s1) (m_eventQueue s1) (m_eventsPublished s1)
                  (wrap32 (m_eventsProcessed s1 + 1))
                  (m_listenersNotified s1) (m_nextListenerId s1)
                  (m_loggingEnabled s1) (m_initialized s1)).
  assert (Hi2 : m_initialized s2 = true) by (simpl; rewrite Hpi; exact Hip).
  pose proof (IH s2 t Hi2) as H2.
  destruct (drain budget s2) as [[n3 s3] log3]. simpl in H2. simpl.
  rewrite H2. exact Hst.
Qed.

(** X12. When [processEvents] has served at least one event, no
    one-shot listener that has been called is left in the listener
    table, of any type; the listeners that stay keep their order, and
    every listener that is not one-shot stays. *)
Theorem processEvents_retires_one_shots s t :
  m_initialized s = true -> m_eventQueue s <> [] ->
  (forall l, l ∈ findListeners (processEvents s).1.2 t -> retired l = false)
  /\ sublist (id <$> findListeners (processEvents s).1.2 t) (id <$> findListeners s t)
  /\ (forall l, l ∈ findListeners s t -> oneShot l = false ->
        id l ∈ id <$> findListeners (processEvents s).1.2 t).
Proof.
  intros Hi Hq. unfold processEvents. rewrite Hi. simpl negb. cbv iota.
  destruct (drain_spec 10 s Hi) as (Hn & _ & _ & Hids & _ & _).
  pose proof (drain_standing 10 s t Hi) as Hst.
  destruct (drain 10 s) as [[k s1] log]. simpl in Hn, Hids, Hst.
  assert (Hk : (0 <? k) = true).
  { apply Z.ltb_lt. rewrite Hn. destruct (m_eventQueue s); [congruence|simpl; lia]. }
  rewrite Hk. simpl. rewrite cleanupListeners_lookup. split; [|split].
  - intros l Hl. apply list_elem_of_In, filter_In in Hl as [_ Hl].
    apply negb_true_iff. exact Hl.
  - specialize (Hids t). unfold ids_of in Hids. rewrite <- Hids.
    apply fmap_sublist. clear. induction (findListeners s1 t) as [|l ls IH]; [constructor|].
    simpl. destruct (negb (retired l)); [apply sublist_skip|apply sublist_cons]; exact IH.
  - intros l Hl Hone.
    assert (Hin : standing l ∈ standing <$> findListeners s1 t).
    { rewrite Hst. apply list_elem_of_fmap. exists l. split; [reflexivity|exact Hl]. }
    apply list_elem_of_fmap in Hin as (l1 & Heq & Hl1).
    injection Heq as Hid Hos.
    apply list_elem_of_fmap. exists l1. split; [exact Hid|].
    apply list_elem_of_In, filter_In. split; [apply list_elem_of_In; exact Hl1|].
    unfold retired. rewrite <- Hos, Hone. reflexivity.
Qed.

(** A one-shot listener of priority 5 and a standing one of priority 9
    for event type 7, and one event of that type in the queue:
    [processEvents] invokes both and retires the one-shot listener. *)
Definition one_shot_queued : EventSystem :=
  (run libstdcxx_sort (initialize empty).2
     [Subscribe 7 (Some quiet) 5 true; Subscribe 7 (Some quiet) 9 false;
      PublishAsync ev7]).1.

Example one_shot_queued_processed :
  (fun l => (id l, oneShot l)) <$> findListeners one_shot_queued 7 = [(2, false); (1, true)]
  /\ id <$> (processEvents one_shot_queued).2 = [2; 1]
  /\ (fun l => (id l, callCount l)) <$> findListeners (processEvents one_shot_queued).1.2 7
     = [(2, 1)].
Proof. vm_compute. repeat split; reflexivity. Qed.

Lemma processEvents_retires_one_shots_witness :
  (forall l, l ∈ findListeners (processEvents one_shot_queued).1.2 7 -> retired l = false)
  /\ sublist (id <$> findListeners (processEvents one_shot_queued).1.2 7)
             (id <$> findListeners one_shot_queued 7)
  /\ (forall l, l ∈ findListeners one_shot_queued 7 -> oneShot l = false ->
        id l ∈ id <$> findListeners (processEvents one_shot_queued).1.2 7).
Proof.
  apply processEvents_retires_one_shots.
  - reflexivity.
  - vm_compute. discriminate.
Defined.

(** ** Shutdown *)

(** X13. [shutdown] of the initialized event system drops every
    listener and every queued event, and afterwards each operation
    refuses: [subscribe] returns 0, [publishSync] and [processEvents]
    return 0 and invoke nobody, [publishAsync] and [unsubscribe] return
    false, and none of them changes the system. *)
Theorem shutdown_refuses_all S s t f prio one ev lid :
  m_initialized s = true ->
  (shutdown s).1 = OS_OK
  /\ m_listeners (shutdown s).2 = ∅
  /\ m_eventQueue (shutdown s).2 = []
  /\ subscribe S (shutdown s).2 t (Some f) prio one = (0, (shutdown s).2)
  /\ publishSync (shutdown s).2 ev = (0, (shutdown s).2, [])
  /\ publishAsync (shutdown s).2 ev = (false, (shutdown s).2)
  /\ processEvents (shutdown s).2 = (0, (shutdown s).2, [])
  /\ unsubscribe (shutdown s).2 lid = (false, (shutdown s).2)
  /\ unsubscribeAll (shutdown s).2 t = (0, (shutdown s).2).
Proof.
  intros Hi. unfold shutdown. rewrite Hi. simpl. repeat split.
Qed.

Lemma shutdown_refuses_all_witness :
  (shutdown three_queued).1 = OS_OK
  /\ m_listeners (shutdown three_queued).2 = ∅
  /\ m_eventQueue (shutdown three_queued).2 = []
  /\ subscribe stable_sort (shutdown three_queued).2 7 (Some quiet) 1 false
     = (0, (shutdown three_queued).2)
  /\ publishSync (shutdown three_queued).2 ev7 = (0, (shutdown three_queued).2, [])
  /\ publishAsync (shutdown three_queued).2 ev7 = (false, (shutdown three_queued).2)
  /\ processEvents (shutdown three_queued).2 = (0, (shutdown three_queued).2, [])
  /\ unsubscribe (shutdown three_queued).2 1 = (false, (shutdown three_queued).2)
  /\ unsubscribeAll (shutdown three_queued).2 7 = (0, (shutdown three_queued).2).
Proof. apply shutdown_refuses_all. reflexivity. Defined.

(** ** Removing one listener *)

Lemma types_in_order_keys (m : gmap Z (list EventListener)) t :
  t ∈ types_in_order m <-> is_Some (m !! t).
Proof.
  unfold types_in_order. rewrite merge_sort_Permutation, list_elem_of_fmap. split.
  - intros [[k v] [-> Hkv]]. apply elem_of_map_to_list in Hkv. simpl. eauto.
  - intros [v Hv]. exists (t, v). split; [reflexivity|].
    apply elem_of_map_to_list. exact Hv.
Qed.

Lemma unsubscribe_from_spec lid (m : gmap Z (list EventListener)) : forall types,
  match unsubscribe_from lid types m with
  | Some m' =>
      exists t k l, default [] (m !! t) !! k = Some l /\ id l = lid
                    /\ m' = <[t := delete k (default [] (m !! t))]> m
  | None => forall t l, t ∈ types -> l ∈ default [] (m !! t) -> id l <> lid
  end.
Proof.
  induction types as [|t rest IH]; simpl.
  { intros t l Ht. inversion Ht. }
  destruct (list_find (fun l => id l = lid) (default [] (m !! t))) as [[k l]|] eqn:Hf.
  - apply list_find_Some in Hf as (Hk & Hid & _). exists t, k, l. auto.
  - destruct (unsubscribe_from lid rest m) as [m'|]; [exact IH|].
    intros t' l Ht' Hl. apply elem_of_cons in Ht' as [->|Ht']; [|eauto].
    apply list_find_None in Hf. rewrite Forall_forall in Hf. apply Hf. exact Hl.
Qed.

(** X14. On the initialized event system [unsubscribe] returns false
    and changes nothing exactly when no listener of any type has the
    identifier; otherwise it returns true and removes one listener with
    that identifier from the list of one type, leaving the order of the
    others in that list and every other type as they were. *)
Theorem unsubscribe_removes_one s lid :
  m_initialized s = true ->
  if (unsubscribe s lid).1
  then exists t k l,
         findListeners s t !! k = Some l /\ id l = lid
         /\ findListeners (unsubscribe s lid).2 t = delete k (findListeners s t)
         /\ forall t', t' <> t ->
              findListeners (unsubscribe s lid).2 t' = findListeners s t'
  else (unsubscribe s lid).2 = s
       /\ forall t l, l ∈ findListeners s t -> id l <> lid.
Proof.
  intros Hi. unfold unsubscribe. rewrite Hi. simpl negb. cbv iota.
  pose proof (unsubscribe_from_spec lid (m_listeners s) (types_in_order (m_listeners s)))
    as Hspec.
  destruct (unsubscribe_from lid (types_in_order (m_listeners s)) (m_listeners s))
    as [m'|]; simpl.
  - destruct Hspec as (t & k & l & Hk & Hid & ->). exists t, k, l.
    unfold findListeners. simpl. rewrite lookup_insert_eq. simpl.
    repeat split; try assumption.
    intros t' Hne. rewrite lookup_insert_ne by congruence. reflexivity.
  - split; [reflexivity|]. intros t l Hl. unfold findListeners in Hl.
    destruct (m_listeners s !! t) as [ls|] eqn:Ht; [|inversion Hl].
    apply (Hspec t l); [|rewrite Ht; exact Hl].
    apply types_in_order_keys. eauto.
Qed.

Lemma unsubscribe_removes_one_witness :
  if (unsubscribe two_listeners 2).1
  then exists t k l,
         findListeners two_listeners t !! k = Some l /\ id l = 2
         /\ findListeners (unsubscribe two_listeners 2).2 t
            = delete k (findListeners two_listeners t)
         /\ forall t', t' <> t ->
              findListeners (unsubscribe two_listeners 2).2 t' = findListeners two_listeners t'
  else (unsubscribe two_listeners 2).2 = two_listeners
       /\ forall t l, l ∈ findListeners two_listeners t -> id l <> 2.
Proof. apply unsubscribe_removes_one. reflexivity. Defined.

Example unsubscribe_two_listeners :
  (unsubscribe two_listeners 2).1 = true
  /\ id <$> findListeners (unsubscribe two_listeners 2).2 7 = [1]
  /\ (unsubscribe two_listeners 9).1 = false.
Proof. repeat split; reflexivity. Qed.

End EventsExtra.

(** * Further properties of the task scheduler *)

Module SchedExtra.
Import Sched SchedProofs.

(** ** What one pass of [update] does to the task table *)

Lemma filter_submseteq {A} (f : A -> bool) (l : list A) : List.filter f l ⊆+ l.
Proof.
  induction l as [|x l IH]; [constructor|].
  simpl. destruct (f x); [apply submseteq_skip|apply submseteq_cons]; exact IH.
Qed.

Lemma pass_log S clock s k :
  (pass S clock s k).1.2 ⊆+ m_tasks s
  /\ forall t, t ∈ (pass S clock s k).1.2 -> due (clock k) t = true.
Proof.
  unfold pass.
  destruct (run_due_log clock (clock k) (clock k)
              (std_sort S Task task_before (m_tasks s)) s (Datatypes.S k))
    as (n & Hlog & _).
  rewrite Hlog. split.
  - etransitivity; [apply filter_submseteq|].
    etransitivity; [apply sublist_submseteq, sublist_take|].
    apply Permutation_submseteq, std_sort_perm.
  - intros t Ht. apply list_elem_of_In, List.filter_In in Ht as [_ Hd]. exact Hd.
Qed.

(** X15. In one [update] every task function invoked belongs to a task
    of the table that was READY with its [nextExecution] not after the
    time read at the start of the call, and no task is invoked more
    often than it occurs in the table. *)
Theorem update_invokes_due_once S clock s k dt :
  (update S clock s k dt).2 ⊆+ m_tasks s
  /\ forall t, t ∈ (update S clock s k dt).2 ->
       state t = READY /\ nextExecution t <= clock k.
Proof.
  destruct (m_initialized s) eqn:Hi.
  - rewrite (update_log S clock s k dt Hi).
    destruct (pass_log S clock s k) as [Hsub Hdue]. split; [exact Hsub|].
    intros t Ht. specialize (Hdue t Ht). unfold due, is_ready in Hdue.
    apply andb_prop in Hdue as [Hr Hn]. apply Z.leb_le in Hn. split; [|exact Hn].
    destruct (state t); try discriminate Hr. reflexivity.
  - unfold update. rewrite Hi. simpl. split.
    + apply submseteq_nil_l.
    + intros t Ht. inversion Ht.
Qed.

(** What [executeTask] leaves alone. *)
Lemma executeTask_keeps clock s k t :
  id (executeTask clock s k t).1.1.1 = id t
  /\ period (executeTask clock s k t).1.1.1 = period t
  /\ autoDelete (executeTask clock s k t).1.1.1 = autoDelete t
  /\ m_cpuLoad (executeTask clock s k t).1.1.2 = m_cpuLoad s
  /\ m_initialized (executeTask clock s k t).1.1.2 = m_initialized s.
Proof.
  unfold executeTask. destruct (negb (is_ready t)); simpl; repeat split.
Qed.

Lemma executeTask_state clock s k t :
  is_ready t = true ->
  state (executeTask clock s k t).1.1.1 = (if 0 <? period t then READY else COMPLETED).
Proof. intros Hr. unfold executeTask. rewrite Hr. reflexivity. Qed.

(** The tasks after the loop of [update], one by one against the tasks
    before it. *)
Definition ran (now : Z) (log : list Task) (t t' : Task) : Prop :=
  id t' = id t /\ period t' = period t /\ autoDelete t' = autoDelete t
  /\ (t ∈ log -> state t' = (if 0 <? period t then READY else COMPLETED)).

Lemma ran_weaken now log log' l l' :
  (forall x, x ∈ l -> x ∈ log' -> x ∈ log) ->
  Forall2 (ran now log) l l' -> Forall2 (ran now log') l l'.
Proof.
  intros Hsub HF. induction HF as [|x y l l' (Hid & Hper & Had & Hst) HF IH]; constructor.
  - repeat split; try assumption. intros Hx. apply Hst, Hsub; [left|exact Hx].
  - apply IH. intros z Hz. apply Hsub. right. exact Hz.
Qed.

Lemma ran_untouched now log l :
  (forall x, x ∈ l -> x ∉ log) -> Forall2 (ran now log) l l.
Proof.
  intros Hout. induction l as [|x l IH]; constructor.
  - repeat split. intros Hx. exfalso. apply (Hout x); [left|exact Hx].
  - apply IH. intros z Hz. apply Hout. right. exact Hz.
Qed.

Lemma run_due_log_from clock now start ts s k t :
  t ∈ (run_due clock now start s k ts).1.2 -> t ∈ ts /\ due now t = true.
Proof.
  destruct (run_due_log clock now start ts s k) as (n & -> & _).
  intros Ht. apply list_elem_of_In, List.filter_In in Ht as [Ht Hd].
  split; [|exact Hd]. apply list_elem_of_In in Ht.
  eapply elem_of_sublist; [exact Ht|apply sublist_take].
Qed.

Lemma run_due_tasks clock now start : forall ts s k,
  NoDup (id <$> ts) ->
  Forall2 (ran now (run_due clock now start s k ts).1.2) ts
          (run_due clock now start s k ts).1.1.1.1.
Proof.
  induction ts as [|t ts IH]; intros s k Hnd.
  { simpl. constructor. }
  rewrite fmap_cons in Hnd. apply NoDup_cons in Hnd as [Hfresh Hnd].
  assert (Hnot : t ∉ ts).
  { intros Ht. apply Hfresh, list_elem_of_fmap. exists t. split; [reflexivity|exact Ht]. }
  simpl. destruct (due now t) eqn:Hd.
  - assert (Hr : is_ready t = true)
      by (unfold due in Hd; apply andb_prop in Hd; apply Hd).
    pose proof (executeTask_keeps clock s k t) as (Hid & Hper & Had & _ & _).
    pose proof (executeTask_state clock s k t Hr) as Hst.
    assert (Hlog1 : (executeTask clock s k t).2 = [t])
      by (unfold executeTask; rewrite Hr; reflexivity).
    destruct (executeTask clock s k t) as [[[t1 s1] k1] log1].
    simpl in Hid, Hper, Had, Hst, Hlog1. subst log1.
    destruct (16 <? _).
    + simpl. constructor; [repeat split; auto|].
      apply ran_untouched. intros x Hx Hin.
      apply list_elem_of_singleton in Hin. subst x. exact (Hnot Hx).
    + specialize (IH s1 (Datatypes.S k1) Hnd).
      destruct (run_due clock now start s1 (Datatypes.S k1) ts)
        as [[[[rest' s2] k2] log2] cut].
      simpl in IH. simpl. constructor; [repeat split; auto|].
      apply (ran_weaken now log2); [|exact IH].
      intros x Hx Hin. apply elem_of_cons in Hin as [->|Hin]; [|exact Hin].
      exfalso. exact (Hnot Hx).
  - pose proof (run_due_log_from clock now start ts s k t) as Hfrom.
    specialize (IH s k Hnd).
    destruct (run_due clock now start s k ts) as [[[[rest' s2] k2] log2] cut].
    simpl in IH, Hfrom. simpl. constructor; [|exact IH].
    repeat split. intros Ht. apply Hfrom in Ht as [Ht _]. exfalso. exact (Hnot Ht).
Qed.

(** The loop of [update] keeps the identifiers of the tasks, in their
    order, and leaves the CPU load and the initialization flag. *)
Lemma run_due_keeps clock now start : forall ts s k,
  id <$> (run_due clock now start s k ts).1.1.1.1 = id <$> ts
  /\ m_cpuLoad (run_due clock now start s k ts).1.1.1.2 = m_cpuLoad s
  /\ m_initialized (run_due clock now start s k ts).1.1.1.2 = m_initialized s.
Proof.
  induction ts as [|t ts IH]; intros s k; [repeat split|].
  simpl. destruct (due now t).
  - pose proof (executeTask_keeps clock s k t) as (Hid & _ & _ & Hcpu & Hini).
    destruct (executeTask clock s k t) as [[[t1 s1] k1] log1].
    simpl in Hid, Hcpu, Hini. destruct (16 <? _).
    + cbn [fst snd]. rewrite !fmap_cons, Hid. repeat split; assumption.
    + specialize (IH s1 (Datatypes.S k1)).
      destruct (run_due clock now start s1 (Datatypes.S k1) ts)
        as [[[[rest' s2] k2] log2] cut].
      cbn [fst snd] in IH. destruct IH as (IHid & IHcpu & IHini). cbn [fst snd].
      rewrite !fmap_cons, Hid, IHid, IHcpu, IHini. repeat split; assumption.
  - specialize (IH s k).
    destruct (run_due clock now start s k ts) as [[[[rest' s2] k2] log2] cut].
    cbn [fst snd] in IH. destruct IH as (IHid & IHcpu & IHini). cbn [fst snd].
    rewrite !fmap_cons, IHid. repeat split; assumption.
Qed.

Lemma updateCPULoad_keeps clock s k :
  m_tasks (updateCPULoad clock s k).1 = m_tasks s
  /\ m_initialized (updateCPULoad clock s k).1 = m_initialized s
  /\ (0 <= m_cpuLoad s <= 100 -> 0 <= m_cpuLoad (updateCPULoad clock s k).1 <= 100).
Proof.
  unfold updateCPULoad. destruct (1000 <=? _); simpl; repeat split; try tauto.
  - destruct (Z.ltb_spec 100 (wrap8 (wrap32 (m_totalExecutionTime s * 100)
                                     / wrap32 (clock k - m_lastUpdateTime s)))); [lia|].
    unfold wrap8. apply Z.mod_pos_bound. lia.
  - destruct (Z.ltb_spec 100 (wrap8 (wrap32 (m_totalExecutionTime s * 100)
                                     / wrap32 (clock k - m_lastUpdateTime s)))); lia.
Qed.

(** The task table after [update]: the tasks after the loop that are
    not finished auto-delete tasks. *)
Lemma update_tasks S clock s k dt :
  m_initialized s = true ->
  m_tasks (update S clock s k dt).1.1.2 = cleanupTasks (pass S clock s k).1.1.1.1
  /\ m_initialized (update S clock s k dt).1.1.2 = true
  /\ (0 <= m_cpuLoad s <= 100 -> 0 <= m_cpuLoad (update S clock s k dt).1.1.2 <= 100).
Proof.
  intros Hi. unfold update. rewrite Hi. simpl negb. cbv iota.
  pose proof (run_due_keeps clock (clock k) (clock k)
                (std_sort S Task task_before (m_tasks s)) s (Datatypes.S k))
    as (_ & Hcpu & Hini).
  unfold pass in *.
  destruct (run_due _ _ _ _ _ _) as [[[[tasks1 s1] k1] log] cut].
  simpl in Hcpu, Hini.
  pose proof (updateCPULoad_keeps clock (with_tasks s1 (cleanupTasks tasks1)) k1)
    as (Ht & Hi2 & Hc2).
  destruct (updateCPULoad _ _ _) as [s2 k2]. simpl in *.
  rewrite Hcpu in Hc2. rewrite Hi2, Hini. split; [exact Ht|]. split; [exact Hi|exact Hc2].
Qed.

(** X16. After an [update] of the initialized scheduler the table
    holds no task that is COMPLETED and marked auto-delete, and
    [update] adds no task: the identifiers left are among those there
    before, each no more often than before. *)
Theorem update_cleans_up S clock s k dt :
  m_initialized s = true ->
  (forall t, t ∈ m_tasks (update S clock s k dt).1.1.2 -> finished t = false)
  /\ id <$> m_tasks (update S clock s k dt).1.1.2 ⊆+ id <$> m_tasks s.
Proof.
  intros Hi. destruct (update_tasks S clock s k dt Hi) as (-> & _ & _). split.
  - intros t Ht. apply list_elem_of_In, List.filter_In in Ht as [_ Ht].
    apply negb_true_iff. exact Ht.
  - unfold pass.
    pose proof (run_due_keeps clock (clock k) (clock k)
                  (std_sort S Task task_before (m_tasks s)) s (Datatypes.S k))
      as (Hid & _).
    etransitivity; [apply fmap_submseteq, filter_submseteq|].
    rewrite Hid. apply Permutation_submseteq, fmap_Permutation, std_sort_perm.
Qed.

Lemma update_cleans_up_witness :
  (forall t, t ∈ m_tasks (update stable_sort tick_clock two_tasks.1 two_tasks.2 16).1.1.2 ->
     finished t = false)
  /\ id <$> m_tasks (update stable_sort tick_clock two_tasks.1 two_tasks.2 16).1.1.2
     ⊆+ id <$> m_tasks two_tasks.1.
Proof. apply update_cleans_up. reflexivity. Defined.

Lemma same_id_same_index (l : list Task) i j a b :
  NoDup (id <$> l) -> l !! i = Some a -> l !! j = Some b -> id a = id b -> i = j.
Proof.
  intros Hnd Ha Hb Hid. apply (NoDup_lookup (id <$> l) i j (id a) Hnd).
  - rewrite list_lookup_fmap, Ha. reflexivity.
  - rewrite list_lookup_fmap, Hb, Hid. reflexivity.
Qed.

(** X17. In an [update] of the initialized scheduler whose tasks have
    distinct identifiers, a task whose function was invoked and that
    has no period and is marked auto-delete is gone from the table
    when [update] returns, whereas a periodic task whose function was
    invoked is still in the table and READY. *)
Theorem one_shot_runs_once S clock s k dt t :
  m_initialized s = true -> NoDup (id <$> m_tasks s) ->
  t ∈ (update S clock s k dt).2 ->
  (period t = 0 -> autoDelete t = true ->
   forall t', t' ∈ m_tasks (update S clock s k dt).1.1.2 -> id t' <> id t)
  /\ (0 < period t ->
      exists t', t' ∈ m_tasks (update S clock s k dt).1.1.2
                 /\ id t' = id t /\ state t' = READY).
Proof.
  intros Hi Hnd Ht. rewrite (update_log S clock s k dt Hi) in Ht.
  destruct (update_tasks S clock s k dt Hi) as (-> & _ & _).
  unfold pass in *.
  set (sorted := std_sort S Task task_before (m_tasks s)) in *.
  assert (Hnds : NoDup (id <$> sorted)).
  { assert (Hp : id <$> sorted ≡ₚ id <$> m_tasks s)
      by apply fmap_Permutation, std_sort_perm.
    rewrite Hp. exact Hnd. }
  pose proof (run_due_tasks clock (clock k) (clock k) sorted s (Datatypes.S k) Hnds) as HF.
  apply run_due_log_from in Ht as Hin. destruct Hin as [Hin _].
  apply list_elem_of_lookup in Hin as [i Hi_t].
  destruct (Forall2_lookup_l _ _ _ _ _ HF Hi_t) as (t1 & Hi_t1 & _ & _ & Had & Hst).
  specialize (Hst Ht). split.
  - intros Hper Hauto t' Ht' Hsame.
    apply list_elem_of_In, List.filter_In in Ht' as [Ht' Hfin].
    apply list_elem_of_In, list_elem_of_lookup in Ht' as [j Hj].
    destruct (Forall2_lookup_r _ _ _ _ _ HF Hj) as (t0 & Hj0 & Hid0 & _ & _ & _).
    assert (j = i) by (apply (same_id_same_index sorted j i t0 t Hnds Hj0 Hi_t); congruence).
    subst j. rewrite Hi_t1 in Hj. injection Hj as ->.
    rewrite Hper in Hst. simpl in Hst.
    unfold finished in Hfin. rewrite Hst, Had, Hauto in Hfin. discriminate Hfin.
  - intros Hper. exists t1. apply Z.ltb_lt in Hper. rewrite Hper in Hst.
    destruct (Forall2_lookup_l _ _ _ _ _ HF Hi_t) as (t1' & Hi_t1' & Hid1 & _).
    rewrite Hi_t1 in Hi_t1'. injection Hi_t1' as <-.
    repeat split; try assumption.
    apply list_elem_of_In, List.filter_In. split.
    + apply list_elem_of_In, list_elem_of_lookup. eauto.
    + unfold finished. rewrite Hst. reflexivity.
Qed.

Lemma one_shot_runs_once_witness :
  (period task_high = 0 -> autoDelete task_high = true ->
   forall t', t' ∈ m_tasks (update stable_sort tick_clock two_tasks.1 two_tasks.2 16).1.1.2 ->
     id t' <> id task_high)
  /\ (0 < period task_high ->
      exists t', t' ∈ m_tasks (update stable_sort tick_clock two_tasks.1 two_tasks.2 16).1.1.2
                 /\ id t' = id task_high /\ state t' = READY).
Proof.
  apply one_shot_runs_once.
  - reflexivity.
  - apply (bool_decide_unpack _). vm_compute. exact I.
  - vm_compute. left.
Defined.

(** ** Limits that hold after every call *)

Definition within_limits (s : TaskScheduler) : Prop :=
  Z.of_nat (length (m_tasks s)) <= OS_MAX_TASKS /\ 0 <= m_cpuLoad s <= 100.

Lemma pass_length S clock s k :
  length (pass S clock s k).1.1.1.1 = length (m_tasks s).
Proof.
  unfold pass.
  pose proof (run_due_keeps clock (clock k) (clock k)
                (std_sort S Task task_before (m_tasks s)) s (Datatypes.S k))
    as (Hid & _).
  apply (f_equal length) in Hid. rewrite !length_fmap in Hid. rewrite Hid.
  apply Permutation_length, std_sort_perm.
Qed.

Lemma filter_shorter {A} (f : A -> bool) (l : list A) :
  (length (List.filter f l) <= length l)%nat.
Proof. apply submseteq_length, filter_submseteq. Qed.

Lemma step_limits S clock s k c :
  within_limits s -> within_limits (step S clock s k c).1.
Proof.
  intros [Hlen Hcpu]. unfold within_limits. destruct c; simpl.
  - unfold initialize. destruct (m_initialized s); simpl; split; assumption.
  - unfold shutdown. destruct (negb (m_initialized s)); simpl; [split; assumption|].
    split; [unfold OS_MAX_TASKS; lia|assumption].
  - unfold scheduleOnce. destruct fn as [f|]; [|simpl; split; assumption].
    destruct (negb (m_initialized s)); simpl; [split; assumption|].
    destruct (Z.leb_spec OS_MAX_TASKS (Z.of_nat (length (m_tasks s)))); simpl;
      [split; assumption|].
    rewrite length_app. simpl. split; [lia|assumption].
  - unfold schedulePeriodic. destruct fn as [f|]; [|simpl; split; assumption].
    destruct (negb (m_initialized s)); simpl; [split; assumption|].
    destruct (per =? 0); simpl; [split; assumption|].
    destruct (Z.leb_spec OS_MAX_TASKS (Z.of_nat (length (m_tasks s)))); simpl;
      [split; assumption|].
    rewrite length_app. simpl. split; [lia|assumption].
  - destruct (m_initialized s) eqn:Hi.
    + pose proof (update_tasks S clock s k deltaTime Hi) as (Ht & _ & Hc).
      pose proof (pass_length S clock s k) as Hp.
      destruct (update S clock s k deltaTime) as [[[r s'] k'] log]. simpl in *.
      split; [|exact (Hc Hcpu)]. rewrite Ht. unfold cleanupTasks.
      pose proof (filter_shorter (fun t => negb (finished t)) (pass S clock s k).1.1.1.1).
      lia.
    + unfold update. rewrite Hi. simpl. split; assumption.
  - unfold cancelTask. destruct (findTask s taskId) as [[i t]|]; simpl; [|split; assumption].
    split; [|assumption].
    pose proof (sublist_length _ _ (sublist_delete (m_tasks s) i)). lia.
  - unfold suspendTask. destruct (findTask s taskId) as [[i t]|]; simpl; [|split; assumption].
    destruct (negb (is_suspended t)); simpl; [|split; assumption].
    rewrite length_insert. split; assumption.
  - unfold resumeTask. destruct (findTask s taskId) as [[i t]|]; simpl; [|split; assumption].
    destruct (is_suspended t); simpl; [|split; assumption].
    rewrite length_insert. split; assumption.
Qed.

Lemma run_limits S clock cs : forall s k,
  within_limits s -> within_limits (run S clock s k cs).1.
Proof.
  induction cs as [|c cs IH]; intros s k Hs; [exact Hs|].
  simpl. pose proof (step_limits S clock s k c Hs) as H1.
  destruct (step S clock s k c) as [s1 k1]. apply IH. exact H1.
Qed.

Lemma empty_limits : within_limits empty.
Proof. unfold within_limits, OS_MAX_TASKS. simpl. lia. Qed.

(** X18. Whatever calls are made on a fresh scheduler, with whatever
    clock, task functions and sorting procedure, the task table never
    holds more than [OS_MAX_TASKS] tasks. *)
Theorem task_table_bounded S clock k cs :
  Z.of_nat (length (m_tasks (run S clock empty k cs).1)) <= OS_MAX_TASKS.
Proof. apply (run_limits S clock cs empty k empty_limits). Qed.

(** X19. Whatever calls are made on a fresh scheduler, the CPU load it
    reports is a percentage: between 0 and 100. *)
Theorem cpu_load_is_percentage S clock k cs :
  0 <= m_cpuLoad (run S clock empty k cs).1 <= 100.
Proof. apply (run_limits S clock cs empty k empty_limits). Qed.

(** ** Suspending, resuming and cancelling *)

Lemma list_find_replace {A} (P : A -> Prop) `{!forall x, Decision (P x)}
    (l : list A) i x y :
  list_find P l = Some (i, x) -> P y -> list_find P (<[i := y]> l) = Some (i, y).
Proof.
  intros Hf Hy. apply list_find_Some in Hf as (Hi & Hx & Hbefore).
  apply list_find_Some. split; [|split].
  - apply list_lookup_insert_eq. eapply lookup_lt_Some. exact Hi.
  - exact Hy.
  - intros j z Hj Hlt. rewrite list_lookup_insert_ne in Hj by lia. eauto.
Qed.

Lemma suspended_state t : is_suspended t = true <-> state t = SUSPENDED.
Proof. unfold is_suspended. destruct (state t); split; congruence. Qed.

Lemma suspendTask_marks s taskId t :
  NoDup (id <$> m_tasks s) ->
  t ∈ m_tasks (suspendTask s taskId).2 -> id t = taskId -> state t = SUSPENDED.
Proof.
  intros Hnd Ht Hid. unfold suspendTask, findTask in Ht.
  destruct (list_find (fun t => id t = taskId) (m_tasks s)) as [[i t0]|] eqn:Hf.
  - apply list_find_Some in Hf as (Hi & Hid0 & _).
    destruct (is_suspended t0) eqn:Hs; simpl in Ht.
    + apply list_elem_of_lookup in Ht as [j Hj].
      assert (j = i) by (apply (same_id_same_index _ j i t t0 Hnd Hj Hi); congruence).
      subst j. rewrite Hi in Hj. injection Hj as <-. apply suspended_state. exact Hs.
    + apply list_elem_of_lookup in Ht as [j Hj].
      destruct (decide (j = i)) as [->|Hne].
      * rewrite list_lookup_insert_eq in Hj by (eapply lookup_lt_Some; exact Hi).
        injection Hj as <-. reflexivity.
      * rewrite list_lookup_insert_ne in Hj by congruence.
        exfalso. apply Hne.
        apply (same_id_same_index _ j i t t0 Hnd Hj Hi). congruence.
  - simpl in Ht. apply list_find_None in Hf. rewrite Forall_forall in Hf.
    exfalso. exact (Hf t Ht Hid).
Qed.

(** The loop of [update] leaves a task that is not READY as it is. *)
Lemma run_due_unready clock now start : forall ts s k,
  Forall2 (fun t t' => id t' = id t /\ (is_ready t = false -> t' = t)) ts
          (run_due clock now start s k ts).1.1.1.1.
Proof.
  induction ts as [|t ts IH]; intros s k; [constructor|].
  simpl. destruct (due now t) eqn:Hd.
  - assert (Hr : is_ready t = true)
      by (unfold due in Hd; apply andb_prop in Hd; apply Hd).
    pose proof (executeTask_keeps clock s k t) as (Hid & _).
    destruct (executeTask clock s k t) as [[[t1 s1] k1] log1]. simpl in Hid.
    destruct (16 <? _).
    + simpl. constructor; [split; [exact Hid|congruence]|].
      clear. induction ts as [|x ts IH]; constructor; [split; auto|exact IH].
    + specialize (IH s1 (Datatypes.S k1)).
      destruct (run_due clock now start s1 (Datatypes.S k1) ts)
        as [[[[rest' s2] k2] log2] cut].
      simpl in IH. simpl. constructor; [split; [exact Hid|congruence]|exact IH].
  - specialize (IH s k).
    destruct (run_due clock now start s k ts) as [[[[rest' s2] k2] log2] cut].
    simpl in IH. simpl. constructor; [split; auto|exact IH].
Qed.

(** A task that is SUSPENDED, and the only one of its identifier, is
    in the table after [update] as it was before. *)
Lemma update_keeps_suspended S clock s k dt taskId t :
  t ∈ m_tasks s -> id t = taskId ->
  (forall t', t' ∈ m_tasks s -> id t' = taskId -> state t' = SUSPENDED) ->
  state <$> getTaskInfo (update S clock s k dt).1.1.2 taskId = Some SUSPENDED.
Proof.
  intros Ht Hid Hall. unfold getTaskInfo, findTask.
  assert (Hunready : forall x, state x = SUSPENDED -> is_ready x = false)
    by (intros x Hx; unfold is_ready; rewrite Hx; reflexivity).
  assert (Hgoal : forall l : list Task,
            (exists x, x ∈ l /\ id x = taskId) ->
            (forall x, x ∈ l -> id x = taskId -> state x = SUSPENDED) ->
            state <$> (snd <$> list_find (fun x => id x = taskId) l) = Some SUSPENDED).
  { intros l (x & Hx & Hxid) Hl.
    destruct (list_find_elem_of (fun x => id x = taskId) l x Hx Hxid) as [[i y] Hf].
    rewrite Hf. simpl. f_equal.
    apply list_find_Some in Hf as (Hi & Hyid & _).
    apply Hl; [eapply list_elem_of_lookup_2; exact Hi|exact Hyid]. }
  destruct (m_initialized s) eqn:Hinit.
  - destruct (update_tasks S clock s k dt Hinit) as (-> & _ & _). unfold pass.
    set (sorted := std_sort S Task task_before (m_tasks s)).
    pose proof (run_due_unready clock (clock k) (clock k) sorted s (Datatypes.S k)) as HF.
    assert (Hsorted : forall x, x ∈ sorted <-> x ∈ m_tasks s)
      by (intros x; unfold sorted; rewrite std_sort_perm; reflexivity).
    apply Hgoal.
    + exists t. split; [|exact Hid].
      apply Hsorted, list_elem_of_lookup in Ht as [i Hi].
      destruct (Forall2_lookup_l _ _ _ _ _ HF Hi) as (t1 & Hi1 & _ & Hsame).
      rewrite (Hsame (Hunready t (Hall t (proj1 (Hsorted t) (list_elem_of_lookup_2 _ _ _ Hi)) Hid)))
        in Hi1.
      apply list_elem_of_In, List.filter_In. split.
      * apply list_elem_of_In. eapply list_elem_of_lookup_2. exact Hi1.
      * unfold finished. rewrite (Hall t (proj1 (Hsorted t) (list_elem_of_lookup_2 _ _ _ Hi)) Hid).
        reflexivity.
    + intros x Hx Hxid. apply list_elem_of_In, List.filter_In in Hx as [Hx _].
      apply list_elem_of_In, list_elem_of_lookup in Hx as [j Hj].
      destruct (Forall2_lookup_r _ _ _ _ _ HF Hj) as (t0 & Hj0 & Hid0 & Hsame).
      assert (Hst0 : state t0 = SUSPENDED).
      { apply Hall; [apply Hsorted; eapply list_elem_of_lookup_2; exact Hj0|congruence]. }
      rewrite (Hsame (Hunready t0 Hst0)). exact Hst0.
  - unfold update. rewrite Hinit. simpl. apply Hgoal; [exists t; auto|exact Hall].
Qed.

(** X20. Once [suspendTask] has been called for an identifier, the next
    [update] invokes no task with that identifier, and the task, when
    there is one, is in the table in state SUSPENDED before that
    [update] and still when it has returned.  The identifiers of the
    tasks are distinct. *)
Theorem suspended_task_is_skipped S clock s k dt taskId :
  NoDup (id <$> m_tasks s) ->
  (forall t, t ∈ (update S clock (suspendTask s taskId).2 k dt).2 -> id t <> taskId)
  /\ (is_Some (getTaskInfo s taskId) ->
      state <$> getTaskInfo (suspendTask s taskId).2 taskId = Some SUSPENDED
      /\ state <$> getTaskInfo (update S clock (suspendTask s taskId).2 k dt).1.1.2 taskId
         = Some SUSPENDED).
Proof.
  intros Hnd. split.
  - intros t Ht Hid.
    pose proof (update_runs_only_due S clock _ k dt t Ht) as [Hst _].
    assert (Hin : t ∈ m_tasks (suspendTask s taskId).2).
    { destruct (m_initialized (suspendTask s taskId).2) eqn:Hi.
      - rewrite (update_log S clock _ k dt Hi) in Ht.
        eapply elem_of_submseteq; [exact Ht|apply pass_log].
      - unfold update in Ht. rewrite Hi in Ht. inversion Ht. }
    pose proof (suspendTask_marks s taskId t Hnd Hin Hid) as Hs. congruence.
  - intros Hsome.
    assert (Hnow : state <$> getTaskInfo (suspendTask s taskId).2 taskId = Some SUSPENDED).
    { destruct Hsome as [t0 Hinfo]. unfold getTaskInfo, suspendTask, findTask in *.
      destruct (list_find (fun t => id t = taskId) (m_tasks s)) as [[i t1]|] eqn:Hf;
        [|discriminate Hinfo].
      destruct (is_suspended t1) eqn:Hs; simpl.
      + rewrite Hf. simpl. f_equal. apply suspended_state. exact Hs.
      + rewrite (list_find_replace _ _ i t1 (with_state t1 SUSPENDED) Hf).
        * reflexivity.
        * apply list_find_Some in Hf as (_ & Hid & _). exact Hid. }
    split; [exact Hnow|].
    unfold getTaskInfo, findTask in Hnow.
    destruct (list_find (fun t => id t = taskId) (m_tasks (suspendTask s taskId).2))
      as [[i t']|] eqn:Hf; [|discriminate Hnow].
    apply list_find_Some in Hf as (Hi & Hid & _).
    apply (update_keeps_suspended S clock _ k dt taskId t').
    + eapply list_elem_of_lookup_2. exact Hi.
    + exact Hid.
    + intros x Hx Hxid. exact (suspendTask_marks s taskId x Hnd Hx Hxid).
Qed.

Definition low_suspended : TaskScheduler := (suspendTask two_tasks.1 1).2.

Lemma suspended_task_is_skipped_witness :
  (forall t, t ∈ (update libstdcxx_sort tick_clock (suspendTask two_tasks.1 1).2
                         two_tasks.2 16).2 -> id t <> 1)
  /\ (is_Some (getTaskInfo two_tasks.1 1) ->
      state <$> getTaskInfo (suspendTask two_tasks.1 1).2 1 = Some SUSPENDED
      /\ state <$> getTaskInfo (update libstdcxx_sort tick_clock (suspendTask two_tasks.1 1).2
                                       two_tasks.2 16).1.1.2 1
         = Some SUSPENDED).
Proof.
  apply suspended_task_is_skipped.
  apply (bool_decide_unpack _). vm_compute. exact I.
Defined.

Example low_suspended_log :
  id <$> (update stable_sort tick_clock low_suspended two_tasks.2 16).2 = [2]
  /\ (fun t => (id t, state t))
       <$> m_tasks (update stable_sort tick_clock low_suspended two_tasks.2 16).1.1.2
     = [(1, SUSPENDED)].
Proof. vm_compute. split; reflexivity. Qed.

Lemma with_tasks_same s : with_tasks s (m_tasks s) = s.
Proof. destruct s. reflexivity. Qed.

Lemma with_tasks_twice s l l' : with_tasks (with_tasks s l) l' = with_tasks s l'.
Proof. reflexivity. Qed.

(** X21. [suspendTask] of a task that is not suspended succeeds, and
    [resumeTask] after it succeeds and leaves the task READY, whatever
    its state was before, with every other field and every other task
    as they were; for a task that was READY the scheduler is back as
    it was. *)
Theorem suspend_then_resume s taskId i t :
  findTask s taskId = Some (i, t) -> state t <> SUSPENDED ->
  (suspendTask s taskId).1 = true
  /\ resumeTask (suspendTask s taskId).2 taskId
     = (true, with_tasks s (<[i := with_state t READY]> (m_tasks s)))
  /\ (state t = READY -> (resumeTask (suspendTask s taskId).2 taskId).2 = s).
Proof.
  intros Hf Hst.
  assert (Hs : is_suspended t = false).
  { destruct (is_suspended t) eqn:Hs; [|reflexivity].
    apply suspended_state in Hs. contradiction. }
  assert (Hid : id t = taskId) by (apply list_find_Some in Hf as (_ & Hid & _); exact Hid).
  assert (Hres : resumeTask (suspendTask s taskId).2 taskId
                 = (true, with_tasks s (<[i := with_state t READY]> (m_tasks s)))).
  { unfold suspendTask. rewrite Hf, Hs. simpl.
    unfold resumeTask, findTask. simpl.
    unfold findTask in Hf.
    rewrite (list_find_replace _ _ i t (with_state t SUSPENDED) Hf Hid). simpl.
    rewrite list_insert_insert_eq. reflexivity. }
  split; [unfold suspendTask; rewrite Hf, Hs; reflexivity|].
  split; [exact Hres|].
  intros Hr. rewrite Hres. simpl.
  assert (Ht : with_state t READY = t) by (destruct t; simpl in Hr; subst; reflexivity).
  rewrite Ht. unfold findTask in Hf. apply list_find_Some in Hf as (Hi & _ & _).
  rewrite list_insert_id by exact Hi. apply with_tasks_same.
Qed.

Lemma suspend_then_resume_witness :
  (suspendTask two_tasks.1 1).1 = true
  /\ resumeTask (suspendTask two_tasks.1 1).2 1
     = (true, with_tasks two_tasks.1 (<[0%nat := with_state task_low READY]> (m_tasks two_tasks.1)))
  /\ (state task_low = READY -> (resumeTask (suspendTask two_tasks.1 1).2 1).2 = two_tasks.1).
Proof. apply suspend_then_resume; [reflexivity|discriminate]. Defined.

(** X22. A task just scheduled with [scheduleOnce] under an identifier
    that no task of the table carries is removed again by [cancelTask]
    with the identifier returned: the table is back as it was, and a
    second [cancelTask] with that identifier returns false. *)
Theorem schedule_then_cancel clock s k f prio delay nm :
  m_initialized s = true -> Z.of_nat (length (m_tasks s)) < OS_MAX_TASKS ->
  getTaskInfo s (wrap32 (m_nextTaskId s + 1)) = None ->
  (scheduleOnce clock s k (Some f) prio delay nm).1.1 = wrap32 (m_nextTaskId s + 1)
  /\ (cancelTask (scheduleOnce clock s k (Some f) prio delay nm).1.2
                 (wrap32 (m_nextTaskId s + 1))).1 = true
  /\ m_tasks (cancelTask (scheduleOnce clock s k (Some f) prio delay nm).1.2
                         (wrap32 (m_nextTaskId s + 1))).2 = m_tasks s
  /\ (cancelTask (cancelTask (scheduleOnce clock s k (Some f) prio delay nm).1.2
                             (wrap32 (m_nextTaskId s + 1))).2
                 (wrap32 (m_nextTaskId s + 1))).1 = false.
Proof.
  intros Hi Hlen Hfresh. unfold scheduleOnce. rewrite Hi.
  destruct (Z.leb_spec OS_MAX_TASKS (Z.of_nat (length (m_tasks s)))); [lia|].
  simpl. split; [reflexivity|].
  unfold getTaskInfo, findTask in Hfresh.
  destruct (list_find (fun t => id t = wrap32 (m_nextTaskId s + 1)) (m_tasks s))
    as [[i t]|] eqn:Hf; [discriminate Hfresh|].
  unfold cancelTask, findTask. simpl.
  rewrite (list_find_app_r _ _ _ Hf). simpl.
  rewrite decide_True by reflexivity. simpl.
  replace (delete (length (m_tasks s)) (m_tasks s ++ [_])) with (m_tasks s)
    by (symmetry; rewrite (delete_middle (m_tasks s) []); apply app_nil_r).
  rewrite Hf. repeat split.
Qed.

Lemma schedule_then_cancel_witness :
  (scheduleOnce tick_clock two_tasks.1 two_tasks.2 (Some idle) 2 0 0).1.1
  = wrap32 (m_nextTaskId two_tasks.1 + 1)
  /\ (cancelTask (scheduleOnce tick_clock two_tasks.1 two_tasks.2 (Some idle) 2 0 0).1.2
                 (wrap32 (m_nextTaskId two_tasks.1 + 1))).1 = true
  /\ m_tasks (cancelTask (scheduleOnce tick_clock two_tasks.1 two_tasks.2 (Some idle) 2 0 0).1.2
                         (wrap32 (m_nextTaskId two_tasks.1 + 1))).2 = m_tasks two_tasks.1
  /\ (cancelTask (cancelTask (scheduleOnce tick_clock two_tasks.1 two_tasks.2
                                           (Some idle) 2 0 0).1.2
                             (wrap32 (m_nextTaskId two_tasks.1 + 1))).2
                 (wrap32 (m_nextTaskId two_tasks.1 + 1))).1 = false.
Proof.
  apply schedule_then_cancel.
  - reflexivity.
  - vm_compute. reflexivity.
  - reflexivity.
Defined.

(** ** Re-arming a periodic task *)

(** X23. When a READY periodic task is executed and the end of the run
    plus the period is still a [uint32_t], the task is READY again
    with its [nextExecution] exactly one period after the end of the
    run, and its execution count is one higher (modulo 2^32). *)
Theorem periodic_rearm_in_range clock s k t :
  state t = READY -> 0 < period t ->
  0 <= clock (Datatypes.S k) + period t < 2 ^ 32 ->
  state (executeTask clock s k t).1.1.1 = READY
  /\ nextExecution (executeTask clock s k t).1.1.1 = clock (Datatypes.S k) + period t
  /\ executionCount (executeTask clock s k t).1.1.1 = wrap32 (executionCount t + 1)
  /\ (executeTask clock s k t).2 = [t].
Proof.
  intros Hs Hp Hfit. split; [|split].
  - rewrite executeTask_state by (unfold is_ready; rewrite Hs; reflexivity).
    apply Z.ltb_lt in Hp. rewrite Hp. reflexivity.
  - apply rearm_without_wrap; assumption.
  - unfold executeTask, is_ready. rewrite Hs. split; reflexivity.
Qed.

Definition periodic_task : Task := mkTask 1 idle 2 READY 0 1000 50 0 0 0 false.

Lemma periodic_rearm_in_range_witness :
  state (executeTask tick_clock empty 5%nat periodic_task).1.1.1 = READY
  /\ nextExecution (executeTask tick_clock empty 5%nat periodic_task).1.1.1
     = tick_clock 6%nat + period periodic_task
  /\ executionCount (executeTask tick_clock empty 5%nat periodic_task).1.1.1
     = wrap32 (executionCount periodic_task + 1)
  /\ (executeTask tick_clock empty 5%nat periodic_task).2 = [periodic_task].
Proof.
  apply periodic_rearm_in_range.
  - reflexivity.
  - reflexivity.
  - unfold tick_clock. simpl. lia.
Defined.

End SchedExtra.

(** * Further properties of the applications and their manager *)

Module AppsExtra.
Import AppManager AppsProofs.

(** ** The life cycle of one application *)

(** The states an application rests in between calls. *)
Definition settled (a : BaseApp.t) : Prop :=
  BaseApp.getState a = BaseApp.STOPPED
  \/ BaseApp.getState a = BaseApp.RUNNING
  \/ BaseApp.getState a = BaseApp.PAUSED.

Lemma step_settled a c : settled a -> settled (BaseApp.step a c).1.2.
Proof.
  unfold settled. intros Hs. destruct c; simpl.
  - unfold BaseApp.start, BaseApp.resume.
    destruct (BaseApp.getState a) eqn:H; simpl; rewrite ?H; auto.
  - unfold BaseApp.pause. destruct (BaseApp.getState a) eqn:H; simpl; rewrite ?H; auto.
  - unfold BaseApp.resume. destruct (BaseApp.getState a) eqn:H; simpl; rewrite ?H; auto.
  - unfold BaseApp.stop. destruct (BaseApp.getState a) eqn:H; simpl; rewrite ?H; auto.
Qed.

Lemma run_settled cs : forall a, settled a -> settled (BaseApp.run a cs).1.
Proof.
  induction cs as [|c cs IH]; intros a Ha; [exact Ha|].
  simpl. pose proof (step_settled a c Ha) as H1.
  destruct (BaseApp.step a c) as [[r a1] evs1]. simpl in H1.
  specialize (IH a1 H1). destruct (BaseApp.run a1 cs) as [a2 evs2]. exact IH.
Qed.

(** X24. Whatever sequence of [start], [pause], [resume] and [stop]
    calls is made on a newly constructed application, and whatever
    its [destroyUI] does to its data members, the application is
    STOPPED, RUNNING or PAUSED after each call: the states STARTING
    and STOPPING are passed through within a call, and the base class
    never leaves the application in ERROR. *)
Theorem lifecycle_states id name version i cs :
  settled (BaseApp.run (BaseApp.new id name version i) cs).1.
Proof. apply run_settled. left. reflexivity. Qed.

(** X25. [stop] succeeds from every state and leaves the application
    STOPPED; a second [stop] succeeds too, changes nothing and
    publishes no event, and [pause] and [resume] of the stopped
    application fail and change nothing. *)
Theorem stop_is_final a :
  (BaseApp.stop a).1.1 = OS_OK
  /\ BaseApp.getState (BaseApp.stop a).1.2 = BaseApp.STOPPED
  /\ BaseApp.stop (BaseApp.stop a).1.2 = (OS_OK, (BaseApp.stop a).1.2, [])
  /\ BaseApp.pause (BaseApp.stop a).1.2 = (OS_ERROR_GENERIC, (BaseApp.stop a).1.2, [])
  /\ BaseApp.resume (BaseApp.stop a).1.2 = (OS_ERROR_GENERIC, (BaseApp.stop a).1.2, []).
Proof.
  assert (Hst : BaseApp.getState (BaseApp.stop a).1.2 = BaseApp.STOPPED).
  { unfold BaseApp.stop. destruct (BaseApp.getState a) eqn:H; simpl; auto. }
  split; [unfold BaseApp.stop; destruct (BaseApp.getState a); reflexivity|].
  split; [exact Hst|].
  unfold BaseApp.pause, BaseApp.resume. unfold BaseApp.stop at 1. rewrite Hst.
  repeat split.
Qed.

Lemma setState_back a st :
  BaseApp.getState a = st -> BaseApp.setState (BaseApp.setState a BaseApp.PAUSED) st = a.
Proof. destruct a as [[] i]. simpl. intros <-. reflexivity. Qed.

Lemma pause_resume a :
  BaseApp.isRunning a = true ->
  BaseApp.pause a
  = (OS_OK, BaseApp.setState a BaseApp.PAUSED, [(EVENT_APP_SUSPEND, BaseApp.getId a)])
  /\ BaseApp.resume (BaseApp.setState a BaseApp.PAUSED)
     = (OS_OK, a, [(EVENT_APP_RESUME, BaseApp.getId a)]).
Proof.
  unfold BaseApp.isRunning, BaseApp.pause, BaseApp.resume.
  destruct (BaseApp.getState a) eqn:Hs; intros H; try discriminate H.
  split; [reflexivity|]. simpl. rewrite (setState_back a _ Hs). reflexivity.
Qed.

(** ** The manager *)

(** X26. [pauseApp] of a RUNNING application succeeds, publishes the
    suspend event and leaves the application not running; [resumeApp]
    after it succeeds, publishes the resume event, and every running
    application, the paused one included, is afterwards as it was
    before the two calls. *)
Theorem pause_then_resume_app s appId a :
  m_initialized s = true -> getApp s appId = Some a -> BaseApp.isRunning a = true ->
  (pauseApp s appId).1.1 = OS_OK
  /\ (pauseApp s appId).2 = [(EVENT_APP_SUSPEND, BaseApp.getId a)]
  /\ isAppRunning (pauseApp s appId).1.2 appId = false
  /\ (resumeApp (pauseApp s appId).1.2 appId).1.1 = OS_OK
  /\ (resumeApp (pauseApp s appId).1.2 appId).2 = [(EVENT_APP_RESUME, BaseApp.getId a)]
  /\ forall k, getApp (resumeApp (pauseApp s appId).1.2 appId).1.2 k = getApp s k.
Proof.
  intros Hi Ha Hrun. destruct (pause_resume a Hrun) as [Hp Hr].
  unfold pauseApp. rewrite Hi, Ha, Hp. simpl.
  unfold resumeApp, isAppRunning, getApp. simpl. rewrite Hi. simpl.
  rewrite find_insert_same, Hr. simpl.
  assert (Hnot : BaseApp.isRunning (BaseApp.setState a BaseApp.PAUSED) = false) by reflexivity.
  rewrite Hnot. repeat split.
  intros k. destruct (String.eqb_spec k appId) as [->|Hne].
  - rewrite find_insert_same. symmetry. exact Ha.
  - rewrite !find_insert_other by exact Hne. reflexivity.
Qed.

(** The application "calc" as [launchApp] started it at time 10. *)
Definition calc_app : BaseApp.t :=
  (BaseApp.start (BaseApp.new "calc" "calc" "1.0" plain) 10).1.2.

Lemma pause_then_resume_app_witness :
  (pauseApp calc_running "calc").1.1 = OS_OK
  /\ (pauseApp calc_running "calc").2
     = [(EVENT_APP_SUSPEND, BaseApp.getId calc_app)]
  /\ isAppRunning (pauseApp calc_running "calc").1.2 "calc" = false
  /\ (resumeApp (pauseApp calc_running "calc").1.2 "calc").1.1 = OS_OK
  /\ (resumeApp (pauseApp calc_running "calc").1.2 "calc").2
     = [(EVENT_APP_RESUME, BaseApp.getId calc_app)]
  /\ forall k, getApp (resumeApp (pauseApp calc_running "calc").1.2 "calc").1.2 k
               = getApp calc_running k.
Proof.
  apply (pause_then_resume_app calc_running "calc" calc_app).
  - reflexivity.
  - vm_compute. reflexivity.
  - reflexivity.
Defined.

(** [switchToApp] changes the manager only when it returns [OS_OK]. *)
Lemma switchToApp_fails s appId :
  (switchToApp s appId).1.1 <> OS_OK ->
  (switchToApp s appId).1.2 = s /\ (switchToApp s appId).2 = [].
Proof.
  unfold switchToApp.
  destruct (negb (m_initialized s) || String.eqb appId ""); [split; reflexivity|].
  destruct (getApp s appId) as [app|]; [|split; reflexivity].
  destruct (negb (BaseApp.isRunning app)); [split; reflexivity|].
  destruct (String.eqb (m_currentAppId s) appId); [split; reflexivity|].
  destruct (if String.eqb (m_currentAppId s) "" then _ else _) as [apps1 evs1].
  destruct (match StrMap.find appId apps1 with Some _ => _ | None => _ end) as [apps2 evs2].
  simpl. intros H. contradiction.
Qed.

(** X27. A [launchApp] that does not return [OS_OK] leaves the manager
    exactly as it was and publishes no event: no application is
    created, started or paused by a launch that fails. *)
Theorem launch_fails_cleanly s appId now :
  (launchApp s appId now).1.1 <> OS_OK ->
  (launchApp s appId now).1.2 = s /\ (launchApp s appId now).2 = [].
Proof.
  unfold launchApp.
  destruct (m_initialized s) eqn:Hi; [|split; reflexivity].
  destruct (String.eqb appId "") eqn:Hid; [split; reflexivity|]. simpl.
  destruct (isAppRunning s appId); [apply switchToApp_fails|].
  destruct (_ <=? _); [split; reflexivity|].
  destruct (createApp s appId) as [app|]; [|split; reflexivity].
  destruct (BaseApp.initialize app) as [r1 app1].
  destruct r1; try (split; reflexivity).
  destruct (BaseApp.start app1 now) as [[r2 app2] evs2] eqn:Hstart.
  apply start_running in Hstart as [-> Hrun2].
  match goal with |- context [switchToApp ?x appId] => set (s1 := x) end.
  apply String.eqb_neq in Hid.
  destruct (switchToApp_running s1 appId app2) as (s2 & evs3 & Hsw & _).
  - reflexivity.
  - exact Hid.
  - unfold getApp, s1. simpl. apply find_insert_same.
  - exact Hrun2.
  - rewrite Hsw. simpl. intros H. contradiction.
Qed.

Lemma launch_fails_cleanly_witness :
  (launchApp calc_running "clock" 20).1.2 = calc_running
  /\ (launchApp calc_running "clock" 20).2 = [].
Proof. apply launch_fails_cleanly. vm_compute. discriminate. Defined.

(** X28. After a successful [registerApp] the identifier is taken: a
    second [registerApp] under it is refused with [OS_ERROR_GENERIC]
    and changes nothing, and [createApp] for it calls the factory that
    was registered first.  Registering starts no application. *)
Theorem register_rejects_duplicate s appId f g :
  (registerApp s appId (Some f)).1 = OS_OK ->
  registerApp (registerApp s appId (Some f)).2 appId (Some g)
  = (OS_ERROR_GENERIC, (registerApp s appId (Some f)).2)
  /\ createApp (registerApp s appId (Some f)).2 appId = f tt
  /\ m_runningApps (registerApp s appId (Some f)).2 = m_runningApps s.
Proof.
  unfold registerApp at 1. unfold createApp.
  destruct (negb (m_initialized s) || String.eqb appId "") eqn:Hc;
    [intros H; discriminate H|].
  destruct (StrMap.find appId (m_appFactories s)) eqn:Hf; [intros H; discriminate H|].
  intros _. unfold registerApp at 2. unfold registerApp. rewrite Hc, Hf. simpl.
  rewrite Hc. rewrite find_insert_same. repeat split.
Qed.

Lemma register_rejects_duplicate_witness :
  registerApp (registerApp (initialize empty 0).2 "calc" (Some (factory_of "calc"))).2
              "calc" (Some (factory_of "clock"))
  = (OS_ERROR_GENERIC,
     (registerApp (initialize empty 0).2 "calc" (Some (factory_of "calc"))).2)
  /\ createApp (registerApp (initialize empty 0).2 "calc" (Some (factory_of "calc"))).2 "calc"
     = factory_of "calc" tt
  /\ m_runningApps (registerApp (initialize empty 0).2 "calc" (Some (factory_of "calc"))).2
     = m_runningApps (initialize empty 0).2.
Proof. apply register_rejects_duplicate. reflexivity. Defined.

(** ** Killing applications *)

Lemma switchToApp_no_current s k :
  m_currentAppId s = "" ->
  m_runningApps (switchToApp s k).1.2 = m_runningApps s
  /\ m_initialized (switchToApp s k).1.2 = m_initialized s
  /\ m_totalKills (switchToApp s k).1.2 = m_totalKills s.
Proof.
  intros Hcur. unfold switchToApp.
  destruct (negb (m_initialized s) || String.eqb k ""); [repeat split|].
  destruct (getApp s k) as [app|] eqn:Hget; [|repeat split].
  destruct (BaseApp.isRunning app) eqn:Hrun; [|repeat split]. simpl.
  rewrite Hcur. destruct (String.eqb "" k); [repeat split|].
  simpl. unfold getApp in Hget. rewrite Hget, (running_not_paused _ Hrun).
  repeat split.
Qed.

(** [killApp] of the application at the head of the map. *)
Lemma killApp_head s k v rest :
  m_initialized s = true -> k <> "" -> m_runningApps s = (k, v) :: rest ->
  m_runningApps (killApp s k).1.2 = rest
  /\ m_initialized (killApp s k).1.2 = true
  /\ m_totalKills (killApp s k).1.2 = wrap32 (m_totalKills s + 1).
Proof.
  intros Hi Hk Hm. unfold killApp. rewrite Hi.
  apply String.eqb_neq in Hk. rewrite Hk, Hm. simpl.
  rewrite String.eqb_refl. destruct (BaseApp.stop v) as [[r stopped] evs1].
  destruct (String.eqb (m_currentAppId s) k); [|repeat split; assumption].
  cbn [with_apps m_runningApps m_appFactories m_maxConcurrentApps m_totalLaunches
       m_totalKills m_lastCleanup m_initialized].
  destruct (StrMap.first_key rest) as [k'|]; [|repeat split].
  match goal with |- context [switchToApp ?x k'] =>
    pose proof (switchToApp_no_current x k' eq_refl) as (Ha & Hb & Hc);
    destruct (switchToApp x k') as [[r3 s3] evs3] end.
  simpl in *. rewrite Ha, Hb, Hc. repeat split.
Qed.

Lemma wrap32_add_succ x n :
  wrap32 (wrap32 (x + 1) + Z.of_nat n) = wrap32 (x + Z.of_nat (Datatypes.S n)).
Proof. unfold wrap32. rewrite Zplus_mod_idemp_l. f_equal. lia. Qed.

Lemma kill_each_all : forall apps s,
  m_initialized s = true -> m_runningApps s = apps ->
  (forall k, k ∈ (fst <$> apps) -> k <> "") ->
  m_runningApps (kill_each s (fst <$> apps)).1 = []
  /\ wrap32 (m_totalKills (kill_each s (fst <$> apps)).1)
     = wrap32 (m_totalKills s + Z.of_nat (length apps)).
Proof.
  induction apps as [|[k v] rest IH]; intros s Hi Hm Hks.
  { simpl. rewrite Z.add_0_r. split; [exact Hm|reflexivity]. }
  rewrite fmap_cons. cbn [kill_each fst].
  assert (Hk : k <> "") by (apply Hks; rewrite fmap_cons; left).
  destruct (killApp_head s k v rest Hi Hk Hm) as (Ha & Hb & Hc).
  destruct (killApp s k) as [[r s1] evs1]. simpl in Ha, Hb, Hc.
  destruct (IH s1 Hb Ha) as [IHa IHb].
  { intros k' Hk'. apply Hks. rewrite fmap_cons. right. exact Hk'. }
  destruct (kill_each s1 (fst <$> rest)) as [s2 evs2]. simpl in IHa, IHb. simpl fst.
  split; [exact IHa|]. rewrite IHb, Hc. apply wrap32_add_succ.
Qed.

(** X29. [killAllApps] on the initialized manager, no running
    application being filed under the empty identifier, leaves no
    application in the table and no foreground application, and counts
    one kill for every application there was. *)
Theorem kill_all_leaves_nothing s :
  m_initialized s = true ->
  (forall k, k ∈ (fst <$> m_runningApps s) -> k <> "") ->
  (killAllApps s).1.1 = OS_OK
  /\ m_runningApps (killAllApps s).1.2 = []
  /\ m_currentAppId (killAllApps s).1.2 = ""
  /\ getRunningApps (killAllApps s).1.2 = []
  /\ wrap32 (m_totalKills (killAllApps s).1.2)
     = wrap32 (m_totalKills s + StrMap.size (m_runningApps s)).
Proof.
  intros Hi Hks. unfold killAllApps, getRunningApps, StrMap.size.
  destruct (kill_each_all (m_runningApps s) s Hi eq_refl Hks) as [Ha Hb].
  destruct (kill_each s (fst <$> m_runningApps s)) as [s1 evs]. simpl in Ha, Hb.
  simpl. rewrite Ha. repeat split. exact Hb.
Qed.

Lemma kill_all_leaves_nothing_witness :
  (killAllApps three_launched).1.1 = OS_OK
  /\ m_runningApps (killAllApps three_launched).1.2 = []
  /\ m_currentAppId (killAllApps three_launched).1.2 = ""
  /\ getRunningApps (killAllApps three_launched).1.2 = []
  /\ wrap32 (m_totalKills (killAllApps three_launched).1.2)
     = wrap32 (m_totalKills three_launched + StrMap.size (m_runningApps three_launched)).
Proof.
  apply kill_all_leaves_nothing.
  - reflexivity.
  - intros k Hk. vm_compute in Hk.
    repeat (apply elem_of_cons in Hk as [->|Hk]; [discriminate|]).
    inversion Hk.
Defined.

(** ** Memory pressure *)

Lemma find_erase_other {A} (k k' : string) (m : StrMap.t A) :
  k' <> k -> StrMap.find k' (StrMap.erase k m) = StrMap.find k' m.
Proof.
  intros Hne. induction m as [|[k0 v0] m IH]; [reflexivity|].
  simpl. destruct (String.eqb_spec k k0) as [->|Hk].
  - apply String.eqb_neq in Hne. rewrite Hne. reflexivity.
  - simpl. rewrite IH. reflexivity.
Qed.

Lemma killApp_other s appId :
  appId <> m_currentAppId s ->
  m_currentAppId (killApp s appId).1.2 = m_currentAppId s
  /\ getApp (killApp s appId).1.2 (m_currentAppId s) = getApp s (m_currentAppId s).
Proof.
  intros Hne. unfold killApp.
  destruct (negb (m_initialized s) || String.eqb appId ""); [split; reflexivity|].
  destruct (StrMap.find appId (m_runningApps s)) as [app|]; [|split; reflexivity].
  destruct (BaseApp.stop app) as [[r stopped] evs1].
  cbn [m_currentAppId].
  assert (He : String.eqb (m_currentAppId s) appId = false)
    by (apply String.eqb_neq; congruence).
  rewrite He. simpl. split; [reflexivity|].
  unfold getApp. simpl. apply find_erase_other. congruence.
Qed.

Lemma kill_until_acceptable_spares : forall candidates s,
  Forall (fun c => c.1 <> m_currentAppId s) candidates ->
  m_currentAppId (kill_until_acceptable s candidates).1 = m_currentAppId s
  /\ getApp (kill_until_acceptable s candidates).1 (m_currentAppId s)
     = getApp s (m_currentAppId s).
Proof.
  induction candidates as [|[appId prio] rest IH]; intros s Hall; [split; reflexivity|].
  simpl. destruct (5 * getTotalMemoryUsage s <? 4 * OS_APP_HEAP_SIZE); [split; reflexivity|].
  apply Forall_cons in Hall as [Hne Hall]. simpl in Hne.
  destruct (killApp_other s appId Hne) as [Hcur Hget].
  destruct (killApp s appId) as [[r s1] evs1]. simpl in Hcur, Hget.
  rewrite <- Hcur in Hall. destruct (IH s1 Hall) as [IHcur IHget].
  destruct (kill_until_acceptable s1 rest) as [s2 evs2]. simpl in *.
  rewrite IHcur, Hcur in *. split; [reflexivity|]. rewrite IHget. exact Hget.
Qed.

(** X30. [enforceResourceLimits] never kills the foreground
    application: whatever the memory figures, the priorities and the
    sorting procedure, the foreground identifier and the application
    filed under it are afterwards what they were before.  When neither
    the applications' memory exceeds [OS_APP_HEAP_SIZE] nor the
    system's exceeds [OS_SYSTEM_HEAP_SIZE], nothing is killed at
    all. *)
Theorem enforce_spares_foreground S s systemMemory :
  m_currentAppId (enforceResourceLimits S s systemMemory).1 = m_currentAppId s
  /\ getApp (enforceResourceLimits S s systemMemory).1 (m_currentAppId s)
     = getApp s (m_currentAppId s)
  /\ (getTotalMemoryUsage s <= OS_APP_HEAP_SIZE /\ systemMemory <= OS_SYSTEM_HEAP_SIZE ->
      enforceResourceLimits S s systemMemory = (s, [])).
Proof.
  unfold enforceResourceLimits.
  destruct (Z.ltb_spec OS_APP_HEAP_SIZE (getTotalMemoryUsage s)) as [Happ|Happ];
    destruct (Z.ltb_spec OS_SYSTEM_HEAP_SIZE systemMemory) as [Hsys|Hsys]; simpl;
    try (split; [|split; [|intros [? ?]; lia]]; apply kill_until_acceptable_spares);
    try (repeat split; fail).
  all: try (rewrite (std_sort_perm S); apply Forall_fmap, Forall_forall;
            intros kv Hkv; apply list_elem_of_In, List.filter_In in Hkv as [_ Hkv];
            simpl; apply negb_true_iff, String.eqb_neq in Hkv; exact Hkv).
Qed.

(** Three applications that each report 3 MB once initialized, launched
    one after the other: the two in the background are killed, the
    first leaving 6 MB in use and the second 3 MB, and the foreground
    application stays. *)
Definition hungry : BaseApp.Impl :=
  BaseApp.mkImpl
    (fun f => (OS_OK,
               BaseApp.mkFields (BaseApp.m_id f) (BaseApp.m_name f) (BaseApp.m_version f)
                 (BaseApp.m_description f) (BaseApp.m_author f) (BaseApp.m_state f)
                 (BaseApp.m_priority f) (BaseApp.m_startTime f) (3 * 1024 * 1024)
                 (BaseApp.m_exitRequested f) (BaseApp.m_initialized f)
                 (BaseApp.m_uiContainer f)))
    (fun _ f => (Some OS_OK, f)) (fun f => (OS_OK, f)) (fun f => (OS_OK, f)).

Definition hungry_factory (appId : string) : AppFactory :=
  fun _ => Some (BaseApp.new appId appId "1.0" hungry).

Definition three_hungry : AppManager.t :=
  let s0 := (initialize empty 0).2 in
  let s1 := (registerApp s0 "calc" (Some (hungry_factory "calc"))).2 in
  let s2 := (registerApp s1 "clock" (Some (hungry_factory "clock"))).2 in
  let s3 := (registerApp s2 "notes" (Some (hungry_factory "notes"))).2 in
  let s4 := (launchApp s3 "calc" 10).1.2 in
  let s5 := (launchApp s4 "clock" 20).1.2 in
  (launchApp s5 "notes" 30).1.2.

Example three_hungry_enforced :
  getTotalMemoryUsage three_hungry = 9437184
  /\ m_currentAppId three_hungry = "notes"
  /\ states (enforceResourceLimits stable_sort three_hungry 0).1
     = [("notes", BaseApp.RUNNING)]
  /\ (enforceResourceLimits stable_sort three_hungry 0).2
     = [(EVENT_APP_EXIT, "calc"); (EVENT_APP_EXIT, "clock")].
Proof. vm_compute. repeat split; reflexivity. Qed.

End AppsExtra.
